(** * Queries: the evolutionary query-population engine

    A shallow embedding of [src/python/queries.py] (class [Queries]) and
    proofs of the properties its specification states.

    Python objects live in a store.  A [Query] object, its sequence of
    terms and a Python list of queries are all mutable and are referred
    to by address, so a population is a list object holding the addresses
    of [Query] objects: two entries of a population may be the same
    object, two objects may share one sequence of terms, and
    [self.queries] and [self._individuals] may be the same list object.
    A fitness value is a finite float, held as the rational it denotes;
    comparisons of finite floats are exact, and the arithmetic of
    [average_score] rounds to binary64 as Python's does. *)

From Stdlib Require Import QArith Qminmax Qround Qabs Qpower Lqa.
From Stdlib Require Import Permutation Sorted.
From Stdlib Require Floats.
From stdpp Require Import gmap strings list.

Local Open Scope Q_scope.
Local Open Scope nat_scope.

(** ** Python exceptions and results *)

Inductive Exc : Type :=
| IndexError
| ValueError
| TypeError
| ZeroDivisionError
| OverflowError
| SystemExit.

Inductive Result (A : Type) : Type :=
| Ok (a : A)
| Raise (e : Exc).

Arguments Ok {A} a.
Arguments Raise {A} e.

(** ** The store *)

Definition loc := nat.

(** Modelled from the spec: the class [Query] (query.py) is missing; the
    spec gives a query an ordered sequence of terms, a list object of its
    own that [mutate] changes in place, and a scalar fitness assigned from
    outside. *)
Record Query : Type := mkQuery {
  terms : loc;
  fitness : Q
}.

(** The store and the attributes of the one [Queries] instance [self].
    [objs] holds the [Query] objects, [term_lists] the sequences of terms
    and [lists] the lists of queries; the addresses below [next_obj],
    [next_terms] and [next_list] are the allocated ones. *)
Record State : Type := mkState {
  objs : loc -> Query;
  next_obj : loc;
  term_lists : loc -> list string;
  next_terms : loc;
  lists : loc -> list loc;
  next_list : loc;
  rng : list nat;
  _individuals : loc;
  queries : loc;
  _words : list string
}.

Definition upd {A : Type} (f : loc -> A) (a : loc) (v : A) : loc -> A :=
  fun x => if Nat.eqb x a then v else f x.

Definition set_objs (s : State) (o : loc -> Query) (n : loc) : State :=
  mkState o n (term_lists s) (next_terms s) (lists s) (next_list s) (rng s)
          (_individuals s) (queries s) (_words s).

Definition set_term_lists (s : State) (t : loc -> list string) (n : loc)
  : State :=
  mkState (objs s) (next_obj s) t n (lists s) (next_list s) (rng s)
          (_individuals s) (queries s) (_words s).

Definition set_lists (s : State) (l : loc -> list loc) (n : loc) : State :=
  mkState (objs s) (next_obj s) (term_lists s) (next_terms s) l n (rng s)
          (_individuals s) (queries s) (_words s).

Definition set_rng (s : State) (r : list nat) : State :=
  mkState (objs s) (next_obj s) (term_lists s) (next_terms s)
          (lists s) (next_list s) r
          (_individuals s) (queries s) (_words s).

Definition set_queries (s : State) (q : loc) : State :=
  mkState (objs s) (next_obj s) (term_lists s) (next_terms s)
          (lists s) (next_list s) (rng s)
          (_individuals s) q (_words s).

Definition set_individuals (s : State) (i : loc) : State :=
  mkState (objs s) (next_obj s) (term_lists s) (next_terms s)
          (lists s) (next_list s) (rng s)
          i (queries s) (_words s).

Definition set_words (s : State) (w : list string) : State :=
  mkState (objs s) (next_obj s) (term_lists s) (next_terms s)
          (lists s) (next_list s) (rng s)
          (_individuals s) (queries s) w.

(** ** A state and error monad for the methods

    A raised exception does not undo what the method did before it: a
    computation returns its result or its exception together with the
    state it stopped in. *)

Definition M (A : Type) : Type := State -> Result A * State.

Definition ret {A : Type} (a : A) : M A := fun s => (Ok a, s).

Definition bind {A B : Type} (c : M A) (k : A -> M B) : M B :=
  fun s => match c s with
           | (Ok a, s') => k a s'
           | (Raise e, s') => (Raise e, s')
           end.

Definition lift {A : Type} (r : Result A) : M A := fun s => (r, s).

Definition raise {A : Type} (e : Exc) : M A := fun s => (Raise e, s).

Definition get : M State := fun s => (Ok s, s).

Notation "x <- c ;; k" := (bind c (fun x => k))
  (at level 100, c at next level, right associativity).
Notation "c1 ;; c2" := (bind c1 (fun _ => c2))
  (at level 100, right associativity).

(** [try: c except ValueError as e: h(e)]. *)
Definition try_except_ValueError {A : Type} (c : M A) (h : Exc -> M A)
  : M A :=
  fun s => match c s with
           | (Raise ValueError, s') => h ValueError s'
           | r => r
           end.

Fixpoint mapM {A B : Type} (f : A -> M B) (l : list A) : M (list B) :=
  match l with
  | [] => ret []
  | x :: l' => y <- f x ;; r <- mapM f l' ;; ret (y :: r)
  end.

(** Store primitives. *)

(** Reading a list object. *)
Definition read_list (l : loc) : M (list loc) :=
  fun s => (Ok (lists s l), s).

(** Building a new list object (a list display or a comprehension). *)
Definition alloc_list (v : list loc) : M loc :=
  fun s => (Ok (next_list s),
            set_lists s (upd (lists s) (next_list s) v) (S (next_list s))).

(** Writing a list object in place. *)
Definition write_list (l : loc) (v : list loc) : M unit :=
  fun s => (Ok tt, set_lists s (upd (lists s) l v) (next_list s)).

(** [l.append(x)]. *)
Definition list_append (l : loc) (x : loc) : M unit :=
  v <- read_list l ;; write_list l (v ++ [x]).

(** [l.extend(v)]. *)
Definition list_extend (l : loc) (v : list loc) : M unit :=
  old <- read_list l ;; write_list l (old ++ v).

(** Creating a new [Query] object. *)
Definition alloc_obj (q : Query) : M loc :=
  fun s => (Ok (next_obj s),
            set_objs s (upd (objs s) (next_obj s) q) (S (next_obj s))).

(** Creating a new sequence of terms. *)
Definition alloc_terms (ts : list string) : M loc :=
  fun s => (Ok (next_terms s),
            set_term_lists s (upd (term_lists s) (next_terms s) ts)
                           (S (next_terms s))).

(** Writing a sequence of terms in place. *)
Definition write_terms (t : loc) (ts : list string) : M unit :=
  fun s => (Ok tt, set_term_lists s (upd (term_lists s) t ts) (next_terms s)).

(** Drawing from the random source leaves the rest [r]. *)
Definition put_rng (r : list nat) : M unit :=
  fun s => (Ok tt, set_rng s r).

(** [self.queries = l]: the attribute is bound to another list object. *)
Definition bind_queries (l : loc) : M unit :=
  fun s => (Ok tt, set_queries s l).

(** [self._individuals = l]. *)
Definition bind_individuals (l : loc) : M unit :=
  fun s => (Ok tt, set_individuals s l).

(** [self._words = words]. *)
Definition bind_words (words : list string) : M unit :=
  fun s => (Ok tt, set_words s words).

(** The population as the sequence of addresses [self.queries] holds. *)
Definition population (s : State) : list loc := lists s (queries s).

(** [x.fitness] for the object at address [x]. *)
Definition fitness_of (s : State) (x : loc) : Q := fitness (objs s x).

(** The terms of the object at address [x], read through its sequence. *)
Definition terms_of (s : State) (x : loc) : list string :=
  term_lists s (terms (objs s x)).

(** ** Builtins and the standard library *)

Fixpoint insert_by {A : Type} (le : A -> A -> bool) (x : A) (l : list A)
  : list A :=
  match l with
  | [] => [x]
  | y :: l' => if le x y then x :: y :: l' else y :: insert_by le x l'
  end.

(** The order [sorted] compares keys with. *)
Definition key_le {A : Type} (key : A -> Q) (reverse : bool) (x y : A)
  : bool :=
  if reverse then Qle_bool (key y) (key x) else Qle_bool (key x) (key y).

(** [sorted(l, key=key, reverse=reverse)]: a stable sort on the keys. *)
Definition sorted {A : Type} (l : list A) (key : A -> Q) (reverse : bool)
  : list A :=
  fold_right (insert_by (key_le key reverse)) [] l.

(** [l[i]]. *)
Definition getitem {A : Type} (l : list A) (i : nat) : Result A :=
  match nth_error l i with
  | Some x => Ok x
  | None => Raise IndexError
  end.

(** [a > b]. *)
Definition Qgt_bool (a b : Q) : bool := negb (Qle_bool a b).

(** A comprehension [[e for e in l if p(e)]] whose condition may raise. *)
Fixpoint filterM {A : Type} (p : A -> Result bool) (l : list A)
  : Result (list A) :=
  match l with
  | [] => Ok []
  | e :: l' =>
      match p e with
      | Raise x => Raise x
      | Ok b =>
          match filterM p l' with
          | Raise x => Raise x
          | Ok r => Ok (if b then e :: r else r)
          end
      end
  end.

(** *** Floats

    A Python [float] is an IEEE 754 binary64 number.  A finite one is held
    as the rational it denotes: an integer of at most 53 bits times a
    power of two from [2^-1074] to [2^971].  The sign of a zero is not
    kept: [==] and the operations below do not see it. *)
Inductive PyFloat : Type :=
| Finite (q : Q)
| Infinite (negative : bool)
| NaN.

(** The exponent of the leading bit of a positive rational [q]:
    [2^k <= q < 2^(k+1)]. *)
Definition ilog2 (q : Q) : Z :=
  let k := (Z.log2 (Qnum q) - Z.log2 (Zpos (Qden q)))%Z in
  if Qle_bool (2 ^ k) q then k else (k - 1)%Z.

(** Rounding to the nearest integer, a tie to the even one. *)
Definition round_half_even (x : Q) : Z :=
  let f := Qfloor x in
  match (x - inject_Z f ?= 1 # 2)%Q with
  | Lt => f
  | Gt => (f + 1)%Z
  | Eq => if Z.even f then f else (f + 1)%Z
  end.

(** The exponent of the last of the 53 bits of the float nearest to [q];
    below [2^-1022] the floats are the multiples of [2^-1074]. *)
Definition ulp_exponent (q : Q) : Z :=
  Z.max (ilog2 (Qabs q) - 52) (-1074).

(** The multiple of [2^(ulp_exponent q)] nearest to [q], a tie to the
    even one. *)
Definition nearest64 (q : Q) : Q :=
  (inject_Z (round_half_even (q / 2 ^ ulp_exponent q))
   * 2 ^ ulp_exponent q)%Q.

(** The float that an operation with the exact result [q] returns:
    round to nearest, ties to even; a result that rounds to [2^1024] or
    beyond is an infinity. *)
Definition round64 (q : Q) : PyFloat :=
  if Qeq_bool q 0 then Finite 0
  else if Qle_bool (2 ^ 1024) (Qabs (nearest64 q))
       then Infinite (negb (Qle_bool 0 q))
       else Finite (nearest64 q).

(** [x + y] for floats. *)
Definition float_add (x y : PyFloat) : PyFloat :=
  match x, y with
  | Finite a, Finite b => round64 (a + b)
  | Finite _, Infinite t => Infinite t
  | Infinite s, Finite _ => Infinite s
  | Infinite s, Infinite t => if Bool.eqb s t then Infinite s else NaN
  | NaN, _ | _, NaN => NaN
  end.

(** [x / y] for floats: a zero divisor raises, whatever [x] is. *)
Definition float_truediv (x y : PyFloat) : Result PyFloat :=
  match y with
  | Finite b =>
      if Qeq_bool b 0 then Raise ZeroDivisionError
      else match x with
           | Finite a => Ok (round64 (a / b))
           | Infinite s => Ok (Infinite (xorb s (negb (Qle_bool 0 b))))
           | NaN => Ok NaN
           end
  | Infinite _ =>
      match x with
      | Finite _ => Ok (Finite 0)
      | _ => Ok NaN
      end
  | NaN => Ok NaN
  end.

(** [float(n)] for an integer [n], as arithmetic between a float and an
    integer converts it: the nearest float, or [OverflowError]. *)
Definition float_of_int (n : Z) : Result PyFloat :=
  match round64 (inject_Z n) with
  | Infinite _ => Raise OverflowError
  | f => Ok f
  end.

(** [sum(l)] for a list of floats: starts from the integer 0 and adds
    from the left, and every addition rounds.  (CPython 3.12 and later
    carry the rounding errors along in a second float and add them at
    the end; the two agree whenever no addition rounds.) *)
Definition sum (l : list Q) : PyFloat :=
  fold_left (fun acc x => float_add acc (Finite x)) l (Finite 0).

(** [a / n] for a float [a] and a length [n]. *)
Definition truediv (a : PyFloat) (n : nat) : Result PyFloat :=
  match float_of_int (Z.of_nat n) with
  | Ok d => float_truediv a d
  | Raise e => Raise e
  end.

(** [enumerate(l)]. *)
Definition enumerate {A : Type} (l : list A) : list (nat * A) :=
  combine (seq 0 (length l)) l.

(** [i in l] for a list of integers. *)
Definition contains (l : list nat) (i : nat) : bool :=
  existsb (Nat.eqb i) l.

(** [copy.deepcopy(query)]: a new object whose sequence of terms is a new
    sequence with the same terms; the fitness, a number, is immutable. *)
Definition deepcopy (a : loc) : M loc :=
  s <- get ;;
  t <- alloc_terms (terms_of s a) ;;
  alloc_obj (mkQuery t (fitness (objs s a))).

(** [logging.ERROR(msg)]: [logging.ERROR] is the integer level 40, not
    the function [logging.error], and calling an integer raises. *)
Definition logging_ERROR : M unit := raise TypeError.

(** [exit(code)]. *)
Definition exit : M unit := raise SystemExit.

(** The random source: [randbelow(n)] takes the next word of [rng]. *)
Definition randbelow (n : nat) : M nat :=
  fun s => match rng s with
           | [] => (Ok 0, s)
           | r :: rest => (Ok (r mod n), set_rng s rest)
           end.

(** The selection loop of [random.sample] over a pool: the chosen slot is
    refilled with the last live element of the pool.  CPython takes this
    loop for a population of at most 21 elements (of more when [k > 5]);
    for a larger one it draws positions until it meets one not chosen
    yet, which gives [k] distinct positions too, though other ones from
    other random words. *)
Fixpoint sample_loop (pool : list nat) (k : nat) : M (list nat) :=
  match k with
  | 0 => ret []
  | S k' =>
      j <- randbelow (length pool) ;;
      rest <- sample_loop
                (take (length pool - 1) (<[j := List.last pool 0]> pool)) k' ;;
      ret (nth j pool 0 :: rest)
  end.

(** [random.sample(population, k)]. *)
Definition random_sample (population : list nat) (k : Z) : M (list nat) :=
  if ((0 <=? k)%Z && (k <=? Z.of_nat (length population))%Z)%bool
  then sample_loop population (Z.to_nat k)
  else raise ValueError.

(** ** The enumeration [RecombinationMode] *)

Inductive RecombinationMode : Type :=
| CLONE.

(** A value passed as [mode]: a member of the enumeration or anything
    else (named by its text). *)
Inductive ModeArg : Type :=
| Member (m : RecombinationMode)
| NotAMember (v : string).

(** ** The class [Query] *)

(** Modelled from the spec: [Query.size] (query.py is missing) is the
    number of terms. *)
Definition Query_size (s : State) (a : loc) : nat := length (terms_of s a).

Section Queries.

(** The mutation operator of [Query.mutate]: from the word pool, the
    random source and the terms to the new terms and the rest of the
    random source. *)
Variable Query_mutate :
  list string -> list nat -> list string -> list string * list nat.

(** The text that [Query.__repr__] builds from the terms. *)
Variable repr_of_terms : list string -> string.

(** Modelled from the spec: [Query.__repr__] (query.py is missing) is the
    canonical representation of the term content only: a text built from
    the terms, whatever the fitness. *)
Definition Query_repr (s : State) (a : loc) : string :=
  repr_of_terms (terms_of s a).

(** Modelled from the spec: [Query.mutate] (query.py is missing) is a
    stochastic operator that may add, remove or replace terms drawn from
    the word pool, possibly leaving none; it changes the query in place
    and never its fitness.  [query.mutate(words)] on the object at [a]
    rewrites its sequence of terms in place. *)
Definition call_mutate (a : loc) (words : list string) : M unit :=
  s <- get ;;
  put_rng (snd (Query_mutate words (rng s) (terms_of s a))) ;;
  write_terms (terms (objs s a))
              (fst (Query_mutate words (rng s) (terms_of s a))).

(** ** The class [Queries] *)

(** Modelled from the spec: [Population.__init__] (population.py is
    missing) keeps the initial sequence, here the list object [initial],
    as [self._individuals]; the rest is [Queries.__init__]. *)
Definition __init__ (words : list string) (initial : loc) : M unit :=
  bind_individuals initial ;;
  s <- get ;;
  bind_queries (_individuals s) ;;
  bind_words words.

(** [Queries.size]. *)
Definition size : M nat :=
  s <- get ;; l <- read_list (queries s) ;; ret (length l).

(** [Queries.average_score]. *)
Definition average_score : M PyFloat :=
  s <- get ;;
  l <- read_list (queries s) ;;
  if Nat.eqb (length l) 0 then ret (Finite 0)
  else
    s <- get ;;
    l1 <- read_list (queries s) ;;
    l2 <- read_list (queries s) ;;
    lift (truediv (sum (map (fitness_of s) l1)) (length l2)).

(** [Queries.recombine]. *)
Definition recombine (mode : ModeArg) : M unit :=
  match mode with
  | Member CLONE =>
      s <- get ;;
      l <- read_list (queries s) ;;
      clones <- mapM deepcopy l ;;
      s <- get ;;
      list_extend (queries s) clones
  | NotAMember _ =>
      logging_ERROR ;;
      exit
  end.

(** [Queries._without_lowest]: [l_sorted[0]] is evaluated once for every
    element of [l], inside the condition of the comprehension. *)
Definition _without_lowest {A : Type} (l : list A) (key : A -> Q)
  : Result (list A) :=
  let l_sorted := sorted l key false in
  filterM (fun e => match getitem l_sorted 0 with
                    | Ok m => Ok (Qgt_bool (key e) (key m))
                    | Raise x => Raise x
                    end) l.

(** The loop of [Queries.mutate]. *)
Fixpoint mutate_loop (qs : list loc) (new_queries : loc) : M unit :=
  match qs with
  | [] => ret tt
  | query :: rest =>
      s <- get ;;
      call_mutate query (_words s) ;;
      s <- get ;;
      (if Nat.ltb 0 (Query_size s query)
       then list_append new_queries query
       else ret tt) ;;
      mutate_loop rest new_queries
  end.

(** One turn of the loop of [mutate]. *)
Definition mutate_step (a nl : loc) (s : State) : State :=
  let m := Query_mutate (_words s) (rng s) (terms_of s a) in
  let s1 := set_term_lists (set_rng s (snd m))
              (upd (term_lists s) (terms (objs s a)) (fst m))
              (next_terms s) in
  if Nat.ltb 0 (length (fst m))
  then set_lists s1 (upd (lists s1) nl (lists s1 nl ++ [a])) (next_list s1)
  else s1.

(** [Queries.mutate]. *)
Definition mutate : M unit :=
  new_queries <- alloc_list [] ;;
  s <- get ;;
  l <- read_list (queries s) ;;
  mutate_loop l new_queries ;;
  bind_queries new_queries.

(** [Queries.select]. *)
Definition select : M unit :=
  s <- get ;;
  l <- read_list (queries s) ;;
  r <- lift (_without_lowest l (fitness_of s)) ;;
  n <- alloc_list r ;;
  bind_queries n.

(** [Queries.random_purge]. *)
Definition random_purge (k : Z) : M unit :=
  s <- get ;;
  l <- read_list (queries s) ;;
  random_indices <- random_sample (seq 0 (length l)) k ;;
  try_except_ValueError
    (s <- get ;;
     l <- read_list (queries s) ;;
     n <- alloc_list
            (map snd
               (List.filter (fun iq => negb (contains random_indices (fst iq)))
                            (enumerate l))) ;;
     bind_queries n)
    (fun e => logging_ERROR ;; raise e).

(** The loop of [Queries.remove_duplicates]. *)
Fixpoint remove_duplicates_loop (qs : list loc) (new_queries : loc)
    (seen_queries : gmap string bool) : M unit :=
  match qs with
  | [] => ret tt
  | query :: rest =>
      s <- get ;;
      match seen_queries !! Query_repr s query with
      | None =>
          list_append new_queries query ;;
          s <- get ;;
          remove_duplicates_loop rest new_queries
            (<[Query_repr s query := true]> seen_queries)
      | Some _ => remove_duplicates_loop rest new_queries seen_queries
      end
  end.

(** [Queries.remove_duplicates]. *)
Definition remove_duplicates : M unit :=
  new_queries <- alloc_list [] ;;
  s <- get ;;
  l <- read_list (queries s) ;;
  remove_duplicates_loop l new_queries ∅ ;;
  bind_queries new_queries.

(** The operations that filter the population. *)
Inductive FilterOp : Type :=
| Select
| Mutate
| RandomPurge (k : Z)
| RemoveDuplicates.

Definition run_filter (op : FilterOp) : M unit :=
  match op with
  | Select => select
  | Mutate => mutate
  | RandomPurge k => random_purge k
  | RemoveDuplicates => remove_duplicates
  end.

End Queries.

(** ** The class [Index] (index.py)

    [Index] wraps an Elasticsearch client.  The client and the service
    behind it are outside the repository: the client is a record of its
    methods, each a function on the state of the service that returns or
    raises.  The class [Vocabulary] (vocabulary.py) is missing; its method
    [add_words_from] is a parameter. *)

Module Index.

(** The dictionaries sent to the service and its responses. *)
#[warnings="-register-all"] Inductive Json : Type :=
| JString (s : string)
| JInt (n : Z)
| JObject (fields : list (string * Json)).

(** What a call may raise: a builtin exception, or an exception of the
    client library; the latter all derive from [Exception]. *)
Inductive Failure : Type :=
| Builtin (e : Exc)
| ClientError (message : string).

(** [isinstance(e, Exception)]: [SystemExit] is not an [Exception]. *)
Definition is_Exception (f : Failure) : bool :=
  match f with
  | Builtin SystemExit => false
  | _ => true
  end.

Inductive Outcome (A : Type) : Type :=
| Returns (a : A)
| Raises (f : Failure).

Arguments Returns {A} a.
Arguments Raises {A} f.

Section Client.

Variables Service Vocabulary : Type.

(** The methods of [elasticsearch.Elasticsearch] that [Index] calls, and
    [elasticsearch.helpers.bulk]. *)
Record Elasticsearch : Type := mkElasticsearch {
  es_indices_delete : string -> bool -> Service -> Outcome Json * Service;
  es_indices_create : string -> Json -> Service -> Outcome Json * Service;
  es_index : string -> string -> Json -> Service -> Outcome Json * Service;
  es_bulk : list Json -> string -> Service -> Outcome Json * Service;
  es_get : string -> Z -> Service -> Outcome Json * Service;
  es_search : string -> Json -> Service -> Outcome Json * Service;
  es_explain : string -> Z -> Json -> Service -> Outcome Json * Service
}.

(** [self.es]. *)
Variable es : Elasticsearch.

(** [Vocabulary.add_words_from]. *)
Variable add_words_from : string -> Vocabulary -> Outcome unit * Vocabulary.

(** The attributes of an [Index] and the state of the service. *)
Record Self : Type := mkSelf {
  name : string;
  service : Service;
  vocabulary : Vocabulary
}.

Definition IM (A : Type) : Type := Self -> Outcome A * Self.

Definition iret {A : Type} (a : A) : IM A := fun s => (Returns a, s).

Definition ibind {A B : Type} (c : IM A) (k : A -> IM B) : IM B :=
  fun s => match c s with
           | (Returns a, s') => k a s'
           | (Raises f, s') => (Raises f, s')
           end.

Definition iraise {A : Type} (f : Failure) : IM A := fun s => (Raises f, s).

(** A call of a method of the client. *)
Definition call (m : Service -> Outcome Json * Service) : IM Json :=
  fun s => (fst (m (service s)),
            mkSelf (name s) (snd (m (service s))) (vocabulary s)).

(** [self.vocabulary.add_words_from(text)]. *)
Definition add_words (text : string) : IM unit :=
  fun s => (fst (add_words_from text (vocabulary s)),
            mkSelf (name s) (service s)
                   (snd (add_words_from text (vocabulary s)))).

(** [try: c except Exception as e: h(e)]. *)
Definition try_except_Exception {A : Type} (c : IM A) (h : Failure -> IM A)
  : IM A :=
  fun s => match c s with
           | (Raises f, s') => if is_Exception f then h f s'
                               else (Raises f, s')
           | r => r
           end.

(** [logging.ERROR(str(e))]: calling the integer level raises. *)
Definition ilogging_ERROR : IM unit := iraise (Builtin TypeError).

(** [exit(1)]. *)
Definition iexit {A : Type} : IM A := iraise (Builtin SystemExit).

(** The handler of both [except] blocks. *)
Definition log_and_exit {A : Type} (e : Failure) : IM A :=
  ibind ilogging_ERROR (fun _ => iexit).

(** The body that [ensure_index] creates the index with. *)
Definition index_body : Json :=
  JObject
    [("settings"%string,
      JObject [("number_of_shards"%string, JInt 2);
               ("number_of_replicas"%string, JInt 1)]);
     ("mappings"%string,
      JObject [("properties"%string,
                JObject [("full_text"%string,
                          JObject [("type"%string,
                                    JString "text")])])])].

(** [Index.ensure_index]. *)
Definition ensure_index : IM unit :=
  try_except_Exception
    (fun s =>
       ibind (call (es_indices_delete es (name s) true))
             (fun _ =>
                ibind (call (es_indices_create es (name s) index_body))
                      (fun _ => iret tt))
             s)
    log_and_exit.

(** One action of [Index._bulk_data_generator]. *)
Definition bulk_action (index_name text : string) : Json :=
  JObject [("_op_type"%string, JString "index");
           ("_index"%string, JString index_name);
           ("_source"%string, JObject [("full_text"%string, JString text)])].

(** [Index._bulk_data_generator], as the sequence it yields. *)
Definition _bulk_data_generator (index_name : string) (texts : list string)
  : list Json :=
  map (bulk_action index_name) texts.

(** [Index.add]. *)
Definition add (text : string) : IM Json :=
  ibind (add_words text)
        (fun _ s =>
           call (es_index es (name s) "wait_for"
                          (JObject [("full_text"%string, JString text)])) s).

(** The loop of [Index.add_bulk]. *)
Fixpoint add_all_words (texts : list string) : IM unit :=
  match texts with
  | [] => iret tt
  | text :: rest => ibind (add_words text) (fun _ => add_all_words rest)
  end.

(** [Index.add_bulk]. *)
Definition add_bulk (texts : list string) : IM Json :=
  ibind (add_all_words texts)
        (fun _ s =>
           call (es_bulk es (_bulk_data_generator (name s) texts) "wait_for")
                s).

(** [Index.get]. *)
Definition get (id : Z) : IM Json :=
  fun s => call (es_get es (name s) id) s.

(** [Index.search]; [body] is [query.body]. *)
Definition search (body : Json) : IM Json :=
  fun s => call (es_search es (name s) body) s.

(** [Index.random_document]. *)
Definition random_document : IM Json :=
  fun s =>
    call (es_search es (name s)
            (JObject
               [("size"%string, JInt 1);
                ("query"%string,
                 JObject
                   [("function_score"%string,
                     JObject
                       [("query"%string,
                         JObject [("match_all"%string, JObject [])]);
                        ("random_score"%string, JObject [])])])]))
         s.

(** [Index.explain]; [body] is [query.body]. *)
Definition explain (body : Json) (id : Z) : IM Json :=
  try_except_Exception
    (fun s => call (es_explain es (name s) id body) s)
    log_and_exit.

(** One [add] for each text, in order, as a caller's loop makes them. *)
Fixpoint add_each (texts : list string) : IM unit :=
  match texts with
  | [] => iret tt
  | text :: rest => ibind (add text) (fun _ => add_each rest)
  end.

(** The text an action carries: [action['_source']['full_text']]. *)
Definition lookup_field (k : string) (j : Json) : option Json :=
  match j with
  | JObject fields =>
      match List.find (fun kv => String.eqb (fst kv) k) fields with
      | Some kv => Some (snd kv)
      | None => None
      end
  | _ => None
  end.

Definition action_text (action : Json) : option string :=
  match lookup_field "_source" action with
  | Some source =>
      match lookup_field "full_text" source with
      | Some (JString text) => Some text
      | _ => None
      end
  | None => None
  end.

End Client.

Arguments es_indices_delete {Service} e.
Arguments es_indices_create {Service} e.
Arguments es_index {Service} e.
Arguments es_bulk {Service} e.
Arguments es_get {Service} e.
Arguments es_search {Service} e.
Arguments es_explain {Service} e.
Arguments mkSelf {Service Vocabulary} name service vocabulary.
Arguments name {Service Vocabulary} s.
Arguments service {Service Vocabulary} s.
Arguments vocabulary {Service Vocabulary} s.
Arguments call {Service Vocabulary} m s.
Arguments add_words {Service Vocabulary} add_words_from text s.
Arguments ensure_index {Service Vocabulary} es s.
Arguments add {Service Vocabulary} es add_words_from text s.
Arguments add_all_words {Service Vocabulary} add_words_from texts s.
Arguments add_bulk {Service Vocabulary} es add_words_from texts s.
Arguments add_each {Service Vocabulary} es add_words_from texts s.
Arguments get {Service Vocabulary} es id s.
Arguments search {Service Vocabulary} es body s.
Arguments random_document {Service Vocabulary} es s.
Arguments explain {Service Vocabulary} es body id s.

(** A client whose service is the log of what it was sent; every call
    returns. *)
Definition logging_client : Elasticsearch (list Json) :=
  mkElasticsearch (list Json)
    (fun i _ log => (Returns (JObject []), log ++ [JString i]))
    (fun i b log => (Returns (JObject []), log ++ [b]))
    (fun i _ b log => (Returns (JObject []), log ++ [b]))
    (fun actions _ log => (Returns (JObject []), log ++ actions))
    (fun i _ log => (Returns (JObject []), log))
    (fun i _ log => (Returns (JObject []), log))
    (fun i _ _ log => (Returns (JObject []), log)).

(** A client none of whose calls gets through. *)
Definition failing_client : Elasticsearch (list Json) :=
  mkElasticsearch (list Json)
    (fun i _ log => (Raises (ClientError "connection refused"), log))
    (fun i b log => (Raises (ClientError "connection refused"), log))
    (fun i _ b log => (Raises (ClientError "connection refused"), log))
    (fun actions _ log => (Raises (ClientError "connection refused"), log))
    (fun i _ log => (Raises (ClientError "connection refused"), log))
    (fun i _ log => (Raises (ClientError "connection refused"), log))
    (fun i _ _ log => (Raises (ClientError "connection refused"), log)).

(** A vocabulary that is the list of the texts it was given. *)
Definition collect_text (text : string) (v : list string)
  : Outcome unit * list string :=
  (Returns tt, v ++ [text]).

End Index.

(** ** Example states *)

(** A store with one [Query] object for each element of [qs], its terms
    and its fitness: the object at address [i] has the sequence of terms
    at address [i].  One list object, at address [0], holds [pop] and is
    both [self._individuals] and [self.queries]. *)
Definition example_state (qs : list (list string * Q)) (pop : list loc)
    (r : list nat) (words : list string) : State :=
  mkState (fun a => mkQuery a (snd (nth a qs ([], 0%Q)))) (length qs)
          (fun a => fst (nth a qs ([], 0%Q))) (length qs)
          (upd (fun _ => []) 0 pop) 1 r 0 0 words.

(** Objects with the given fitness values and one term each. *)
Definition with_fitness (fs : list Q) : list (list string * Q) :=
  map (pair ["w"%string]) fs.

(** ** The specification's notions *)

(** The minimum of a non-empty sequence of fitness values. *)
Definition minimum (l : list Q) : option Q :=
  match l with
  | [] => None
  | x :: l' => Some (fold_right Qmin x l')
  end.

(** [a] has the minimum fitness over the individuals [l]. *)
Definition has_min_fitness (s : State) (l : list loc) (a : loc) : bool :=
  match minimum (map (fitness_of s) l) with
  | Some m => Qeq_bool (fitness_of s a) m
  | None => false
  end.

(** The object at [a] and its sequence of terms are allocated. *)
Definition allocated (s : State) (a : loc) : Prop :=
  a < next_obj s /\ terms (objs s a) < next_terms s.

(** The attributes of [self], the lists of queries and the random source
    are the same in both states. *)
Definition same_attributes (s s' : State) : Prop :=
  lists s' = lists s /\ next_list s' = next_list s /\ rng s' = rng s /\
  _individuals s' = _individuals s /\ queries s' = queries s /\
  _words s' = _words s.

(** The individuals are allocated objects that share no sequence of terms
    with one another, and the list of the population is allocated. *)
Definition separate (s : State) : Prop :=
  Forall (allocated s) (population s) /\
  List.NoDup (map (fun a => terms (objs s a)) (population s)) /\
  queries s < next_list s.

(** [n] calls of the method [c] in a row, as a driver makes them. *)
Fixpoint times (n : nat) (c : M unit) : M unit :=
  match n with
  | 0 => ret tt
  | S n' => c ;; times n' c
  end.

(** The arithmetic mean of a non-empty sequence of fitness values. *)
Definition mean (l : list Q) : Q :=
  (fold_right Qplus 0 l / inject_Z (Z.of_nat (length l)))%Q.

(** [q] is a finite float: an integer of at most 53 bits times a power of
    two in the exponent range of binary64. *)
Definition is_float64 (q : Q) : Prop :=
  exists m e : Z,
    (Z.abs m < 2 ^ 53)%Z /\ (-1074 <= e <= 971)%Z /\
    (q == inject_Z m * 2 ^ e)%Q.

(** The totals of [l] as they build up from [acc], without rounding. *)
Fixpoint running_totals (acc : Q) (l : list Q) : list Q :=
  match l with
  | [] => []
  | x :: l' => (acc + x)%Q :: running_totals (acc + x) l'
  end.

(** Adding [l] up from the left never rounds: every partial sum is a
    float. *)
Definition adds_exactly (l : list Q) : Prop :=
  Forall is_float64 (running_totals 0 l).

(** The unit roundoff of binary64. *)
Definition unit_roundoff : Q := 2 ^ (-53).

(** Half the smallest subnormal number. *)
Definition underflow_unit : Q := 2 ^ (-1075).

(** The factor by which [k] roundings can enlarge a value. *)
Definition growth (k : nat) : Q := (1 + unit_roundoff) ^ Z.of_nat k.

(** The float [0.1], that is [0x1.999999999999ap-4]. *)
Definition tenth : Q := 3602879701896397 # 36028797018963968.

(** The value of a binary64 number of the machine, to compare the
    operations on floats with the machine's. *)
Definition of_binary64 (f : PrimFloat.float) : PyFloat :=
  match FloatOps.Prim2SF f with
  | SpecFloat.S754_zero _ => Finite 0
  | SpecFloat.S754_finite s m e =>
      Finite ((if s then -1 else 1) * inject_Z (Zpos m) * 2 ^ e)%Q
  | SpecFloat.S754_infinity s => Infinite s
  | SpecFloat.S754_nan => NaN
  end.

(** Two floats are the same number. *)
Definition same_float (x y : PyFloat) : bool :=
  match x, y with
  | Finite a, Finite b => Qeq_bool a b
  | Infinite s, Infinite t => Bool.eqb s t
  | NaN, NaN => true
  | _, _ => false
  end.

(** [float_add] and [float_truediv] give what the machine gives. *)
Definition add_as_machine (xy : PrimFloat.float * PrimFloat.float) : bool :=
  same_float (float_add (of_binary64 (fst xy)) (of_binary64 (snd xy)))
             (of_binary64 (PrimFloat.add (fst xy) (snd xy))).

Definition div_as_machine (xy : PrimFloat.float * PrimFloat.float) : bool :=
  match float_truediv (of_binary64 (fst xy)) (of_binary64 (snd xy)) with
  | Ok r => same_float r (of_binary64 (PrimFloat.div (fst xy) (snd xy)))
  | Raise _ => false
  end.

(** The elements of [l] none of whose predecessors, [before] and then the
    elements of [l] to their left, has the same key: the first occurrence
    of each key, in order. *)
Fixpoint first_occurrences (key : loc -> string) (before l : list loc)
  : list loc :=
  match l with
  | [] => []
  | a :: l' =>
      if existsb (fun b => String.eqb (key b) (key a)) before
      then first_occurrences key (before ++ [a]) l'
      else a :: first_occurrences key (before ++ [a]) l'
  end.

(** A mutation that [Query.mutate] may perform: removing the first term. *)
Definition drop_first_term (words : list string) (r : list nat)
    (ts : list string) : list string * list nat :=
  (tl ts, r).

(** A representation of the term content: the terms separated by blanks. *)
Definition blank_separated (ts : list string) : string :=
  String.concat " " ts.

(** * Properties *)

(** ** The sort *)

Section Sorting.

Context {A : Type} (key : A -> Q) (reverse : bool).

Let R (x y : A) : Prop := key_le key reverse x y = true.

Lemma key_le_total x y : key_le key reverse x y = false -> R y x.
Proof.
  unfold R, key_le. destruct reverse; intros H.
  - apply Qle_bool_iff. destruct (Qlt_le_dec (key x) (key y)) as [Hlt | Hle].
    + apply Qlt_le_weak. exact Hlt.
    + apply Qle_bool_iff in Hle. congruence.
  - apply Qle_bool_iff. destruct (Qlt_le_dec (key y) (key x)) as [Hlt | Hle].
    + apply Qlt_le_weak. exact Hlt.
    + apply Qle_bool_iff in Hle. congruence.
Qed.

Lemma key_le_trans x y z : R x y -> R y z -> R x z.
Proof.
  unfold R, key_le. destruct reverse; rewrite !Qle_bool_iff; intros H1 H2.
  - eapply Qle_trans; eassumption.
  - eapply Qle_trans; eassumption.
Qed.

Lemma insert_by_Permutation (le : A -> A -> bool) x l :
  Permutation (insert_by le x l) (x :: l).
Proof.
  induction l as [| y l IH]; simpl.
  - reflexivity.
  - destruct (le x y).
    + reflexivity.
    + rewrite IH. apply perm_swap.
Qed.

Lemma sorted_Permutation l : Permutation (sorted l key reverse) l.
Proof.
  induction l as [| x l IH]; simpl.
  - reflexivity.
  - unfold sorted in *. simpl. rewrite insert_by_Permutation.
    apply perm_skip. exact IH.
Qed.

Lemma insert_by_StronglySorted x l :
  StronglySorted R l ->
  StronglySorted R (insert_by (key_le key reverse) x l).
Proof.
  induction 1 as [| y l Hs IH Hall]; simpl.
  - constructor; constructor.
  - destruct (key_le key reverse x y) eqn:E.
    + constructor.
      * constructor; assumption.
      * constructor; [exact E |].
        eapply List.Forall_impl; [| exact Hall].
        intros z Hz. eapply key_le_trans; [exact E | exact Hz].
    + constructor; [exact IH |].
      eapply Permutation_Forall.
      * symmetry. apply insert_by_Permutation.
      * constructor; [apply key_le_total; exact E | exact Hall].
Qed.

Lemma sorted_StronglySorted l : StronglySorted R (sorted l key reverse).
Proof.
  induction l as [| x l IH]; unfold sorted in *; simpl.
  - constructor.
  - apply insert_by_StronglySorted. exact IH.
Qed.

(** The first element of the sorted list is in the list and is below
    every element of it. *)
Lemma sorted_head m r l :
  sorted l key reverse = m :: r ->
  In m l /\ forall y, In y l -> R m y.
Proof.
  intros E. pose proof (sorted_Permutation l) as HP.
  pose proof (sorted_StronglySorted l) as HS.
  rewrite E in HP, HS. split.
  - eapply Permutation_in; [exact HP | left; reflexivity].
  - intros y Hy. apply (Permutation_in _ (Permutation_sym HP)) in Hy.
    inversion HS as [| ? ? _ Hall]; subst.
    destruct Hy as [-> | Hy].
    + unfold R, key_le. destruct reverse; apply Qle_bool_iff; apply Qle_refl.
    + rewrite List.Forall_forall in Hall. apply Hall. exact Hy.
Qed.

Lemma sorted_nil_inv l : sorted l key reverse = [] -> l = [].
Proof.
  intros E. pose proof (sorted_Permutation l) as HP. rewrite E in HP.
  apply Permutation_nil. exact HP.
Qed.

End Sorting.

(** ** Selection *)

Lemma fold_Qmin_spec (l : list Q) (x : Q) :
  (fold_right Qmin x l <= x)%Q /\
  (forall y, In y l -> (fold_right Qmin x l <= y)%Q) /\
  (fold_right Qmin x l == x \/
   exists y, In y l /\ fold_right Qmin x l == y)%Q.
Proof.
  induction l as [| a l (IH1 & IH2 & IH3)]; simpl.
  - split; [apply Qle_refl |]. split; [intros y [] |]. left. reflexivity.
  - split; [| split].
    + eapply Qle_trans; [apply Q.le_min_r | exact IH1].
    + intros y [-> | Hy].
      * apply Q.le_min_l.
      * eapply Qle_trans; [apply Q.le_min_r | apply IH2; exact Hy].
    + destruct (Q.min_spec a (fold_right Qmin x l)) as [[_ E] | [_ E]].
      * right. exists a. split; [left; reflexivity | exact E].
      * destruct IH3 as [E' | (y & Hy & E')].
        -- left. rewrite E. exact E'.
        -- right. exists y. split; [right; exact Hy | rewrite E; exact E'].
Qed.

Lemma minimum_spec (l : list Q) (m : Q) :
  minimum l = Some m ->
  (forall y, In y l -> (m <= y)%Q) /\ exists y, In y l /\ (y == m)%Q.
Proof.
  destruct l as [| x l]; simpl; [discriminate |].
  intros [= <-]. destruct (fold_Qmin_spec l x) as (H1 & H2 & H3). split.
  - intros y [<- | Hy]; [exact H1 | apply H2; exact Hy].
  - destruct H3 as [E | (y & Hy & E)].
    + exists x. split; [left; reflexivity | symmetry; exact E].
    + exists y. split; [right; exact Hy | symmetry; exact E].
Qed.

Lemma filterM_total {A : Type} (p : A -> Result bool) (f : A -> bool)
    (l : list A) :
  (forall e, In e l -> p e = Ok (f e)) -> filterM p l = Ok (List.filter f l).
Proof.
  induction l as [| e l IH]; simpl; intros H.
  - reflexivity.
  - rewrite (H e) by (left; reflexivity).
    rewrite IH by (intros e' He'; apply H; right; exact He').
    destruct (f e); reflexivity.
Qed.

Lemma filter_none {A : Type} (f : A -> bool) (l : list A) :
  (forall x, In x l -> f x = false) -> List.filter f l = [].
Proof.
  induction l as [| x l IH]; simpl; intros H; [reflexivity |].
  rewrite (H x) by (left; reflexivity).
  apply IH. intros y Hy. apply H. right. exact Hy.
Qed.

(** [_without_lowest] never raises, and drops the elements whose key is
    the minimum of the keys. *)
Lemma _without_lowest_spec {A : Type} (l : list A) (key : A -> Q) :
  _without_lowest l key =
  Ok (List.filter
        (fun e => negb match minimum (map key l) with
                       | Some m => Qeq_bool (key e) m
                       | None => false
                       end) l).
Proof.
  unfold _without_lowest. destruct (sorted l key false) as [| m0 r] eqn:E.
  - apply sorted_nil_inv in E. subst l. reflexivity.
  - destruct (sorted_head key false m0 r l E) as [Hin Hmin].
    simpl getitem. destruct (minimum (map key l)) as [m |] eqn:Em.
    2:{ destruct l; [destruct Hin | discriminate]. }
    destruct (minimum_spec _ _ Em) as [Hlow (y & Hy & Ey)].
    apply in_map_iff in Hy. destruct Hy as (b & <- & Hb).
    assert (Hm0 : (key m0 == m)%Q).
    { apply Qle_antisym.
      - rewrite <- Ey. apply Qle_bool_iff. apply (Hmin b Hb).
      - apply Hlow. apply in_map. exact Hin. }
    rewrite (filterM_total _ (fun e => Qgt_bool (key e) (key m0))) by reflexivity.
    f_equal. apply List.filter_ext_in. intros e He. unfold Qgt_bool. f_equal.
    pose proof (Hmin e He) as Hle. apply Qle_bool_iff in Hle.
    destruct (Qeq_bool (key e) m) eqn:Eq.
    + apply Qeq_bool_iff in Eq. apply Qle_bool_iff. rewrite Eq, Hm0.
      apply Qle_refl.
    + destruct (Qle_bool (key e) (key m0)) eqn:El; [| reflexivity].
      apply Qle_bool_iff in El.
      assert (key e == m)%Q as Hem
        by (rewrite <- Hm0; apply Qle_antisym; assumption).
      apply Qeq_bool_iff in Hem. congruence.
Qed.

(** What [select] computes, in one equation. *)
Lemma select_eq (s : State) :
  select s =
  (Ok tt,
   set_queries
     (set_lists s
        (upd (lists s) (next_list s)
           (List.filter (fun a => negb (has_min_fitness s (population s) a))
                        (population s)))
        (S (next_list s)))
     (next_list s)).
Proof.
  unfold select, bind, get, read_list, lift, alloc_list, bind_queries.
  simpl. rewrite _without_lowest_spec. reflexivity.
Qed.

Lemma population_after_select (s : State) :
  population (snd (select s)) =
  List.filter (fun a => negb (has_min_fitness s (population s) a))
              (population s).
Proof.
  rewrite select_eq. unfold population at 1. simpl. unfold upd.
  rewrite Nat.eqb_refl. reflexivity.
Qed.

(** C1. For every population, [select()] removes exactly the individuals
    whose fitness equals the minimum fitness over the population (every
    member tied for lowest) and keeps all others, in their order, without
    raising and without touching any [Query] object; in particular, when
    all individuals share one fitness the population is left empty. *)
Theorem select_removes_lowest (s : State) :
  fst (select s) = Ok tt /\
  population (snd (select s)) =
    List.filter (fun a => negb (has_min_fitness s (population s) a))
                (population s) /\
  (forall a, objs (snd (select s)) a = objs s a) /\
  ((forall a b, In a (population s) -> In b (population s) ->
      (fitness_of s a == fitness_of s b)%Q) ->
   population (snd (select s)) = []).
Proof.
  split; [rewrite select_eq; reflexivity |].
  split; [apply population_after_select |].
  split; [rewrite select_eq; reflexivity |].
  intros Hall. rewrite population_after_select.
  apply filter_none. intros a Ha.
  unfold has_min_fitness.
  destruct (minimum (map (fitness_of s) (population s))) as [m |] eqn:Em.
  - destruct (minimum_spec _ _ Em) as [_ (y & Hy & Ey)].
    apply in_map_iff in Hy. destruct Hy as (b & <- & Hb).
    assert (Qeq_bool (fitness_of s a) m = true) as ->; [| reflexivity].
    apply Qeq_bool_iff. rewrite <- Ey. apply Hall; assumption.
  - destruct (population s); [destruct Ha | discriminate].
Qed.

(** The spec's examples: fitness values 3, 3, 5, 1 leave 3, 3, 5, and
    2, 2, 2 leave nothing. *)
Example select_3351 :
  let s := example_state (with_fitness [3; 3; 5; 1]%Q) [0; 1; 2; 3] [] [] in
  map (fitness_of (snd (select s))) (population (snd (select s)))
  = [3; 3; 5]%Q.
Proof. vm_compute. reflexivity. Qed.

Lemma select_removes_lowest_witness :
  population
    (snd (select (example_state (with_fitness [2; 2; 2]%Q) [0; 1; 2] [] [])))
  = [].
Proof.
  apply (select_removes_lowest
           (example_state (with_fitness [2; 2; 2]%Q) [0; 1; 2] [] [])).
  intros a b Ha Hb. vm_compute in Ha, Hb.
  destruct Ha as [<- | [<- | [<- | []]]];
    destruct Hb as [<- | [<- | [<- | []]]]; reflexivity.
Defined.

(** C9. [select()] on an empty population returns normally and leaves the
    population empty: [l_sorted[0]] would raise [IndexError] there, but it
    stands inside the comprehension over [l] and is never evaluated. *)
Theorem select_empty (s : State) :
  population s = [] ->
  getitem (sorted (population s) (fitness_of s) false) 0 = Raise IndexError /\
  _without_lowest (population s) (fitness_of s) = Ok [] /\
  fst (select s) = Ok tt /\
  population (snd (select s)) = [].
Proof.
  intros E. split; [rewrite E; reflexivity |].
  split; [rewrite E; reflexivity |].
  split; [rewrite select_eq; reflexivity |].
  rewrite population_after_select, E. reflexivity.
Qed.

Lemma select_empty_witness :
  fst (select (example_state [] [] [] [])) = Ok tt /\
  population (snd (select (example_state [] [] [] []))) = [].
Proof.
  apply (select_empty (example_state [] [] [] [])). reflexivity.
Defined.

(** ** The average *)

(** *** Rounding to a float *)

Lemma pow2_pos (e : Z) : (0 < 2 ^ e)%Q.
Proof. apply Qpower_0_lt. reflexivity. Qed.

Lemma pow2_succ (e : Z) : (2 ^ (e + 1) == 2 * 2 ^ e)%Q.
Proof. rewrite Qpower_plus by discriminate. change (2 ^ 1)%Q with 2%Q. ring. Qed.

Lemma pow2_lt (a b : Z) : (a < b)%Z <-> (2 ^ a < 2 ^ b)%Q.
Proof.
  split; intros H.
  - apply Qpower_lt_compat_l; [exact H | reflexivity].
  - apply (Qpower_lt_compat_l_inv 2); [exact H | reflexivity].
Qed.

Lemma pow2_le (a b : Z) : (a <= b)%Z <-> (2 ^ a <= 2 ^ b)%Q.
Proof.
  split; intros H.
  - apply Qpower_le_compat_l; [exact H | discriminate].
  - apply (Qpower_le_compat_l_inv 2); [exact H | reflexivity].
Qed.

Lemma pow2_inject (n : Z) : (0 <= n)%Z -> (inject_Z (2 ^ n) == 2 ^ n)%Q.
Proof. intros H. apply (Zpower_Qpower 2 n H). Qed.

Lemma pow2_sub (a b : Z) : (2 ^ (a - b) == 2 ^ a / 2 ^ b)%Q.
Proof. apply Qpower_minus. discriminate. Qed.

Lemma Qdiv_lt_cross (a b c d : Q) :
  (0 < b)%Q -> (0 < d)%Q -> (a * d < c * b)%Q -> (a / b < c / d)%Q.
Proof.
  intros Hb Hd H. apply Qlt_shift_div_r; [exact Hb |].
  assert (E : (c / d * b == c * b / d)%Q) by (field; lra).
  rewrite E. apply Qlt_shift_div_l; assumption.
Qed.

Lemma Qdiv_le_cross (a b c d : Q) :
  (0 < b)%Q -> (0 < d)%Q -> (a * d <= c * b)%Q -> (a / b <= c / d)%Q.
Proof.
  intros Hb Hd H. apply Qle_shift_div_r; [exact Hb |].
  assert (E : (c / d * b == c * b / d)%Q) by (field; lra).
  rewrite E. apply Qle_shift_div_l; assumption.
Qed.

Lemma ilog2_spec (q : Q) :
  (0 < q)%Q -> (2 ^ ilog2 q <= q)%Q /\ (q < 2 ^ (ilog2 q + 1))%Q.
Proof.
  intros Hq. unfold ilog2.
  set (la := Z.log2 (Qnum q)). set (ld := Z.log2 (Zpos (Qden q))).
  assert (Hn : (0 < Qnum q)%Z).
  { unfold Qlt in Hq. simpl in Hq. lia. }
  destruct (Z.log2_spec (Qnum q) Hn) as [Hn1 Hn2].
  destruct (Z.log2_spec (Zpos (Qden q)) eq_refl) as [Hd1 Hd2].
  fold la in Hn1, Hn2. fold ld in Hd1, Hd2.
  assert (Hla : (0 <= la)%Z) by apply Z.log2_nonneg.
  assert (Hld : (0 <= ld)%Z) by apply Z.log2_nonneg.
  assert (Eq : (q == inject_Z (Qnum q) / inject_Z (Zpos (Qden q)))%Q).
  { destruct q as [n d]. simpl. apply Qmake_Qdiv. }
  set (N := inject_Z (Qnum q)) in *. set (D := inject_Z (Zpos (Qden q))) in *.
  assert (HA : (2 ^ la <= N)%Q).
  { rewrite <- pow2_inject by exact Hla. unfold N. rewrite <- Zle_Qle. exact Hn1. }
  assert (HA' : (N < 2 * 2 ^ la)%Q).
  { rewrite <- pow2_succ, <- pow2_inject by lia. unfold N.
    rewrite <- Zlt_Qlt. exact Hn2. }
  assert (HB : (2 ^ ld <= D)%Q).
  { rewrite <- pow2_inject by exact Hld. unfold D. rewrite <- Zle_Qle. exact Hd1. }
  assert (HB' : (D < 2 * 2 ^ ld)%Q).
  { rewrite <- pow2_succ, <- pow2_inject by lia. unfold D.
    rewrite <- Zlt_Qlt. exact Hd2. }
  pose proof (pow2_pos la) as PA. pose proof (pow2_pos ld) as PB.
  assert (PD : (0 < D)%Q) by lra.
  destruct (Qle_bool (2 ^ (la - ld)) q) eqn:T.
  - apply Qle_bool_iff in T. split; [exact T |].
    rewrite pow2_succ, pow2_sub, Eq.
    assert (E : (2 * (2 ^ la / 2 ^ ld) == 2 * 2 ^ la / 2 ^ ld)%Q) by (field; lra).
    rewrite E. apply Qdiv_lt_cross; [exact PD | exact PB | nra].
  - assert (T' : (q < 2 ^ (la - ld))%Q).
    { apply Qnot_le_lt. intros H. apply Qle_bool_iff in H. congruence. }
    split.
    + replace (la - ld - 1)%Z with (la - (ld + 1))%Z by lia.
      rewrite pow2_sub, pow2_succ, Eq.
      apply Qdiv_le_cross; [lra | exact PD | nra].
    + replace (la - ld - 1 + 1)%Z with (la - ld)%Z by lia. exact T'.
Qed.

Lemma ilog2_unique (q : Q) (k : Z) :
  (2 ^ k <= q)%Q -> (q < 2 ^ (k + 1))%Q -> ilog2 q = k.
Proof.
  intros H1 H2.
  assert (Hq : (0 < q)%Q) by (pose proof (pow2_pos k); lra).
  destruct (ilog2_spec q Hq) as [S1 S2].
  assert (A : (ilog2 q < k + 1)%Z) by (apply (proj2 (pow2_lt _ _)); lra).
  assert (B : (k < ilog2 q + 1)%Z) by (apply (proj2 (pow2_lt _ _)); lra).
  lia.
Qed.

Lemma ilog2_proper (q q' : Q) : (q == q')%Q -> (0 < q)%Q -> ilog2 q = ilog2 q'.
Proof.
  intros E Hq. destruct (ilog2_spec q Hq) as [S1 S2].
  symmetry. apply ilog2_unique; rewrite <- E; assumption.
Qed.

Lemma Qabs_nonzero (q : Q) : ~ (q == 0)%Q -> (0 < Qabs q)%Q.
Proof.
  intros Hq. destruct (Qlt_le_dec 0 q) as [H | H].
  - rewrite Qabs_pos by lra. exact H.
  - rewrite Qabs_neg by exact H.
    destruct (Qeq_dec q 0) as [Z | Z]; [contradiction | lra].
Qed.

Lemma ulp_exponent_proper (q q' : Q) :
  (q == q')%Q -> ~ (q == 0)%Q -> ulp_exponent q = ulp_exponent q'.
Proof.
  intros E Hq. unfold ulp_exponent. f_equal. f_equal.
  apply ilog2_proper; [rewrite E; reflexivity |].
  apply Qabs_nonzero. exact Hq.
Qed.

Lemma round_half_even_proper (x y : Q) :
  (x == y)%Q -> round_half_even x = round_half_even y.
Proof.
  intros E. unfold round_half_even.
  rewrite (Qfloor_comp x y E).
  assert (C : (x - inject_Z (Qfloor y) ?= 1 # 2)%Q
              = (y - inject_Z (Qfloor y) ?= 1 # 2)%Q).
  { apply Qcompare_comp; [rewrite E; reflexivity | reflexivity]. }
  rewrite C. reflexivity.
Qed.

Lemma round_half_even_Z (z : Z) : round_half_even (inject_Z z) = z.
Proof.
  unfold round_half_even. rewrite Qfloor_Z.
  assert (C : (inject_Z z - inject_Z z ?= 1 # 2)%Q = Lt).
  { apply Qlt_alt.
    assert (E : (inject_Z z - inject_Z z == 0)%Q) by ring.
    rewrite E. reflexivity. }
  rewrite C. reflexivity.
Qed.

Lemma nearest64_proper (q q' : Q) :
  (q == q')%Q -> ~ (q == 0)%Q -> nearest64 q = nearest64 q'.
Proof.
  intros E Hq. unfold nearest64.
  rewrite <- (ulp_exponent_proper q q' E Hq).
  rewrite (round_half_even_proper (q / 2 ^ ulp_exponent q)
             (q' / 2 ^ ulp_exponent q)); [reflexivity |].
  apply Qdiv_comp; [exact E | reflexivity].
Qed.

Lemma round64_proper (q q' : Q) : (q == q')%Q -> round64 q = round64 q'.
Proof.
  intros E. unfold round64.
  destruct (Qeq_bool q 0) eqn:Z0.
  - apply Qeq_bool_iff in Z0.
    assert (Z1 : Qeq_bool q' 0 = true) by (apply Qeq_bool_iff; rewrite <- E; exact Z0).
    rewrite Z1. reflexivity.
  - assert (Hq : ~ (q == 0)%Q) by (apply Qeq_bool_neq; exact Z0).
    assert (Z1 : Qeq_bool q' 0 = false).
    { destruct (Qeq_bool q' 0) eqn:T; [| reflexivity].
      apply Qeq_bool_iff in T. exfalso. apply Hq. rewrite E. exact T. }
    rewrite Z1, <- (nearest64_proper q q' E Hq).
    assert (S : Qle_bool 0 q = Qle_bool 0 q').
    { destruct (Qle_bool 0 q) eqn:A; destruct (Qle_bool 0 q') eqn:B; try reflexivity.
      - apply Qle_bool_iff in A. rewrite E in A. apply Qle_bool_iff in A. congruence.
      - apply Qle_bool_iff in B. rewrite <- E in B. apply Qle_bool_iff in B. congruence. }
    rewrite S. reflexivity.
Qed.

Lemma Qabs_inject_mul (m : Z) (x : Q) :
  (0 < x)%Q -> (Qabs (inject_Z m * x) == inject_Z (Z.abs m) * x)%Q.
Proof.
  intros Hx. rewrite Qabs_Qmult, (Qabs_pos x) by lra.
  apply Qmult_comp; [| reflexivity].
  unfold Qabs, inject_Z. simpl. reflexivity.
Qed.

Lemma round64_exact (q : Q) :
  is_float64 q -> exists r, round64 q = Finite r /\ (r == q)%Q.
Proof.
  intros (m & e & Hm & He & E). unfold round64.
  destruct (Qeq_bool q 0) eqn:Z0.
  { apply Qeq_bool_iff in Z0. exists 0%Q. split; [reflexivity | symmetry; exact Z0]. }
  assert (Hq : ~ (q == 0)%Q) by (apply Qeq_bool_neq; exact Z0).
  pose proof (pow2_pos e) as Pe.
  assert (Habs : (Qabs q == inject_Z (Z.abs m) * 2 ^ e)%Q).
  { rewrite E. apply Qabs_inject_mul. exact Pe. }
  assert (Hpos : (0 < Qabs q)%Q) by (apply Qabs_nonzero; exact Hq).
  assert (Hlt : (Qabs q < 2 ^ (53 + e))%Q).
  { rewrite Habs, Qpower_plus by discriminate.
    apply Qmult_lt_compat_r; [exact Pe |].
    rewrite <- (pow2_inject 53) by lia. rewrite <- Zlt_Qlt. exact Hm. }
  destruct (ilog2_spec (Qabs q) Hpos) as [S1 _].
  assert (HE : (ulp_exponent q <= e)%Z).
  { unfold ulp_exponent.
    assert (ilog2 (Qabs q) < 53 + e)%Z by (apply (proj2 (pow2_lt _ _)); lra).
    lia. }
  set (E' := ulp_exponent q) in *.
  assert (Hdiv : (q / 2 ^ E' == inject_Z (m * 2 ^ (e - E')))%Q).
  { rewrite inject_Z_mult, (pow2_inject (e - E')) by lia.
    rewrite pow2_sub, E. pose proof (pow2_pos E'). field. lra. }
  assert (Hn : (nearest64 q == q)%Q).
  { unfold nearest64. fold E'.
    rewrite (round_half_even_proper _ _ Hdiv), round_half_even_Z.
    rewrite <- Hdiv. pose proof (pow2_pos E'). field. lra. }
  assert (Hov : Qle_bool (2 ^ 1024) (Qabs (nearest64 q)) = false).
  { destruct (Qle_bool (2 ^ 1024) (Qabs (nearest64 q))) eqn:T; [| reflexivity].
    apply Qle_bool_iff in T. rewrite Hn in T.
    assert (H : (2 ^ (53 + e) <= 2 ^ 1024)%Q) by (apply (proj1 (pow2_le _ _)); lia).
    exfalso. apply (Qlt_irrefl (Qabs q)).
    eapply Qlt_le_trans; [exact Hlt |]. eapply Qle_trans; [exact H | exact T]. }
  rewrite Hov. exists (nearest64 q). split; [reflexivity | exact Hn].
Qed.

(** Rounding to an integer is monotone and odd. *)
Lemma round_half_even_bounds (x : Q) :
  (Qfloor x <= round_half_even x <= Qfloor x + 1)%Z.
Proof.
  unfold round_half_even.
  destruct (x - inject_Z (Qfloor x) ?= 1 # 2)%Q; [| lia | lia].
  destruct (Z.even (Qfloor x)); lia.
Qed.

Lemma round_half_even_monotone (x y : Q) :
  (x <= y)%Q -> (round_half_even x <= round_half_even y)%Z.
Proof.
  intros H. pose proof (Qfloor_resp_le x y H) as Hf.
  pose proof (round_half_even_bounds x) as Bx.
  pose proof (round_half_even_bounds y) as By.
  destruct (Z.eq_dec (Qfloor x) (Qfloor y)) as [E | N]; [| lia].
  unfold round_half_even. rewrite <- E.
  destruct (Qcompare_spec (x - inject_Z (Qfloor x)) (1 # 2)) as [Cx | Cx | Cx];
    destruct (Qcompare_spec (y - inject_Z (Qfloor x)) (1 # 2)) as [Cy | Cy | Cy];
    try (destruct (Z.even (Qfloor x))); try lia; exfalso; lra.
Qed.

Lemma round_half_even_ge (z : Z) (x : Q) :
  (inject_Z z <= x)%Q -> (z <= round_half_even x)%Z.
Proof.
  intros H. rewrite <- (round_half_even_Z z).
  apply round_half_even_monotone. exact H.
Qed.

Lemma round_half_even_le (z : Z) (x : Q) :
  (x <= inject_Z z)%Q -> (round_half_even x <= z)%Z.
Proof.
  intros H. rewrite <- (round_half_even_Z z).
  apply round_half_even_monotone. exact H.
Qed.

Lemma Qfloor_opp_frac (x : Q) :
  ~ (x == inject_Z (Qfloor x))%Q -> Qfloor (- x) = (- Qfloor x - 1)%Z.
Proof.
  intros Hx. pose proof (Qfloor_le x) as L. pose proof (Qlt_floor x) as U.
  pose proof (Qfloor_le (- x)) as L'. pose proof (Qlt_floor (- x)) as U'.
  rewrite inject_Z_plus in U, U'.
  assert (Hlt : (inject_Z (Qfloor x) < x)%Q).
  { apply Qle_lteq in L. destruct L as [L | L]; [exact L |].
    exfalso. apply Hx. symmetry. exact L. }
  assert (A : (inject_Z (Qfloor (- x)) < inject_Z (- Qfloor x))%Q).
  { rewrite inject_Z_opp. lra. }
  assert (B : (inject_Z (- Qfloor x - 2) < inject_Z (Qfloor (- x)))%Q).
  { unfold Z.sub. rewrite !inject_Z_plus, inject_Z_opp.
    change (inject_Z (- (2))) with (- (2))%Q. change (inject_Z 1) with 1%Q in *.
    lra. }
  rewrite <- Zlt_Qlt in A, B. lia.
Qed.

Lemma round_half_even_opp (x : Q) :
  round_half_even (- x) = (- round_half_even x)%Z.
Proof.
  destruct (Qeq_dec x (inject_Z (Qfloor x))) as [E | N].
  - rewrite (round_half_even_proper x _ E), round_half_even_Z.
    assert (E' : (- x == inject_Z (- Qfloor x))%Q)
      by (rewrite inject_Z_opp, <- E; reflexivity).
    rewrite (round_half_even_proper _ _ E'), round_half_even_Z. reflexivity.
  - unfold round_half_even. rewrite (Qfloor_opp_frac x N).
    set (f := Qfloor x) in *.
    assert (Ef : (inject_Z (- f - 1) == - inject_Z f - 1)%Q).
    { unfold Z.sub. rewrite inject_Z_plus, inject_Z_opp. reflexivity. }
    destruct (Qcompare_spec (x - inject_Z f) (1 # 2)) as [C | C | C];
      destruct (Qcompare_spec (- x - inject_Z (- f - 1)) (1 # 2))
        as [C' | C' | C']; rewrite Ef in C'; try (exfalso; lra); try lia.
    rewrite Z.even_sub, Z.even_opp. change (Z.even 1) with false.
    destruct (Z.even f); simpl; lia.
Qed.

Lemma Qabs_opp_eq (q : Q) : Qabs (- q) = Qabs q.
Proof. destruct q as [n d]. unfold Qabs, Qopp. simpl. rewrite Z.abs_opp. reflexivity. Qed.

Lemma Qabs_pos_eq (q : Q) : (0 <= q)%Q -> Qabs q = q.
Proof.
  destruct q as [n d]. unfold Qle, Qabs. simpl. intros H.
  rewrite Z.abs_eq by lia. reflexivity.
Qed.

Lemma ulp_exponent_opp (q : Q) : ulp_exponent (- q) = ulp_exponent q.
Proof. unfold ulp_exponent. rewrite Qabs_opp_eq. reflexivity. Qed.

Lemma nearest64_opp (q : Q) : (nearest64 (- q) == - nearest64 q)%Q.
Proof.
  unfold nearest64. rewrite ulp_exponent_opp.
  assert (E : (- q / 2 ^ ulp_exponent q == - (q / 2 ^ ulp_exponent q))%Q).
  { pose proof (pow2_pos (ulp_exponent q)). field. lra. }
  rewrite (round_half_even_proper _ _ E), round_half_even_opp, inject_Z_opp.
  ring.
Qed.

Lemma nearest64_nonneg (q : Q) : (0 <= q)%Q -> (0 <= nearest64 q)%Q.
Proof.
  intros H. unfold nearest64. pose proof (pow2_pos (ulp_exponent q)) as P.
  apply Qmult_le_0_compat; [| lra].
  change 0%Q with (inject_Z 0). rewrite <- Zle_Qle.
  apply round_half_even_ge. change (inject_Z 0) with 0%Q.
  apply Qle_shift_div_l; [exact P | lra].
Qed.

Lemma nearest64_zero (q : Q) : (q == 0)%Q -> (nearest64 q == 0)%Q.
Proof.
  intros E. unfold nearest64. set (e := ulp_exponent q).
  assert (E' : (q / 2 ^ e == inject_Z 0)%Q).
  { rewrite E. pose proof (pow2_pos e).
    change (inject_Z 0) with 0%Q. field. lra. }
  rewrite (round_half_even_proper _ _ E'), round_half_even_Z.
  change (inject_Z 0) with 0%Q. ring.
Qed.

Lemma ilog2_monotone (q1 q2 : Q) :
  (0 < q1)%Q -> (q1 <= q2)%Q -> (ilog2 q1 <= ilog2 q2)%Z.
Proof.
  intros H1 H12.
  destruct (ilog2_spec q1 H1) as [A _].
  destruct (ilog2_spec q2) as [_ B]; [lra |].
  assert (ilog2 q1 < ilog2 q2 + 1)%Z by (apply (proj2 (pow2_lt _ _)); lra).
  lia.
Qed.

(** A positive [q] lies below [2^53] units of its last place, and at or
    above [2^52] of them unless it is subnormal. *)
Lemma nearest64_upper (q : Q) :
  (0 < q)%Q -> (nearest64 q <= 2 ^ (ulp_exponent q + 53))%Q.
Proof.
  intros H. unfold nearest64. set (e := ulp_exponent q).
  pose proof (pow2_pos e) as P.
  destruct (ilog2_spec q H) as [_ B].
  assert (He : (ilog2 q + 1 <= e + 53)%Z).
  { unfold e, ulp_exponent. rewrite Qabs_pos_eq by lra. lia. }
  assert (Hq : (q <= 2 ^ (e + 53))%Q).
  { apply Qlt_le_weak. eapply Qlt_le_trans; [exact B |].
    apply (proj1 (pow2_le _ _)). exact He. }
  rewrite Qpower_plus by discriminate. rewrite (Qmult_comm (2 ^ e)).
  apply Qmult_le_compat_r; [| lra].
  rewrite <- (pow2_inject 53) by lia. rewrite <- Zle_Qle.
  apply round_half_even_le. rewrite (pow2_inject 53) by lia.
  apply Qle_shift_div_r; [exact P |].
  rewrite Qpower_plus in Hq by discriminate. rewrite Qmult_comm. exact Hq.
Qed.

Lemma nearest64_lower (q : Q) :
  (0 < q)%Q -> (-1074 < ulp_exponent q)%Z ->
  (2 ^ (ulp_exponent q + 52) <= nearest64 q)%Q.
Proof.
  intros H Hn. unfold nearest64. set (e := ulp_exponent q) in *.
  pose proof (pow2_pos e) as P.
  destruct (ilog2_spec q H) as [A _].
  assert (He : (e + 52 = ilog2 q)%Z).
  { unfold e, ulp_exponent in *. rewrite Qabs_pos_eq in * by lra. lia. }
  rewrite <- He in A.
  rewrite Qpower_plus by discriminate. rewrite (Qmult_comm (2 ^ e)).
  apply Qmult_le_compat_r; [| lra].
  rewrite <- (pow2_inject 52) by lia. rewrite <- Zle_Qle.
  apply round_half_even_ge. rewrite (pow2_inject 52) by lia.
  apply Qle_shift_div_l; [exact P |].
  rewrite Qpower_plus in A by discriminate. rewrite Qmult_comm. exact A.
Qed.

Lemma nearest64_monotone_pos (q1 q2 : Q) :
  (0 < q1)%Q -> (q1 <= q2)%Q -> (nearest64 q1 <= nearest64 q2)%Q.
Proof.
  intros H1 H12.
  assert (He : (ulp_exponent q1 <= ulp_exponent q2)%Z).
  { unfold ulp_exponent. rewrite !Qabs_pos_eq by lra.
    pose proof (ilog2_monotone q1 q2 H1 H12). lia. }
  destruct (Z.eq_dec (ulp_exponent q1) (ulp_exponent q2)) as [E | N].
  - unfold nearest64. rewrite <- E. pose proof (pow2_pos (ulp_exponent q1)) as P.
    apply Qmult_le_compat_r; [| lra]. rewrite <- Zle_Qle.
    apply round_half_even_monotone.
    apply Qmult_le_compat_r; [exact H12 |].
    apply Qlt_le_weak, Qinv_lt_0_compat. exact P.
  - assert (Hn : (-1074 < ulp_exponent q2)%Z).
    { unfold ulp_exponent in *. lia. }
    eapply Qle_trans; [apply nearest64_upper; exact H1 |].
    eapply Qle_trans; [| apply nearest64_lower; [lra | exact Hn]].
    apply (proj1 (pow2_le _ _)). lia.
Qed.

(** Rounding to a float is monotone. *)
Lemma nearest64_monotone (q1 q2 : Q) :
  (q1 <= q2)%Q -> (nearest64 q1 <= nearest64 q2)%Q.
Proof.
  intros H12.
  destruct (Qlt_le_dec 0 q1) as [P1 | N1].
  - apply nearest64_monotone_pos; assumption.
  - destruct (Qlt_le_dec q2 0) as [N2 | P2].
    + assert (H : (nearest64 (- q2) <= nearest64 (- q1))%Q)
        by (apply nearest64_monotone_pos; lra).
      rewrite !nearest64_opp in H. lra.
    + pose proof (nearest64_nonneg q2 P2) as A.
      assert (B : (0 <= nearest64 (- q1))%Q) by (apply nearest64_nonneg; lra).
      rewrite nearest64_opp in B. lra.
Qed.

Lemma nearest64_exact (q : Q) : is_float64 q -> (nearest64 q == q)%Q.
Proof.
  intros H. destruct (Qeq_dec q 0) as [Z | N].
  - rewrite (nearest64_zero q Z). symmetry. exact Z.
  - destruct (round64_exact q H) as (r & Hr & Er). unfold round64 in Hr.
    destruct (Qeq_bool q 0) eqn:T.
    + apply Qeq_bool_iff in T. contradiction.
    + destruct (Qle_bool (2 ^ 1024) (Qabs (nearest64 q))); [discriminate |].
      injection Hr as <-. exact Er.
Qed.

Lemma round64_value (q r : Q) : round64 q = Finite r -> (r == nearest64 q)%Q.
Proof.
  unfold round64. destruct (Qeq_bool q 0) eqn:T.
  - intros H. injection H as <-. apply Qeq_bool_iff in T.
    symmetry. apply nearest64_zero. exact T.
  - destruct (Qle_bool (2 ^ 1024) (Qabs (nearest64 q))); [discriminate |].
    intros H. injection H as <-. reflexivity.
Qed.

Lemma round64_monotone (q q' r r' : Q) :
  (q <= q')%Q -> round64 q = Finite r -> round64 q' = Finite r' -> (r <= r')%Q.
Proof.
  intros H Hr Hr'. rewrite (round64_value _ _ Hr), (round64_value _ _ Hr').
  apply nearest64_monotone. exact H.
Qed.

Lemma is_float64_bound (q : Q) : is_float64 q -> (Qabs q < 2 ^ 1024)%Q.
Proof.
  intros (m & e & Hm & He & E). pose proof (pow2_pos e) as Pe.
  rewrite E, Qabs_inject_mul by exact Pe.
  eapply Qlt_le_trans; [| apply (proj1 (pow2_le (53 + e) 1024)); lia].
  rewrite Qpower_plus by discriminate.
  apply Qmult_lt_compat_r; [exact Pe |].
  rewrite <- (pow2_inject 53) by lia. rewrite <- Zlt_Qlt. exact Hm.
Qed.

(** Between two floats an exact result rounds to a float between them. *)
Lemma round64_between (lo hi q : Q) :
  is_float64 lo -> is_float64 hi -> (lo <= q <= hi)%Q ->
  exists r, round64 q = Finite r /\ (lo <= r <= hi)%Q.
Proof.
  intros Hlo Hhi [H1 H2].
  pose proof (nearest64_monotone _ _ H1) as M1.
  pose proof (nearest64_monotone _ _ H2) as M2.
  rewrite (nearest64_exact lo Hlo) in M1. rewrite (nearest64_exact hi Hhi) in M2.
  pose proof (is_float64_bound lo Hlo) as Blo.
  pose proof (is_float64_bound hi Hhi) as Bhi.
  unfold round64. destruct (Qeq_bool q 0) eqn:T.
  - apply Qeq_bool_iff in T. exists 0%Q. split; [reflexivity | lra].
  - assert (Hov : Qle_bool (2 ^ 1024) (Qabs (nearest64 q)) = false).
    { destruct (Qle_bool (2 ^ 1024) (Qabs (nearest64 q))) eqn:O; [| reflexivity].
      apply Qle_bool_iff in O. exfalso.
      set (B := (2 ^ 1024)%Q) in *.
      revert O Blo Bhi. apply Qabs_case; intros; revert Blo Bhi;
        apply Qabs_case; intros; revert Bhi; apply Qabs_case; intros; lra. }
    rewrite Hov. exists (nearest64 q). split; [reflexivity | lra].
Qed.

(** An integer of fewer than 54 bits is a float. *)
Lemma is_float64_Z (z : Z) : (Z.abs z < 2 ^ 53)%Z -> is_float64 (inject_Z z).
Proof.
  intros H. exists z, 0%Z. split; [exact H |]. split; [lia |].
  change (2 ^ 0)%Q with 1%Q. ring.
Qed.

Lemma is_float64_proper (q q' : Q) : (q == q')%Q -> is_float64 q -> is_float64 q'.
Proof.
  intros E (m & e & Hm & He & Hq). exists m, e.
  split; [exact Hm |]. split; [exact He |]. rewrite <- E. exact Hq.
Qed.

(** *** The result is a float, and a nearest one *)

Lemma is_float64_opp (q : Q) : is_float64 q -> is_float64 (- q).
Proof.
  intros (m & e & Hm & He & E). exists (- m)%Z, e.
  split; [rewrite Z.abs_opp; exact Hm |]. split; [exact He |].
  rewrite E, inject_Z_opp. ring.
Qed.

Lemma ulp_exponent_min (q : Q) : (-1074 <= ulp_exponent q)%Z.
Proof. unfold ulp_exponent. lia. Qed.

Lemma nearest64_is_float64_pos (q : Q) :
  (0 < q)%Q -> (nearest64 q < 2 ^ 1024)%Q -> is_float64 (nearest64 q).
Proof.
  intros Hq Hov. pose proof (nearest64_upper q Hq) as U.
  pose proof (nearest64_nonneg q (Qlt_le_weak _ _ Hq)) as P.
  pose proof (ulp_exponent_min q) as Hmin.
  unfold nearest64 in *. set (e := ulp_exponent q) in *.
  set (m := round_half_even (q / 2 ^ e)) in *.
  pose proof (pow2_pos e) as Pe.
  assert (Hm0 : (0 <= m)%Z).
  { rewrite Zle_Qle. change (inject_Z 0) with 0%Q. nra. }
  assert (Hm1 : (m <= 2 ^ 53)%Z).
  { rewrite Zle_Qle, (pow2_inject 53) by lia.
    rewrite Qpower_plus in U by discriminate.
    apply (Qmult_le_r _ _ (2 ^ e)); [exact Pe |].
    rewrite (Qmult_comm (2 ^ 53)). exact U. }
  destruct (Z.eq_dec m (2 ^ 53)%Z) as [E | N].
  - assert (Hr : (inject_Z m * 2 ^ e == 2 ^ (e + 53))%Q).
    { rewrite E, (pow2_inject 53), Qpower_plus by (lia || discriminate). ring. }
    rewrite Hr in Hov. apply (proj2 (pow2_lt _ _)) in Hov.
    exists (2 ^ 52)%Z, (e + 1)%Z. split; [reflexivity |]. split; [lia |].
    rewrite Hr, (pow2_inject 52) by lia.
    rewrite <- Qpower_plus by discriminate.
    replace (52 + (e + 1))%Z with (e + 53)%Z by lia. reflexivity.
  - exists m, e. split; [lia |]. split; [| reflexivity].
    split; [exact Hmin |].
    destruct (Z_le_gt_dec e 971) as [L | G]; [exact L | exfalso].
    assert (Hn : (-1074 < ulp_exponent q)%Z) by (fold e; lia).
    pose proof (nearest64_lower q Hq Hn) as Lo.
    unfold nearest64 in Lo. fold e in Lo. fold m in Lo.
    assert (H : (2 ^ (e + 52) < 2 ^ 1024)%Q) by lra.
    apply (proj2 (pow2_lt _ _)) in H. lia.
Qed.

(** A finite result of an operation is a float. *)
Lemma round64_is_float64 (q r : Q) : round64 q = Finite r -> is_float64 r.
Proof.
  unfold round64. destruct (Qeq_bool q 0) eqn:T.
  { intros H. injection H as <-. apply (is_float64_Z 0). reflexivity. }
  assert (Hq : ~ (q == 0)%Q) by (apply Qeq_bool_neq; exact T).
  destruct (Qle_bool (2 ^ 1024) (Qabs (nearest64 q))) eqn:O; [discriminate |].
  intros H. injection H as <-.
  assert (Hov : (Qabs (nearest64 q) < 2 ^ 1024)%Q).
  { apply Qnot_le_lt. intros C. apply Qle_bool_iff in C. congruence. }
  destruct (Qlt_le_dec 0 q) as [P | N].
  - apply nearest64_is_float64_pos; [exact P |].
    rewrite Qabs_pos in Hov; [exact Hov |].
    apply nearest64_nonneg. lra.
  - assert (P : (0 < - q)%Q).
    { destruct (Qeq_dec q 0) as [Z | Z]; [contradiction | lra]. }
    apply (is_float64_proper (- nearest64 (- q))).
    { rewrite nearest64_opp. ring. }
    apply is_float64_opp. apply nearest64_is_float64_pos; [exact P |].
    pose proof (nearest64_nonneg (- q) (Qlt_le_weak _ _ P)) as NN.
    rewrite nearest64_opp in *. rewrite Qabs_neg in Hov by lra. exact Hov.
Qed.

Ltac Qabs_cases t :=
  let H := fresh "Hsign" in
  destruct (Qlt_le_dec 0 t) as [H | H];
  [rewrite (Qabs_pos t) by lra | rewrite (Qabs_neg t) by exact H].

Lemma round_half_even_nearest (x : Q) (k : Z) :
  (Qabs (inject_Z (round_half_even x) - x) <= Qabs (inject_Z k - x))%Q.
Proof.
  pose proof (Qfloor_le x) as L. pose proof (Qlt_floor x) as U.
  rewrite inject_Z_plus in U. change (inject_Z 1) with 1%Q in U.
  assert (Hk : (k <= Qfloor x)%Z \/ (Qfloor x + 1 <= k)%Z) by lia.
  assert (Hk' : (inject_Z k <= inject_Z (Qfloor x))%Q
                \/ (inject_Z (Qfloor x) + 1 <= inject_Z k)%Q).
  { destruct Hk as [H | H]; [left | right].
    - rewrite <- Zle_Qle. exact H.
    - change 1%Q with (inject_Z 1). rewrite <- inject_Z_plus, <- Zle_Qle.
      exact H. }
  unfold round_half_even. set (f := Qfloor x) in *.
  destruct (Qcompare_spec (x - inject_Z f) (1 # 2)) as [C | C | C];
    cbv beta iota.
  - destruct (Z.even f).
    + Qabs_cases (inject_Z f - x)%Q; Qabs_cases (inject_Z k - x)%Q;
        destruct Hk'; lra.
    + rewrite inject_Z_plus. change (inject_Z 1) with 1%Q.
      Qabs_cases (inject_Z f + 1 - x)%Q; Qabs_cases (inject_Z k - x)%Q;
        destruct Hk'; lra.
  - Qabs_cases (inject_Z f - x)%Q; Qabs_cases (inject_Z k - x)%Q;
      destruct Hk'; lra.
  - rewrite inject_Z_plus. change (inject_Z 1) with 1%Q.
    Qabs_cases (inject_Z f + 1 - x)%Q; Qabs_cases (inject_Z k - x)%Q;
      destruct Hk'; lra.
Qed.

Lemma Qabs_scale (a x : Q) : (0 < x)%Q -> (Qabs (a * x) == Qabs a * x)%Q.
Proof. intros H. rewrite Qabs_Qmult, (Qabs_pos x) by lra. reflexivity. Qed.

Lemma nearest64_nearest_pos (q f : Q) :
  (0 < q)%Q -> is_float64 f ->
  (Qabs (nearest64 q - q) <= Qabs (f - q))%Q.
Proof.
  intros Hq (M & E & HM & HE & Ef).
  unfold nearest64. set (e := ulp_exponent q).
  pose proof (pow2_pos e) as Pe. pose proof (pow2_pos E) as PE.
  set (x := (q / 2 ^ e)%Q).
  assert (Hx : (q == x * 2 ^ e)%Q) by (unfold x; field; lra).
  assert (Hgoal : forall k : Z,
             (Qabs (inject_Z k - x) <= Qabs (f / 2 ^ e - x))%Q ->
             (Qabs (inject_Z (round_half_even x) * 2 ^ e - q)
              <= Qabs (f - q))%Q).
  { intros k Hk.
    assert (A : (inject_Z (round_half_even x) * 2 ^ e - q
                 == (inject_Z (round_half_even x) - x) * 2 ^ e)%Q)
      by (rewrite Hx at 1; ring).
    assert (B : (f - q == (f / 2 ^ e - x) * 2 ^ e)%Q)
      by (rewrite Hx at 1; field; lra).
    rewrite A, B, !Qabs_scale by exact Pe.
    apply Qmult_le_compat_r; [| lra].
    eapply Qle_trans; [apply (round_half_even_nearest x k) | exact Hk]. }
  destruct (Z_le_gt_dec e E) as [L | G].
  - apply (Hgoal (M * 2 ^ (E - e))%Z).
    assert (Ek : (inject_Z (M * 2 ^ (E - e)) == f / 2 ^ e)%Q).
    { rewrite inject_Z_mult, (pow2_inject (E - e)) by lia.
      rewrite pow2_sub, Ef. field. lra. }
    rewrite Ek. apply Qle_refl.
  - assert (Hn : (e + 52 = ilog2 q)%Z).
    { unfold e, ulp_exponent in *. rewrite Qabs_pos_eq in * by lra. lia. }
    destruct (ilog2_spec q Hq) as [A _]. rewrite <- Hn in A.
    assert (Hx52 : (2 ^ 52 <= x)%Q).
    { unfold x. apply Qle_shift_div_l; [exact Pe |].
      rewrite <- Qpower_plus by discriminate.
      replace (52 + e)%Z with (e + 52)%Z by lia. exact A. }
    assert (Hf : (f / 2 ^ e <= 2 ^ 52)%Q).
    { apply Qle_shift_div_r; [exact Pe |].
      rewrite <- Qpower_plus by discriminate.
      eapply Qle_trans; [apply Qle_Qabs |].
      rewrite Ef, Qabs_inject_mul by exact PE.
      eapply Qle_trans;
        [| apply (proj1 (pow2_le (53 + E) (52 + e))); lia].
      rewrite Qpower_plus by discriminate.
      apply Qmult_le_compat_r; [| lra].
      rewrite <- (pow2_inject 53) by lia. rewrite <- Zle_Qle. lia. }
    apply (Hgoal (2 ^ 52)%Z). rewrite (pow2_inject 52) by lia.
    Qabs_cases (2 ^ 52 - x)%Q; Qabs_cases (f / 2 ^ e - x)%Q; lra.
Qed.

(** The float that an operation returns is a float nearest to its exact
    result. *)
Lemma round64_nearest (q r f : Q) :
  round64 q = Finite r -> is_float64 f ->
  (Qabs (r - q) <= Qabs (f - q))%Q.
Proof.
  intros Hr Hf. rewrite (round64_value q r Hr).
  destruct (Qlt_le_dec 0 q) as [P | N].
  - apply nearest64_nearest_pos; assumption.
  - destruct (Qeq_dec q 0) as [Z | Z].
    + rewrite (nearest64_zero q Z).
      assert (E : (0 - q == 0)%Q) by (rewrite Z; ring).
      rewrite E. apply Qabs_nonneg.
    + assert (P : (0 < - q)%Q) by lra.
      pose proof (nearest64_nearest_pos (- q) (- f) P (is_float64_opp f Hf))
        as H.
      rewrite nearest64_opp in H.
      assert (A : (- nearest64 q - - q == - (nearest64 q - q))%Q) by ring.
      assert (B : (- f - - q == - (f - q))%Q) by ring.
      rewrite A, B, !Qabs_opp in H. exact H.
Qed.

(** *** The rounding error *)

Lemma round_half_even_error (x : Q) :
  (Qabs (inject_Z (round_half_even x) - x) <= 1 # 2)%Q.
Proof.
  pose proof (round_half_even_nearest x (Qfloor x)) as A.
  pose proof (round_half_even_nearest x (Qfloor x + 1)) as B.
  pose proof (Qfloor_le x) as L. pose proof (Qlt_floor x) as U.
  rewrite inject_Z_plus in B, U. change (inject_Z 1) with 1%Q in B, U.
  rewrite (Qabs_neg (inject_Z (Qfloor x) - x)) in A by lra.
  rewrite (Qabs_pos (inject_Z (Qfloor x) + 1 - x)) in B by lra.
  lra.
Qed.

Lemma nearest64_error (q : Q) :
  (Qabs (nearest64 q - q) <= 2 ^ ulp_exponent q * (1 # 2))%Q.
Proof.
  unfold nearest64. set (e := ulp_exponent q). pose proof (pow2_pos e) as Pe.
  set (x := (q / 2 ^ e)%Q).
  assert (Hx : (q == x * 2 ^ e)%Q) by (unfold x; field; lra).
  assert (A : (inject_Z (round_half_even x) * 2 ^ e - q
               == (inject_Z (round_half_even x) - x) * 2 ^ e)%Q)
    by (rewrite Hx at 1; ring).
  rewrite A, Qabs_scale by exact Pe. rewrite (Qmult_comm (2 ^ e)).
  apply Qmult_le_compat_r; [apply round_half_even_error | lra].
Qed.

Lemma nearest64_error_normal (q : Q) :
  ~ (q == 0)%Q -> (-1074 < ulp_exponent q)%Z ->
  (Qabs (nearest64 q - q) <= unit_roundoff * Qabs q)%Q.
Proof.
  intros Hq Hn. pose proof (nearest64_error q) as E.
  pose proof (Qabs_nonzero q Hq) as P.
  destruct (ilog2_spec (Qabs q) P) as [A _].
  assert (He : (ulp_exponent q = ilog2 (Qabs q) - 52)%Z).
  { unfold ulp_exponent in *. lia. }
  rewrite He in E.
  assert (Hp : (2 ^ (ilog2 (Qabs q) - 52) * (1 # 2)
                == 2 ^ ilog2 (Qabs q) * 2 ^ (-53))%Q).
  { unfold Z.sub. rewrite Qpower_plus by discriminate.
    assert (C : (2 ^ (- (52)) * (1 # 2) == 2 ^ (-53))%Q) by reflexivity.
    rewrite <- C. ring. }
  rewrite Hp in E. unfold unit_roundoff.
  pose proof (pow2_pos (-53)) as Pu.
  eapply Qle_trans; [exact E |]. rewrite (Qmult_comm (2 ^ (-53))).
  apply Qmult_le_compat_r; [exact A | lra].
Qed.

(** A float is a multiple of the smallest subnormal number. *)
Lemma is_float64_grid (f : Q) :
  is_float64 f -> exists k : Z, (f == inject_Z k * 2 ^ (-1074))%Q.
Proof.
  intros (m & e & _ & He & E). exists (m * 2 ^ (e + 1074))%Z.
  rewrite E, inject_Z_mult, (pow2_inject (e + 1074)) by lia.
  rewrite <- Qmult_assoc, <- Qpower_plus by discriminate.
  replace (e + 1074 + -1074)%Z with e by lia. reflexivity.
Qed.

Lemma nearest64_grid (q : Q) (k : Z) :
  ulp_exponent q = (-1074)%Z -> (q == inject_Z k * 2 ^ (-1074))%Q ->
  (nearest64 q == q)%Q.
Proof.
  intros He E. unfold nearest64. rewrite He.
  assert (Hx : (q / 2 ^ (-1074) == inject_Z k)%Q).
  { rewrite E. pose proof (pow2_pos (-1074)). field. lra. }
  rewrite (round_half_even_proper _ _ Hx), round_half_even_Z.
  symmetry. exact E.
Qed.

(** The sum of two floats rounds with a relative error of at most the
    unit roundoff: a subnormal sum is exact. *)
Lemma float_add_error (a b r : Q) :
  is_float64 a -> is_float64 b -> round64 (a + b) = Finite r ->
  (Qabs (r - (a + b)) <= unit_roundoff * Qabs (a + b))%Q.
Proof.
  intros Ha Hb Hr. rewrite (round64_value _ _ Hr).
  assert (Pu : (0 < unit_roundoff)%Q) by apply pow2_pos.
  pose proof (Qabs_nonneg (a + b)) as Pa.
  assert (Hz : forall x y : Q, (x == y)%Q ->
                 (Qabs (x - y) <= unit_roundoff * Qabs y)%Q).
  { intros x y E. assert (E0 : (x - y == 0)%Q) by (rewrite E; ring).
    rewrite E0. change (Qabs 0) with 0%Q.
    apply Qmult_le_0_compat; [lra | apply Qabs_nonneg]. }
  destruct (Qeq_dec (a + b) 0) as [Z | N].
  - apply Hz. rewrite (nearest64_zero _ Z). symmetry. exact Z.
  - destruct (Z.eq_dec (ulp_exponent (a + b)) (-1074)%Z) as [E | E].
    + apply Hz.
      destruct (is_float64_grid a Ha) as (ka & Eka).
      destruct (is_float64_grid b Hb) as (kb & Ekb).
      apply (nearest64_grid _ (ka + kb) E).
      rewrite inject_Z_plus, Eka, Ekb. ring.
    + apply nearest64_error_normal; [exact N |].
      pose proof (ulp_exponent_min (a + b)). lia.
Qed.

(** A quotient rounds with a relative error of at most the unit roundoff,
    or, when it underflows, with an error of at most half the smallest
    subnormal number. *)
Lemma round64_error (q r : Q) :
  round64 q = Finite r ->
  (Qabs (r - q) <= unit_roundoff * Qabs q + underflow_unit)%Q.
Proof.
  intros Hr. rewrite (round64_value _ _ Hr).
  assert (Pu : (0 < unit_roundoff)%Q) by apply pow2_pos.
  assert (Pn : (0 < underflow_unit)%Q) by apply pow2_pos.
  pose proof (Qabs_nonneg q) as Pa.
  assert (P0 : (0 <= unit_roundoff * Qabs q)%Q)
    by (apply Qmult_le_0_compat; lra).
  destruct (Qeq_dec q 0) as [Z | N].
  - assert (E0 : (nearest64 q - q == 0)%Q)
      by (rewrite (nearest64_zero _ Z), Z; ring).
    rewrite E0. change (Qabs 0) with 0%Q. lra.
  - destruct (Z.eq_dec (ulp_exponent q) (-1074)%Z) as [E | E].
    + pose proof (nearest64_error q) as H. rewrite E in H.
      assert (C : (2 ^ (-1074) * (1 # 2) == underflow_unit)%Q) by reflexivity.
      rewrite C in H. lra.
    + pose proof (nearest64_error_normal q N) as H.
      pose proof (ulp_exponent_min q).
      assert (Hn : (-1074 < ulp_exponent q)%Z) by lia.
      specialize (H Hn). lra.
Qed.

Lemma running_totals_proper (l : list Q) (a a' : Q) :
  (a == a')%Q -> Forall is_float64 (running_totals a l) ->
  Forall is_float64 (running_totals a' l).
Proof.
  revert a a'. induction l as [| x l IH]; intros a a' E H; simpl in *.
  - constructor.
  - inversion H as [| y ys Hy Hys]; subst. constructor.
    + apply (is_float64_proper (a + x)); [rewrite E; reflexivity | exact Hy].
    + apply (IH (a + x)%Q); [rewrite E; reflexivity | exact Hys].
Qed.

(** *** The machine's arithmetic

    On these operands, with ties, subnormal numbers and overflow among
    them, [float_add] and [float_truediv] return the float that the
    binary64 arithmetic of the machine returns. *)

Section Machine.

Import PrimFloat.
Local Open Scope float_scope.

Example float_add_as_machine :
  forallb add_as_machine
    [ (0x1.999999999999ap-4, 0x1.999999999999ap-4);
      (0x1.999999999999ap-3, 0x1.999999999999ap-4);
      (0x1.3333333333334p-2, 0x1.999999999999ap-3);
      (0x1p0, 0x1p-53);
      (0x1p0, 0x1.8p-53);
      (0x1.0000000000001p0, 0x1p-53);
      (0x1p53, 0x1p0);
      (0x1p53, 0x1.8p1);
      (0x1.0000000000001p0, 0x1.0000000000002p0);
      (-0x1.999999999999ap-4, 0x1.999999999999ap-4);
      (-0x1.5p3, 0x1.2p-7);
      (0x1p-1074, 0x1p-1074);
      (0x1.8p-1073, -0x1p-1074);
      (0x1.fffffffffffffp-1023, 0x1p-1074);
      (0x1.fffffffffffffp1023, 0x1.fffffffffffffp1023);
      (0x1.fffffffffffffp1023, 0x1p970);
      (0x1.fffffffffffffp1023, 0x1.fffffffffffffp969);
      (-0x1.fffffffffffffp1023, -0x1p970);
      (infinity, 0x1p0);
      (infinity, neg_infinity) ]
  = true.
Proof. vm_compute. reflexivity. Qed.

Example float_truediv_as_machine :
  forallb div_as_machine
    [ (0x1.3333333333334p-2, 0x1.8p1);
      (0x1.3333333333333p-2, 0x1.8p1);
      (0x1p0, 0x1.8p1);
      (0x1p0, 0x1.4p3);
      (-0x1p0, 0x1.8p1);
      (0x1.8p2, 0x1p1);
      (0x1p-1074, 0x1p1);
      (0x1.8p-1073, 0x1p1);
      (-0x1.4p-1072, 0x1p1);
      (0x1.fffffffffffffp-1022, 0x1p1);
      (0x1p53, 0x1.8p1);
      (0x1.fffffffffffffp1023, 0x1p-1);
      (0x1.fffffffffffffp1023, 0x1.ffffffffffffep-1);
      (0x1.0000000000001p52, 0x1.ap4);
      (infinity, 0x1.8p1) ]
  = true.
Proof. vm_compute. reflexivity. Qed.

End Machine.

(** *** The sum and the quotient *)

(** When no partial sum rounds, [sum] gives the sum. *)
Lemma sum_from_exact (l : list Q) (a : Q) :
  Forall is_float64 (running_totals a l) ->
  exists r,
    fold_left (fun acc x => float_add acc (Finite x)) l (Finite a) = Finite r /\
    (r == a + fold_right Qplus 0 l)%Q.
Proof.
  revert a. induction l as [| x l IH]; intros a H; simpl in *.
  - exists a. split; [reflexivity | ring].
  - inversion H as [| y ys Hy Hys]; subst.
    destruct (round64_exact _ Hy) as (r & Hr & Er). rewrite Hr.
    destruct (IH r) as (r' & Hr' & Er').
    { apply (running_totals_proper l (a + x)); [symmetry; exact Er | exact Hys]. }
    exists r'. split; [exact Hr' |]. rewrite Er', Er. ring.
Qed.

Lemma sum_exact (l : list Q) :
  adds_exactly l ->
  exists r, sum l = Finite r /\ (r == fold_right Qplus 0 l)%Q.
Proof.
  intros H. destruct (sum_from_exact l 0 H) as (r & Hr & Er).
  exists r. split; [exact Hr |]. rewrite Er. ring.
Qed.

(** A length below [2^53] converts to a float without rounding. *)
Lemma float_of_int_exact (n : nat) :
  (Z.of_nat n < 2 ^ 53)%Z ->
  exists d, float_of_int (Z.of_nat n) = Ok (Finite d) /\
            (d == inject_Z (Z.of_nat n))%Q.
Proof.
  intros H. unfold float_of_int.
  destruct (round64_exact (inject_Z (Z.of_nat n))) as (d & Hd & Ed).
  { apply is_float64_Z. lia. }
  rewrite Hd. exists d. split; [reflexivity | exact Ed].
Qed.

(** A length as a rational number. *)
Lemma Qlength_pos {A : Type} (l : list A) :
  l <> [] -> (0 < inject_Z (Z.of_nat (length l)))%Q.
Proof.
  intros Hne. destruct l as [| x l]; [congruence |].
  change 0%Q with (inject_Z 0). rewrite <- Zlt_Qlt. simpl length. lia.
Qed.

(** What [average_score] returns, in one equation. *)
Lemma average_score_eq (s : State) :
  average_score s =
  (if Nat.eqb (length (population s)) 0 then Ok (Finite 0)
   else truediv (sum (map (fitness_of s) (population s)))
                (length (population s)),
   s).
Proof.
  unfold average_score, bind, get, read_list, ret, lift, population.
  destruct (lists s (queries s)) as [| a l] eqn:E; simpl.
  - reflexivity.
  - rewrite E. reflexivity.
Qed.

(** The quotient of a float by a length below [2^53] never raises. *)
Lemma truediv_returns (a : PyFloat) (n : nat) :
  n <> 0 -> (Z.of_nat n < 2 ^ 53)%Z -> exists r, truediv a n = Ok r.
Proof.
  intros Hn Hlt. unfold truediv.
  destruct (float_of_int_exact n Hlt) as (d & Hd & Ed). rewrite Hd.
  unfold float_truediv.
  assert (Hz : Qeq_bool d 0 = false).
  { destruct (Qeq_bool d 0) eqn:T; [| reflexivity].
    apply Qeq_bool_iff in T. rewrite Ed in T.
    change 0%Q with (inject_Z 0) in T.
    apply (proj1 (inject_Z_injective _ _)) in T. lia. }
  rewrite Hz. destruct a; eexists; reflexivity.
Qed.

(** When the sum does not round, the quotient is the mean, rounded. *)
Lemma truediv_sum_exact (l : list Q) :
  l <> [] -> (Z.of_nat (length l) < 2 ^ 53)%Z -> adds_exactly l ->
  truediv (sum l) (length l) = Ok (round64 (mean l)).
Proof.
  intros Hne Hlt Hex. unfold truediv.
  destruct (float_of_int_exact (length l) Hlt) as (d & Hd & Ed). rewrite Hd.
  destruct (sum_exact l Hex) as (r & Hr & Er). rewrite Hr.
  unfold float_truediv.
  pose proof (Qlength_pos l Hne) as Hpos.
  assert (Hz : Qeq_bool d 0 = false).
  { destruct (Qeq_bool d 0) eqn:T; [| reflexivity].
    apply Qeq_bool_iff in T. rewrite Ed in T. rewrite T in Hpos.
    exfalso. apply (Qlt_irrefl 0). exact Hpos. }
  rewrite Hz. f_equal. apply round64_proper. unfold mean.
  apply Qdiv_comp; assumption.
Qed.

(** *** The error of a sum and of the average *)

Lemma unit_roundoff_pos : (0 < unit_roundoff)%Q.
Proof. apply pow2_pos. Qed.

Lemma growth_succ (k : nat) :
  (growth (S k) == (1 + unit_roundoff) * growth k)%Q.
Proof.
  unfold growth. rewrite Nat2Z.inj_succ, <- Z.add_1_l.
  pose proof unit_roundoff_pos. rewrite Qpower_plus by lra.
  change ((1 + unit_roundoff) ^ 1)%Q with (1 + unit_roundoff)%Q. reflexivity.
Qed.

Lemma growth_ge_1 (k : nat) : (1 <= growth k)%Q.
Proof.
  pose proof unit_roundoff_pos as Pu.
  induction k as [| k IH]; [unfold growth; simpl; lra |].
  rewrite growth_succ. nra.
Qed.

Lemma Qabs_both (x : Q) : (x <= Qabs x)%Q /\ (- x <= Qabs x)%Q.
Proof.
  split; [apply Qle_Qabs |]. rewrite <- Qabs_opp. apply Qle_Qabs.
Qed.

(** Once a sum has overflowed it stays an infinity or becomes NaN. *)
Lemma fold_left_float_add_stuck (l : list Q) (x : PyFloat) :
  (forall q, x <> Finite q) ->
  forall q, fold_left (fun acc y => float_add acc (Finite y)) l x <> Finite q.
Proof.
  revert x. induction l as [| y l IH]; intros x Hx q; simpl.
  - apply Hx.
  - apply IH. intros q'. destruct x as [a | s |]; simpl.
    + exfalso. apply (Hx a). reflexivity.
    + discriminate.
    + discriminate.
Qed.

(** Adding floats from the left: each addition rounds, and [k] roundings
    are at most [growth k - 1] of the sum of the absolute values away
    from the exact sum. *)
Lemma sum_from_error (l : list Q) :
  forall (a t A : Q) (k : nat) (r : Q),
    is_float64 a -> Forall is_float64 l ->
    (Qabs t <= A)%Q ->
    (Qabs (a - t) <= (growth k - 1) * A)%Q ->
    fold_left (fun acc x => float_add acc (Finite x)) l (Finite a) = Finite r ->
    (Qabs (r - (t + fold_right Qplus 0 l))
     <= (growth (k + length l) - 1)
        * (A + fold_right Qplus 0 (map Qabs l)))%Q.
Proof.
  induction l as [| x l IH]; intros a t A k r Ha Hl Ht Hat Hr.
  - simpl in Hr. injection Hr as <-. cbn [fold_right map length].
    rewrite Nat.add_0_r.
    assert (E1 : (a - (t + 0) == a - t)%Q) by ring.
    assert (E2 : ((growth k - 1) * (A + 0) == (growth k - 1) * A)%Q) by ring.
    rewrite E1, E2. exact Hat.
  - inversion Hl as [| y ys Hx Hl']; subst.
    cbn [fold_left float_add] in Hr.
    destruct (round64 (a + x)) as [a' | s |] eqn:Hadd.
    + pose proof (float_add_error a x a' Ha Hx Hadd) as He.
      pose proof (round64_is_float64 _ _ Hadd) as Ha'.
      pose proof unit_roundoff_pos as Pu.
      pose proof (growth_ge_1 k) as Pg.
      destruct (Qabs_both x) as [X1 X2].
      apply Qabs_Qle_condition in Ht. apply Qabs_Qle_condition in Hat.
      set (X := Qabs x) in *. set (u := unit_roundoff) in *.
      set (P := ((growth k - 1) * A)%Q) in *.
      assert (HA : (0 <= A)%Q) by lra.
      assert (HY : (Qabs (a + x) <= P + (A + X))%Q).
      { apply Qabs_Qle_condition. lra. }
      assert (HuY : (u * Qabs (a + x) <= u * (P + (A + X)))%Q).
      { apply Qmult_le_l; [exact Pu | exact HY]. }
      apply Qabs_Qle_condition in He.
      assert (HP' : (P <= (growth k - 1) * (A + X))%Q).
      { unfold P. rewrite !(Qmult_comm (growth k - 1)).
        apply Qmult_le_compat_r; lra. }
      set (P' := ((growth k - 1) * (A + X))%Q) in *.
      assert (HuP : (u * P <= u * P')%Q).
      { apply Qmult_le_l; [exact Pu | exact HP']. }
      assert (Eg : ((growth (S k) - 1) * (A + X)
                    == P' + u * P' + u * (A + X))%Q).
      { rewrite growth_succ. unfold P', u. ring. }
      specialize (IH a' (t + x)%Q (A + X)%Q (S k) r Ha' Hl').
      assert (E1 : (t + fold_right Qplus 0 (x :: l)
                    == t + x + fold_right Qplus 0 l)%Q)
        by (cbn [fold_right]; ring).
      assert (E2 : (A + fold_right Qplus 0 (map Qabs (x :: l))
                    == A + X + fold_right Qplus 0 (map Qabs l))%Q)
        by (cbn [fold_right map]; fold X; ring).
      rewrite E1, E2.
      replace (k + length (x :: l)) with (S k + length l) by (simpl; lia).
      apply IH.
      * apply Qabs_Qle_condition. lra.
      * rewrite Eg. apply Qabs_Qle_condition.
        assert (Hd : (u * (P + (A + X)) == u * P + u * (A + X))%Q) by ring.
        rewrite Hd in HuY. lra.
      * exact Hr.
    + exfalso. apply (fold_left_float_add_stuck l (Infinite s)
                        ltac:(discriminate) r Hr).
    + exfalso. apply (fold_left_float_add_stuck l NaN ltac:(discriminate) r Hr).
Qed.

Lemma Qabs_sum (l : list Q) :
  (Qabs (fold_right Qplus 0 l) <= fold_right Qplus 0 (map Qabs l))%Q.
Proof.
  induction l as [| x l IH]; cbn [fold_right map].
  - apply Qle_refl.
  - eapply Qle_trans; [apply Qabs_triangle |]. lra.
Qed.

(** The average of floats is at most [growth n - 1] of the mean absolute
    value, and the underflow of the division, away from the mean. *)
Lemma truediv_sum_error (l : list Q) (r : Q) :
  l <> [] -> (Z.of_nat (length l) < 2 ^ 53)%Z -> Forall is_float64 l ->
  truediv (sum l) (length l) = Ok (Finite r) ->
  (Qabs (r - mean l)
   <= (growth (length l) - 1) * mean (map Qabs l) + underflow_unit)%Q.
Proof.
  intros Hne Hlt Hl Hr.
  destruct l as [| x l]; [congruence |].
  inversion Hl as [| y ys Hx Hl']; subst.
  unfold truediv in Hr.
  destruct (float_of_int_exact (length (x :: l)) Hlt) as (d & Hd & Ed).
  rewrite Hd in Hr. unfold float_truediv in Hr.
  pose proof (Qlength_pos (x :: l) Hne) as Hn.
  assert (Hz : Qeq_bool d 0 = false).
  { destruct (Qeq_bool d 0) eqn:T; [| reflexivity].
    apply Qeq_bool_iff in T. rewrite Ed in T. rewrite T in Hn.
    exfalso. apply (Qlt_irrefl 0). exact Hn. }
  rewrite Hz in Hr.
  unfold sum in Hr. cbn [fold_left float_add] in Hr.
  destruct (round64_exact (0 + x)) as (a1 & Ha1 & Ea1).
  { apply (is_float64_proper x); [ring | exact Hx]. }
  rewrite Ha1 in Hr.
  destruct (fold_left (fun acc y => float_add acc (Finite y)) l (Finite a1))
    as [S | s |] eqn:HS; [| discriminate | discriminate].
  injection Hr as Hr.
  pose proof (sum_from_error l a1 x (Qabs x) 0 S) as Herr.
  assert (Ha1f : is_float64 a1).
  { apply (is_float64_proper x); [rewrite Ea1; ring | exact Hx]. }
  specialize (Herr Ha1f Hl' (Qle_refl _)).
  assert (H0 : (Qabs (a1 - x) <= (growth 0 - 1) * Qabs x)%Q).
  { assert (E0 : (a1 - x == 0)%Q) by (rewrite Ea1; ring).
    rewrite E0. unfold growth. simpl. change (Qabs 0) with 0%Q.
    assert (E1 : ((1 - 1) * Qabs x == 0)%Q) by ring.
    rewrite E1. apply Qle_refl. }
  specialize (Herr H0 HS). cbn [Nat.add] in Herr.
  pose proof (round64_error _ _ Hr) as Hdiv.
  pose proof (Qabs_sum (x :: l)) as Hsum.
  cbn [fold_right map] in Hsum.
  unfold mean. rewrite length_map. cbn [fold_right map].
  set (T := (x + fold_right Qplus 0 l)%Q) in *.
  set (Aa := (Qabs x + fold_right Qplus 0 (map Qabs l))%Q) in *.
  set (n := inject_Z (Z.of_nat (length (x :: l)))) in *.
  assert (Hi : (0 < / n)%Q) by (apply Qinv_lt_0_compat; exact Hn).
  set (i := (/ n)%Q) in *.
  assert (Eq : (S / d == S * i)%Q).
  { unfold i. rewrite Ed. reflexivity. }
  rewrite Eq in Hdiv. unfold Qdiv. fold i.
  pose proof unit_roundoff_pos as Pu.
  pose proof (growth_ge_1 (length l)) as Pg.
  set (u := unit_roundoff) in *. set (eta := underflow_unit) in *.
  set (G := (growth (length l) - 1)%Q) in *.
  assert (Eg : ((growth (length (x :: l)) - 1) * (Aa * i)
                == G * (Aa * i) + u * (G * (Aa * i)) + u * (Aa * i))%Q).
  { simpl length. rewrite growth_succ. unfold G, u. ring. }
  rewrite Eg.
  apply Qabs_Qle_condition in Herr. apply Qabs_Qle_condition in Hsum.
  destruct Herr as [He1 He2]. destruct Hsum as [Hs1 Hs2].
  assert (HB : (0 <= Aa * i)%Q) by (apply Qmult_le_0_compat; lra).
  set (B := (Aa * i)%Q) in *.
  assert (HG : (0 <= G)%Q) by (unfold G; lra).
  assert (HP : (0 <= G * B)%Q) by (apply Qmult_le_0_compat; lra).
  set (P := (G * B)%Q) in *.
  assert (Ht1 : (- B <= T * i)%Q).
  { unfold B. assert (E : (- (Aa * i) == - Aa * i)%Q) by ring. rewrite E.
    apply Qmult_le_compat_r; lra. }
  assert (Ht2 : (T * i <= B)%Q).
  { unfold B. apply Qmult_le_compat_r; lra. }
  assert (Hd1 : (- P <= S * i - T * i)%Q).
  { assert (E : (- P == - (G * Aa) * i)%Q) by (unfold P, B; ring).
    assert (E' : (S * i - T * i == (S - T) * i)%Q) by ring.
    rewrite E, E'. apply Qmult_le_compat_r; lra. }
  assert (Hd2 : (S * i - T * i <= P)%Q).
  { assert (E : (P == G * Aa * i)%Q) by (unfold P, B; ring).
    assert (E' : (S * i - T * i == (S - T) * i)%Q) by ring.
    rewrite E, E'. apply Qmult_le_compat_r; lra. }
  assert (HY : (Qabs (S * i) <= P + B)%Q).
  { apply Qabs_Qle_condition. lra. }
  assert (HuY : (u * Qabs (S * i) <= u * P + u * B)%Q).
  { assert (E : (u * P + u * B == u * (P + B))%Q) by ring. rewrite E.
    apply Qmult_le_l; [exact Pu | exact HY]. }
  apply Qabs_Qle_condition in Hdiv.
  apply Qabs_Qle_condition. lra.
Qed.

(** The mean times the length is the sum. *)
Lemma mean_length (l : list Q) :
  l <> [] ->
  (mean l * inject_Z (Z.of_nat (length l)) == fold_right Qplus 0 l)%Q.
Proof.
  intros Hne. pose proof (Qlength_pos l Hne) as Hpos.
  unfold mean. field. intros H0. rewrite H0 in Hpos.
  apply (Qlt_irrefl 0). exact Hpos.
Qed.

(** When no partial sum rounds, the whole sum is a float, and so are the
    partial sums of every prefix. *)
Lemma running_totals_last (l : list Q) (a : Q) :
  l <> [] -> Forall is_float64 (running_totals a l) ->
  is_float64 (a + fold_right Qplus 0 l)%Q.
Proof.
  revert a. induction l as [| x l IH]; intros a Hne H; [congruence |].
  simpl in H. inversion H as [| y ys Hy Hys]; subst.
  destruct l as [| z l].
  - cbn [fold_right]. apply (is_float64_proper (a + x)%Q); [ring | exact Hy].
  - apply (is_float64_proper (a + x + fold_right Qplus 0 (z :: l))%Q).
    + cbn [fold_right]. ring.
    + apply IH; [discriminate | exact Hys].
Qed.

Lemma adds_exactly_total (l : list Q) :
  l <> [] -> adds_exactly l -> is_float64 (fold_right Qplus 0%Q l).
Proof.
  intros Hne H.
  apply (is_float64_proper (0 + fold_right Qplus 0 l)%Q); [ring |].
  apply running_totals_last; assumption.
Qed.

Lemma is_float64_0 : is_float64 0%Q.
Proof. apply (is_float64_Z 0). reflexivity. Qed.

(** The mean of fitness values that add up without rounding rounds to a
    finite float. *)
Lemma round64_mean_finite (l : list Q) :
  l <> [] -> adds_exactly l -> exists r, round64 (mean l) = Finite r.
Proof.
  intros Hne Hex. pose proof (adds_exactly_total l Hne Hex) as Ht.
  pose proof (mean_length l Hne) as Hm.
  assert (H1 : (1 <= inject_Z (Z.of_nat (length l)))%Q).
  { change 1%Q with (inject_Z 1). rewrite <- Zle_Qle.
    destruct l; [congruence | simpl length; lia]. }
  set (n := inject_Z (Z.of_nat (length l))) in *.
  set (t := fold_right Qplus 0%Q l) in *.
  destruct (Qlt_le_dec t 0) as [Hneg | Hpos].
  - destruct (round64_between t 0 (mean l) Ht is_float64_0) as (r & Hr & _).
    + split; nra.
    + exists r. exact Hr.
  - destruct (round64_between 0 t (mean l) is_float64_0 Ht) as (r & Hr & _).
    + split; nra.
    + exists r. exact Hr.
Qed.

Lemma average_score_exact (s : State) :
  population s <> [] ->
  (Z.of_nat (length (population s)) < 2 ^ 53)%Z ->
  adds_exactly (map (fitness_of s) (population s)) ->
  fst (average_score s)
  = Ok (round64 (mean (map (fitness_of s) (population s)))).
Proof.
  intros Hne Hlt Hex. rewrite average_score_eq. cbn [fst].
  destruct (population s) as [| a l] eqn:E; [congruence |].
  change (Nat.eqb (length (a :: l)) 0) with false. cbv iota.
  rewrite <- (length_map (fitness_of s) (a :: l)).
  apply truediv_sum_exact.
  - discriminate.
  - rewrite length_map. exact Hlt.
  - exact Hex.
Qed.




(** ** Recombination *)

(** C7. For every mode that is not a member of [RecombinationMode],
    [recombine(mode)] raises to its caller and leaves the whole state,
    with it the population, as it was.  The exception is the [TypeError]
    of calling the integer [logging.ERROR]; [exit(1)] is not reached. *)
Theorem recombine_unknown_mode (v : string) (s : State) :
  recombine (NotAMember v) s = (Raise TypeError, s).
Proof. reflexivity. Qed.


(** Cloning every individual of [l]: the clones are new objects at the
    next free addresses, each with a new sequence of terms that holds the
    terms of its source, and nothing that existed before is touched. *)
Lemma mapM_deepcopy (l : list loc) :
  forall s,
    Forall (allocated s) l ->
    fst (mapM deepcopy l s) = Ok (seq (next_obj s) (length l)) /\
    same_attributes s (snd (mapM deepcopy l s)) /\
    next_obj (snd (mapM deepcopy l s)) = next_obj s + length l /\
    next_terms (snd (mapM deepcopy l s)) = next_terms s + length l /\
    (forall x, x < next_obj s -> objs (snd (mapM deepcopy l s)) x = objs s x) /\
    (forall t, t < next_terms s ->
       term_lists (snd (mapM deepcopy l s)) t = term_lists s t) /\
    (forall i, i < length l ->
       objs (snd (mapM deepcopy l s)) (next_obj s + i)
       = mkQuery (next_terms s + i) (fitness (objs s (nth i l 0))) /\
       term_lists (snd (mapM deepcopy l s)) (next_terms s + i)
       = terms_of s (nth i l 0)).
Proof.
  induction l as [| a l IH]; intros s Hwf.
  - simpl. unfold same_attributes. repeat split; try reflexivity; try lia.
  - apply Forall_cons in Hwf. destruct Hwf as [[Ha Hta] Hl].
    set (s1 := set_objs
                 (set_term_lists s
                    (upd (term_lists s) (next_terms s) (terms_of s a))
                    (S (next_terms s)))
                 (upd (objs s) (next_obj s)
                    (mkQuery (next_terms s) (fitness (objs s a))))
                 (S (next_obj s))).
    assert (Hobj1 : forall x, x < next_obj s -> objs s1 x = objs s x).
    { intros x Hx. simpl. unfold upd.
      destruct (Nat.eqb_spec x (next_obj s)); [lia | reflexivity]. }
    assert (Hterm1 : forall t, t < next_terms s ->
                               term_lists s1 t = term_lists s t).
    { intros t Ht. simpl. unfold upd.
      destruct (Nat.eqb_spec t (next_terms s)); [lia | reflexivity]. }
    assert (Hwf1 : Forall (allocated s1) l).
    { eapply List.Forall_impl; [| exact Hl]. intros x [Hx Htx].
      split; [simpl; lia |]. rewrite (Hobj1 x Hx). simpl. lia. }
    specialize (IH s1 Hwf1).
    destruct IH as (I1 & I2 & I3 & I4 & I5 & I6 & I7).
    assert (E : mapM deepcopy (a :: l) s =
                (Ok (next_obj s :: seq (S (next_obj s)) (length l)),
                 snd (mapM deepcopy l s1))).
    { change (mapM deepcopy (a :: l) s) with
        (match mapM deepcopy l s1 with
         | (Ok r, s2) => (Ok (next_obj s :: r), s2)
         | (Raise e, s2) => (Raise e, s2)
         end).
      destruct (mapM deepcopy l s1) as [[r | e] s2]; simpl in *.
      - injection I1 as ->. reflexivity.
      - discriminate. }
    rewrite E. simpl fst. simpl snd. simpl length.
    split; [reflexivity |].
    split; [exact I2 |].
    split; [rewrite I3; simpl; lia |].
    split; [rewrite I4; simpl; lia |].
    split; [intros x Hx; rewrite I5 by (simpl; lia); apply Hobj1; exact Hx |].
    split; [intros t Ht; rewrite I6 by (simpl; lia); apply Hterm1; exact Ht |].
    intros [| i] Hi.
    + rewrite !Nat.add_0_r, I5, I6 by (simpl; lia). simpl. unfold upd.
      rewrite !Nat.eqb_refl. split; reflexivity.
    + replace (next_obj s + S i) with (next_obj s1 + i) by (simpl; lia).
      replace (next_terms s + S i) with (next_terms s1 + i) by (simpl; lia).
      destruct (I7 i) as [J1 J2]; [lia |]. rewrite J1, J2.
      assert (Hx : allocated s (nth i l 0)).
      { rewrite List.Forall_forall in Hl. apply Hl. apply nth_In. lia. }
      destruct Hx as [Hx Htx]. unfold terms_of.
      rewrite (Hobj1 _ Hx), (Hterm1 _ Htx). split; reflexivity.
Qed.

(** What [recombine(CLONE)] computes, from the cloning loop. *)
Lemma recombine_clone_eq (s : State) :
  Forall (allocated s) (population s) ->
  recombine (Member CLONE) s =
  (Ok tt,
   let s1 := snd (mapM deepcopy (population s) s) in
   set_lists s1
     (upd (lists s1) (queries s1)
        (lists s1 (queries s1)
         ++ seq (next_obj s) (length (population s))))
     (next_list s1)).
Proof.
  intros Hwf. destruct (mapM_deepcopy (population s) s Hwf) as [I1 _].
  unfold recombine, bind, get, read_list, list_extend, write_list.
  fold (population s).
  destruct (mapM deepcopy (population s) s) as [[r | e] s2]; simpl in *.
  - injection I1 as ->. reflexivity.
  - discriminate.
Qed.

(** C2. For every population of size N (of allocated objects),
    [recombine(CLONE)] appends to the list object of the population, in
    place, one copy of each current individual, so the size becomes 2N.
    Each clone is a new object with the terms and the fitness of its
    source; neither the clone nor its sequence of terms is an object the
    population held, and no original is changed.  Mutating a clone never
    alters an original individual. *)
Theorem recombine_clone (s : State) :
  Forall (allocated s) (population s) ->
  let s' := snd (recombine (Member CLONE) s) in
  let n := length (population s) in
  fst (recombine (Member CLONE) s) = Ok tt /\
  queries s' = queries s /\
  population s' = population s ++ seq (next_obj s) n /\
  fst (size s') = Ok (2 * n) /\
  (forall i, i < n ->
     nth (n + i) (population s') 0 = next_obj s + i /\
     terms_of s' (next_obj s + i) = terms_of s (nth i (population s) 0) /\
     fitness_of s' (next_obj s + i) = fitness_of s (nth i (population s) 0)) /\
  (forall a, In a (population s) ->
     objs s' a = objs s a /\ terms_of s' a = terms_of s a) /\
  (forall i a, i < n -> In a (population s) ->
     next_obj s + i <> a /\
     terms (objs s' (next_obj s + i)) <> terms (objs s' a)) /\
  (forall Query_mutate words i a, i < n -> In a (population s) ->
     objs (snd (call_mutate Query_mutate (next_obj s + i) words s')) a
     = objs s' a /\
     terms_of (snd (call_mutate Query_mutate (next_obj s + i) words s')) a
     = terms_of s' a).
Proof.
  intros Hwf s' n. subst s'. rewrite (recombine_clone_eq s Hwf).
  destruct (mapM_deepcopy (population s) s Hwf)
    as (_ & (A1 & A2 & A3 & A4 & A5 & A6) & _ & _ & I5 & I6 & I7).
  set (s1 := snd (mapM deepcopy (population s) s)) in *.
  set (s2 := set_lists s1
               (upd (lists s1) (queries s1)
                  (lists s1 (queries s1) ++ seq (next_obj s) n))
               (next_list s1)).
  assert (Hpop : population s2 = population s ++ seq (next_obj s) n).
  { unfold population. simpl. unfold upd. rewrite Nat.eqb_refl.
    rewrite A1, A5. reflexivity. }
  assert (Hold : forall a, In a (population s) ->
                           objs s2 a = objs s a /\ terms_of s2 a = terms_of s a).
  { intros a Ha. rewrite List.Forall_forall in Hwf.
    destruct (Hwf a Ha) as [Hx Htx]. unfold terms_of. simpl.
    rewrite (I5 a Hx), (I6 _ Htx). split; reflexivity. }
  assert (Hfresh : forall i a, i < n -> In a (population s) ->
                     next_obj s + i <> a /\
                     terms (objs s2 (next_obj s + i)) <> terms (objs s2 a)).
  { intros i a Hi Ha. destruct (Hold a Ha) as [Ho _]. rewrite Ho.
    rewrite List.Forall_forall in Hwf. destruct (Hwf a Ha) as [Hx Htx].
    destruct (I7 i Hi) as [J1 _]. simpl. rewrite J1. simpl. lia. }
  simpl fst. simpl snd. fold n. fold s2.
  split; [reflexivity |].
  split; [simpl; exact A5 |].
  split; [exact Hpop |].
  split.
  { f_equal. change (length (population s2) = 2 * n).
    rewrite Hpop, length_app, length_seq. fold n. lia. }
  split.
  { intros i Hi. destruct (I7 i Hi) as [J1 J2]. split; [| split].
    - rewrite Hpop. fold n. rewrite app_nth2 by (fold n; lia).
      fold n. replace (n + i - n) with i by lia.
      rewrite seq_nth by exact Hi. reflexivity.
    - unfold terms_of at 1. simpl. rewrite J1. simpl. exact J2.
    - unfold fitness_of. simpl. rewrite J1. reflexivity. }
  split; [exact Hold |].
  split; [exact Hfresh |].
  intros Query_mutate words i a Hi Ha.
  destruct (Hfresh i a Hi Ha) as [_ Hne].
  unfold call_mutate, bind, get, put_rng, write_terms, terms_of. simpl.
  split; [reflexivity |]. unfold upd.
  destruct (Nat.eqb_spec (terms (objs s1 a)) (terms (objs s1 (next_obj s + i))))
    as [E | _]; [| reflexivity].
  exfalso. apply Hne. simpl. symmetry. exact E.
Qed.

Lemma recombine_clone_witness :
  let s := example_state (with_fitness [1; 2]%Q) [0; 1] [] [] in
  let s' := snd (recombine (Member CLONE) s) in
  fst (size s') = Ok (2 * 2) /\
  terms_of s' 3 = terms_of s 1 /\
  terms_of (snd (call_mutate drop_first_term 3 [] s')) 1 = terms_of s' 1.
Proof.
  intros s s'.
  destruct (recombine_clone s) as (_ & _ & _ & Hsize & Hcopy & _ & _ & Hind).
  { repeat constructor. }
  split; [exact Hsize |]. split.
  - apply (Hcopy 1). vm_compute. lia.
  - apply (Hind drop_first_term [] 1 1).
    + vm_compute. lia.
    + vm_compute. right. left. reflexivity.
Defined.

(** ** Mutation *)

Section Mutation.

Variable Query_mutate :
  list string -> list nat -> list string -> list string * list nat.

Lemma mutate_loop_cons (a : loc) (rest : list loc) (nl : loc) (s : State) :
  mutate_loop Query_mutate (a :: rest) nl s =
  mutate_loop Query_mutate rest nl (mutate_step Query_mutate a nl s).
Proof.
  unfold mutate_step. simpl.
  unfold bind, get, call_mutate, bind, get, put_rng, write_terms, list_append,
    bind, read_list, write_list, ret, Query_size, terms_of.
  simpl. unfold upd at 1. rewrite Nat.eqb_refl.
  destruct (Nat.ltb 0 _); reflexivity.
Qed.

(** One turn of the loop writes the sequence of terms of its query and,
    perhaps, [new_queries]; it touches no [Query] object. *)
Lemma mutate_step_frame (a nl : loc) (s : State) :
  objs (mutate_step Query_mutate a nl s) = objs s /\
  (forall t, t <> terms (objs s a) ->
     term_lists (mutate_step Query_mutate a nl s) t = term_lists s t) /\
  terms_of (mutate_step Query_mutate a nl s) a
  = fst (Query_mutate (_words s) (rng s) (terms_of s a)) /\
  lists (mutate_step Query_mutate a nl s) nl
  = lists s nl
    ++ (if Nat.ltb 0 (length (fst (Query_mutate (_words s) (rng s)
                                     (terms_of s a))))
        then [a] else []) /\
  (forall x, x <> nl -> lists (mutate_step Query_mutate a nl s) x = lists s x) /\
  next_list (mutate_step Query_mutate a nl s) = next_list s /\
  queries (mutate_step Query_mutate a nl s) = queries s /\
  _individuals (mutate_step Query_mutate a nl s) = _individuals s.
Proof.
  unfold mutate_step, terms_of. cbv zeta.
  destruct (Nat.ltb 0 _); simpl; unfold upd; rewrite ?Nat.eqb_refl;
    rewrite ?app_nil_r;
    (split; [reflexivity |]); (split; [| split; [reflexivity |]]);
    try (split; [reflexivity |]);
    try (split; [| split; [reflexivity | split; reflexivity]]);
    intros x Hx;
    try (destruct (Nat.eqb_spec x (terms (objs s a))); [contradiction | reflexivity]);
    try (destruct (Nat.eqb_spec x nl); [contradiction | reflexivity]);
    try reflexivity.
Qed.

Lemma mutate_loop_spec (qs : list loc) (nl : loc) :
  forall s,
    List.NoDup (map (fun a => terms (objs s a)) qs) ->
    fst (mutate_loop Query_mutate qs nl s) = Ok tt /\
    lists (snd (mutate_loop Query_mutate qs nl s)) nl =
      lists s nl ++
      List.filter
        (fun a => Nat.ltb 0
           (Query_size (snd (mutate_loop Query_mutate qs nl s)) a)) qs /\
    objs (snd (mutate_loop Query_mutate qs nl s)) = objs s /\
    (forall t, ~ In t (map (fun a => terms (objs s a)) qs) ->
       term_lists (snd (mutate_loop Query_mutate qs nl s)) t = term_lists s t).
Proof.
  induction qs as [| a rest IH]; intros s Hnd.
  - simpl. rewrite app_nil_r. repeat split; reflexivity.
  - rewrite mutate_loop_cons. simpl in Hnd.
    inversion Hnd as [| ? ? Hnotin Hnd']; subst.
    destruct (mutate_step_frame a nl s) as (S1 & S2 & S3 & S4 & _).
    set (s1 := mutate_step Query_mutate a nl s) in *.
    destruct (IH s1) as (I1 & I2 & I3 & I4); [rewrite S1; exact Hnd' |].
    rewrite S1 in I4.
    set (s' := snd (mutate_loop Query_mutate rest nl s1)) in *.
    assert (Ha : terms_of s' a
                 = fst (Query_mutate (_words s) (rng s) (terms_of s a))).
    { rewrite <- S3. unfold terms_of. rewrite I3, S1.
      apply I4. exact Hnotin. }
    split; [exact I1 |].
    split.
    { rewrite I2, S4. simpl List.filter. unfold Query_size at 2. rewrite Ha.
      destruct (Nat.ltb 0 _); rewrite <- app_assoc; reflexivity. }
    split; [rewrite I3; exact S1 |].
    intros t Ht. simpl in Ht.
    rewrite I4 by (intros H; apply Ht; right; exact H).
    apply S2. intros ->. apply Ht. left. reflexivity.
Qed.

(** What [mutate] leaves, from its loop. *)
Lemma mutate_eq (s : State) :
  mutate Query_mutate s =
  let s0 := set_lists s (upd (lists s) (next_list s) []) (S (next_list s)) in
  let r := mutate_loop Query_mutate (lists s0 (queries s0)) (next_list s) s0 in
  (fst r, match fst r with
          | Ok _ => set_queries (snd r) (next_list s)
          | Raise _ => snd r
          end).
Proof.
  unfold mutate, bind, alloc_list, get, read_list, bind_queries. simpl.
  destruct (mutate_loop _ _ _ _) as [[[] | e] s2]; reflexivity.
Qed.

(** C3, as amended. For every population whose entries are pairwise
    distinct [Query] objects that share no sequence of terms, and every
    word pool, [mutate()] returns and leaves exactly the individuals whose
    [size()] is greater than 0, in their order before the mutation: every
    remaining individual has [size() > 0] and every individual whose
    [size()] became 0 is absent. *)
Theorem mutate_viability (s : State) :
  List.NoDup (map (fun a => terms (objs s a)) (population s)) ->
  queries s < next_list s ->
  let s' := snd (mutate Query_mutate s) in
  fst (mutate Query_mutate s) = Ok tt /\
  population s' =
    List.filter (fun a => Nat.ltb 0 (Query_size s' a)) (population s) /\
  Forall (fun a => 0 < Query_size s' a) (population s') /\
  (forall a, In a (population s) -> Query_size s' a = 0 ->
             ~ In a (population s')).
Proof.
  intros Hnd Hq s'. subst s'. rewrite mutate_eq.
  set (s0 := set_lists s (upd (lists s) (next_list s) []) (S (next_list s))).
  assert (Hpop0 : lists s0 (queries s0) = population s).
  { unfold population. simpl. unfold upd.
    destruct (Nat.eqb_spec (queries s) (next_list s)); [lia | reflexivity]. }
  cbv zeta. rewrite Hpop0.
  destruct (mutate_loop_spec (population s) (next_list s) s0 Hnd)
    as (I1 & I2 & _).
  rewrite I1. simpl fst. simpl snd.
  set (s2 := snd (mutate_loop Query_mutate (population s) (next_list s) s0))
    in *.
  assert (Hpop : population (set_queries s2 (next_list s)) =
                 List.filter (fun a => Nat.ltb 0 (Query_size s2 a))
                             (population s)).
  { unfold population at 1. simpl. rewrite I2. simpl. unfold upd.
    rewrite Nat.eqb_refl. reflexivity. }
  change (Query_size (set_queries s2 (next_list s))) with (Query_size s2).
  split; [reflexivity |]. split; [exact Hpop |]. split.
  - rewrite Hpop. apply List.Forall_forall. intros a Ha.
    apply List.filter_In in Ha. destruct Ha as [_ Ha].
    apply Nat.ltb_lt in Ha. exact Ha.
  - intros a _ Hz Ha. rewrite Hpop in Ha. apply List.filter_In in Ha.
    destruct Ha as [_ Ha]. rewrite Hz in Ha. discriminate.
Qed.

End Mutation.

Lemma mutate_viability_witness :
  population
    (snd (mutate drop_first_term
            (example_state [(["a"; "b"]%string, 1%Q); (["c"]%string, 2%Q)]
                           [0; 1] [] [])))
  = [0].
Proof.
  apply (mutate_viability drop_first_term
           (example_state [(["a"; "b"]%string, 1%Q); (["c"]%string, 2%Q)]
                          [0; 1] [] [])).
  - vm_compute. repeat constructor; simpl; intuition lia.
  - vm_compute. lia.
Defined.

(** C3, as stated, fails when the population holds one object twice: the
    second call of [Query.mutate] on it can empty an individual that the
    first call left viable and the loop has already kept. *)
Lemma mutate_aliased_population :
  let s := example_state [(["a"; "b"]%string, 1%Q)] [0; 0] [] [] in
  let s' := snd (mutate drop_first_term s) in
  fst (mutate drop_first_term s) = Ok tt /\
  population s' = [0] /\
  Query_size s' 0 = 0 /\
  ~ Forall (fun a => 0 < Query_size s' a) (population s').
Proof.
  cbv zeta. split; [vm_compute; reflexivity |].
  split; [vm_compute; reflexivity |].
  split; [vm_compute; reflexivity |].
  intros H. apply List.Forall_forall with (x := 0) in H.
  - vm_compute in H. lia.
  - vm_compute. left. reflexivity.
Qed.

(** Two distinct objects that share one sequence of terms fail in the same
    way: mutating the second empties the first, which was kept. *)
Example mutate_shared_terms :
  let s := mkState (fun _ => mkQuery 0 1%Q) 2
                   (fun _ => ["a"; "b"]%string) 1
                   (upd (fun _ => []) 0 [0; 1]) 1 [] 0 0 [] in
  let s' := snd (mutate drop_first_term s) in
  population s' = [0] /\ Query_size s' 0 = 0.
Proof. cbv zeta. split; vm_compute; reflexivity. Qed.

(** ** Duplicates *)

Lemma first_occurrences_app (key : loc -> string) (l1 l2 : list loc) :
  forall before,
    first_occurrences key before (l1 ++ l2) =
    first_occurrences key before l1
    ++ first_occurrences key (before ++ l1) l2.
Proof.
  induction l1 as [| a l1 IH]; intros before; simpl.
  - rewrite app_nil_r. reflexivity.
  - rewrite IH, <- app_assoc. simpl.
    destruct (existsb _ before); reflexivity.
Qed.

Lemma existsb_same_key (key : loc -> string) (before : list loc) (a : loc) :
  existsb (fun b => String.eqb (key b) (key a)) before = true <->
  In (key a) (map key before).
Proof.
  rewrite existsb_exists, in_map_iff. split.
  - intros (b & Hb & E). apply String.eqb_eq in E. exists b. split; assumption.
  - intros (b & E & Hb). exists b. split; [exact Hb |].
    apply String.eqb_eq. exact E.
Qed.

Section Duplicates.

Variable repr_of_terms : list string -> string.

Lemma remove_duplicates_loop_seen (a : loc) (rest : list loc) (nl : loc)
    (seen : gmap string bool) (s : State) :
  is_Some (seen !! Query_repr repr_of_terms s a) ->
  remove_duplicates_loop repr_of_terms (a :: rest) nl seen s =
  remove_duplicates_loop repr_of_terms rest nl seen s.
Proof.
  intros [v Hv]. simpl. unfold bind, get. rewrite Hv. reflexivity.
Qed.

Lemma remove_duplicates_loop_new (a : loc) (rest : list loc) (nl : loc)
    (seen : gmap string bool) (s : State) :
  seen !! Query_repr repr_of_terms s a = None ->
  remove_duplicates_loop repr_of_terms (a :: rest) nl seen s =
  remove_duplicates_loop repr_of_terms rest nl
    (<[Query_repr repr_of_terms s a := true]> seen)
    (set_lists s (upd (lists s) nl (lists s nl ++ [a])) (next_list s)).
Proof.
  intros Hv. simpl. unfold bind at 1, get at 1. rewrite Hv. reflexivity.
Qed.

Lemma remove_duplicates_loop_spec (qs : list loc) (nl : loc) :
  forall s seen before,
    (forall k, is_Some (seen !! k) <->
               In k (map (fun a => Query_repr repr_of_terms s a) before)) ->
    fst (remove_duplicates_loop repr_of_terms qs nl seen s) = Ok tt /\
    lists (snd (remove_duplicates_loop repr_of_terms qs nl seen s)) nl =
      lists s nl ++
      first_occurrences (fun a => Query_repr repr_of_terms s a)
                        before qs /\
    (forall x, x <> nl ->
       lists (snd (remove_duplicates_loop repr_of_terms qs nl seen s)) x
       = lists s x) /\
    objs (snd (remove_duplicates_loop repr_of_terms qs nl seen s)) = objs s /\
    term_lists (snd (remove_duplicates_loop repr_of_terms qs nl seen s))
    = term_lists s /\
    next_list (snd (remove_duplicates_loop repr_of_terms qs nl seen s))
    = next_list s /\
    queries (snd (remove_duplicates_loop repr_of_terms qs nl seen s))
    = queries s /\
    _individuals (snd (remove_duplicates_loop repr_of_terms qs nl seen s))
    = _individuals s.
Proof.
  induction qs as [| a rest IH]; intros s seen before Hseen.
  - simpl. rewrite app_nil_r. repeat split; reflexivity.
  - set (key := fun a => Query_repr repr_of_terms s a) in *.
    destruct (seen !! key a) as [v |] eqn:Es.
    + rewrite remove_duplicates_loop_seen by (exists v; exact Es).
      assert (Hex : existsb (fun b => String.eqb (key b) (key a)) before = true).
      { apply existsb_same_key. apply Hseen. exists v. exact Es. }
      simpl first_occurrences.
      rewrite Hex. apply IH. intros k. rewrite (Hseen k).
      rewrite map_app, in_app_iff. simpl. split; [tauto |].
      intros [H | [<- | []]]; [exact H |].
      apply Hseen. exists v. exact Es.
    + assert (Hex : existsb (fun b => String.eqb (key b) (key a)) before = false).
      { destruct (existsb _ before) eqn:E; [| reflexivity].
        apply existsb_same_key in E. apply Hseen in E. rewrite Es in E.
        destruct E; discriminate. }
      rewrite remove_duplicates_loop_new by exact Es.
      simpl first_occurrences. rewrite Hex. fold (key a).
      set (s1 := set_lists s (upd (lists s) nl (lists s nl ++ [a]))
                   (next_list s)).
      destruct (IH s1 (<[key a := true]> seen) (before ++ [a]))
        as (I1 & I2 & I3 & I4 & I4' & I5 & I6 & I7).
      { intros k. rewrite lookup_insert_is_Some, map_app, in_app_iff.
        simpl. change (Query_repr repr_of_terms s1) with key. fold (key a).
        rewrite <- (Hseen k). split.
        - intros [<- | [_ H]]; [right; left; reflexivity | left; exact H].
        - intros [H | [<- | []]].
          + destruct (decide (key a = k)) as [E | E]; [left; exact E |].
            right. split; assumption.
          + left. reflexivity. }
      change (Query_repr repr_of_terms s1) with key in I2.
      split; [exact I1 |].
      split.
      { rewrite I2. simpl. unfold upd. rewrite Nat.eqb_refl.
        rewrite <- app_assoc. reflexivity. }
      split.
      { intros x Hx. rewrite (I3 x Hx). simpl. unfold upd.
        destruct (Nat.eqb_spec x nl); [contradiction | reflexivity]. }
      split; [exact I4 |]. split; [exact I4' |].
      split; [exact I5 |]. split; [exact I6 | exact I7].
Qed.

(** What [remove_duplicates] leaves, from its loop. *)
Lemma remove_duplicates_eq (s : State) :
  remove_duplicates repr_of_terms s =
  let s0 := set_lists s (upd (lists s) (next_list s) []) (S (next_list s)) in
  let r := remove_duplicates_loop repr_of_terms (lists s0 (queries s0))
             (next_list s) ∅ s0 in
  (fst r, match fst r with
          | Ok _ => set_queries (snd r) (next_list s)
          | Raise _ => snd r
          end).
Proof.
  unfold remove_duplicates, bind, alloc_list, get, read_list, bind_queries.
  simpl. destruct (remove_duplicates_loop _ _ _ _ _) as [[[] | e] s2];
    reflexivity.
Qed.

(** C5. For every population, [remove_duplicates()] returns and keeps
    exactly the first occurrence, in population order, of each distinct
    representation: an individual stays if and only if no individual
    before it has the same representation.  The representation is that of
    the term content only, so the fitness plays no role; no [Query]
    object is changed. *)
Theorem remove_duplicates_first_occurrence (s : State) :
  queries s < next_list s ->
  let s' := snd (remove_duplicates repr_of_terms s) in
  let key := fun a => Query_repr repr_of_terms s a in
  fst (remove_duplicates repr_of_terms s) = Ok tt /\
  population s' = first_occurrences key [] (population s) /\
  (forall l1 a l2, population s = l1 ++ a :: l2 ->
     population s' =
       first_occurrences key [] l1
       ++ (if existsb (fun b => String.eqb (key b) (key a)) l1 then [] else [a])
       ++ first_occurrences key (l1 ++ [a]) l2) /\
  (forall a, objs s' a = objs s a /\ terms_of s' a = terms_of s a) /\
  (forall s1 a1 s2 a2, terms_of s1 a1 = terms_of s2 a2 ->
     Query_repr repr_of_terms s1 a1 = Query_repr repr_of_terms s2 a2).
Proof.
  intros Hq s' key. subst s'. rewrite remove_duplicates_eq.
  set (s0 := set_lists s (upd (lists s) (next_list s) []) (S (next_list s))).
  assert (Hpop0 : lists s0 (queries s0) = population s).
  { unfold population. simpl. unfold upd.
    destruct (Nat.eqb_spec (queries s) (next_list s)); [lia | reflexivity]. }
  cbv zeta. rewrite Hpop0.
  destruct (remove_duplicates_loop_spec (population s) (next_list s) s0 ∅ [])
    as (I1 & I2 & _ & I4 & I4' & _).
  { intros k. rewrite lookup_empty. simpl. split; [intros [? ?]; discriminate | tauto]. }
  rewrite I1. simpl fst. simpl snd.
  set (s2 := snd (remove_duplicates_loop repr_of_terms (population s)
                    (next_list s) ∅ s0)) in *.
  assert (Hpop : population (set_queries s2 (next_list s)) =
                 first_occurrences key [] (population s)).
  { unfold population at 1. simpl. rewrite I2. simpl. unfold upd.
    rewrite Nat.eqb_refl. reflexivity. }
  split; [reflexivity |]. split; [exact Hpop |]. split.
  { intros l1 a l2 E. rewrite Hpop, E, first_occurrences_app. simpl.
    destruct (existsb _ l1); reflexivity. }
  split; [intros a; unfold terms_of; simpl; rewrite I4, I4'; split; reflexivity |].
  intros sa a sb b E. unfold Query_repr. rewrite E. reflexivity.
Qed.

End Duplicates.

(** The spec's example: [A] and [B] have the terms x, y and the fitness
    values 1 and 9, [C] has the term z; [A] and [C] stay. *)
Example remove_duplicates_A_B_C :
  population
    (snd (remove_duplicates blank_separated
            (example_state [(["x"; "y"]%string, 1%Q);
                            (["x"; "y"]%string, 9%Q);
                            (["z"]%string, 2%Q)]
                           [0; 1; 2] [] [])))
  = [0; 2].
Proof. vm_compute. reflexivity. Qed.

Lemma remove_duplicates_first_occurrence_witness :
  population
    (snd (remove_duplicates blank_separated
            (example_state [(["x"; "y"]%string, 1%Q);
                            (["x"; "y"]%string, 9%Q);
                            (["z"]%string, 2%Q)]
                           [0; 1; 2] [] [])))
  = [0; 2].
Proof.
  apply (remove_duplicates_first_occurrence blank_separated
           (example_state [(["x"; "y"]%string, 1%Q);
                           (["x"; "y"]%string, 9%Q);
                           (["z"]%string, 2%Q)]
                          [0; 1; 2] [] [])).
  vm_compute. lia.
Defined.

(** ** Random purge *)

Lemma set_rng_same (s : State) (r : list nat) : rng s = r -> set_rng s r = s.
Proof. intros <-. destruct s. reflexivity. Qed.

Lemma randbelow_spec (n : nat) (s : State) :
  0 < n ->
  exists j r', randbelow n s = (Ok j, set_rng s r') /\ j < n.
Proof.
  intros Hn. unfold randbelow. destruct (rng s) as [| r rest] eqn:E.
  - exists 0, []. rewrite (set_rng_same s [] E). split; [reflexivity | exact Hn].
  - exists (r mod n), rest. split; [reflexivity |].
    apply Nat.mod_upper_bound. lia.
Qed.

(** Refilling the chosen slot with the last element and dropping the last
    slot removes exactly the chosen element from the pool. *)
Lemma pool_step_Permutation (pool : list nat) (j : nat) :
  j < length pool ->
  Permutation pool
    (nth j pool 0 :: take (length pool - 1) (<[j := List.last pool 0]> pool)).
Proof.
  intros Hj. assert (Hne : pool <> []) by (destruct pool; simpl in *; [lia | discriminate]).
  destruct (exists_last Hne) as (init & z & ->).
  rewrite last_last, length_app. simpl length.
  replace (length init + 1 - 1) with (length init) by lia.
  rewrite length_app in Hj. simpl in Hj.
  destruct (Nat.lt_ge_cases j (length init)) as [Hlt | Hge].
  - rewrite insert_app_l by exact Hlt.
    rewrite take_app_length' by (rewrite length_insert; reflexivity).
    rewrite app_nth1 by exact Hlt.
    destruct (lookup_lt_is_Some_2 init j Hlt) as [x Hx].
    rewrite (nth_lookup_Some _ _ _ _ Hx).
    rewrite insert_take_drop by exact Hlt.
    rewrite <- (take_drop_middle init j x Hx) at 1.
    transitivity ((x :: take j init ++ drop (S j) init) ++ [z]).
    + apply Permutation_app_tail. symmetry. apply Permutation_middle.
    + simpl. apply perm_skip. rewrite <- app_assoc.
      apply Permutation_app_head. symmetry. apply Permutation_cons_append.
  - assert (j = length init) as -> by lia.
    rewrite insert_app_r_alt by lia. rewrite Nat.sub_diag. simpl.
    rewrite take_app_length.
    rewrite app_nth2 by lia. rewrite Nat.sub_diag. simpl.
    symmetry. apply Permutation_cons_append.
Qed.

(** [random.sample] draws [k] distinct elements of the pool and touches
    nothing but the random source. *)
Lemma sample_loop_spec (k : nat) :
  forall pool s,
    k <= length pool -> List.NoDup pool ->
    exists idxs r',
      sample_loop pool k s = (Ok idxs, set_rng s r') /\
      length idxs = k /\ List.NoDup idxs /\ incl idxs pool.
Proof.
  induction k as [| k IH]; intros pool s Hk Hnd.
  - exists [], (rng s). simpl. unfold ret.
    rewrite (set_rng_same s (rng s) eq_refl).
    split; [reflexivity |]. split; [reflexivity |].
    split; [constructor | intros x []].
  - destruct (randbelow_spec (length pool) s) as (j & r1 & Ej & Hj); [lia |].
    pose proof (pool_step_Permutation pool j Hj) as HP.
    set (pool' := take (length pool - 1) (<[j := List.last pool 0]> pool)) in *.
    assert (Hnd' : List.NoDup (nth j pool 0 :: pool')).
    { eapply Permutation_NoDup; [exact HP | exact Hnd]. }
    inversion Hnd' as [| ? ? Hnotin Hndp]; subst.
    assert (Hlen : length pool = S (length pool')).
    { rewrite (Permutation_length HP). reflexivity. }
    destruct (IH pool' (set_rng s r1)) as (rest & r2 & Er & Hl & Hndr & Hincl);
      [lia | exact Hndp |].
    exists (nth j pool 0 :: rest), r2.
    split.
    { simpl. unfold bind at 1. rewrite Ej. fold pool'.
      unfold bind at 1. rewrite Er. reflexivity. }
    split; [simpl; rewrite Hl; reflexivity |].
    split.
    { constructor; [| exact Hndr]. intros H. apply Hnotin. apply Hincl. exact H. }
    intros x [<- | Hx].
    + apply nth_In. exact Hj.
    + eapply Permutation_in; [symmetry; exact HP |]. right. apply Hincl. exact Hx.
Qed.

Lemma contains_In (l : list nat) (i : nat) : contains l i = true <-> In i l.
Proof.
  unfold contains. rewrite existsb_exists. split.
  - intros (x & Hx & E). apply Nat.eqb_eq in E. subst. exact Hx.
  - intros H. exists i. split; [exact H | apply Nat.eqb_refl].
Qed.

(** Filtering an enumeration on the indices keeps as many elements as
    there are indices kept. *)
Lemma length_filter_combine {A : Type} (f : nat -> bool) (xs : list nat) :
  forall l : list A,
    length xs = length l ->
    length (List.filter (fun iq => f (fst iq)) (combine xs l))
    = length (List.filter f xs).
Proof.
  induction xs as [| x xs IH]; intros [| a l] Hlen; simpl in *;
    try reflexivity; try discriminate.
  destruct (f x); simpl; rewrite IH by lia; reflexivity.
Qed.

Lemma length_filter_not_contains (xs idxs : list nat) :
  List.NoDup xs -> List.NoDup idxs -> incl idxs xs ->
  length (List.filter (fun i => negb (contains idxs i)) xs)
  = length xs - length idxs.
Proof.
  intros Hx Hi Hincl.
  pose proof (List.filter_length (contains idxs) xs) as Hsplit.
  assert (HP : Permutation (List.filter (contains idxs) xs) idxs).
  { apply Permutation.NoDup_Permutation.
    - apply List.NoDup_filter. exact Hx.
    - exact Hi.
    - intros i. rewrite List.filter_In, contains_In. split; [tauto |].
      intros H. split; [apply Hincl; exact H | exact H]. }
  rewrite (Permutation_length HP) in Hsplit. lia.
Qed.

(** [random.sample] refuses a [k] outside the population. *)
Lemma random_purge_invalid (k : Z) (s : State) :
  ~ (0 <= k <= Z.of_nat (length (population s)))%Z ->
  random_purge k s = (Raise ValueError, s).
Proof.
  intros Hk. unfold random_purge, bind at 1 2, get at 1, read_list at 1.
  fold (population s). unfold bind at 1, random_sample.
  rewrite length_seq.
  destruct (Z.leb_spec 0 k);
    destruct (Z.leb_spec k (Z.of_nat (length (population s))));
    try reflexivity.
  lia.
Qed.

(** What [random_purge(k)] leaves, from the indices drawn. *)
Lemma random_purge_eq (k : Z) (s s1 : State) (idxs : list nat) :
  (0 <= k <= Z.of_nat (length (population s)))%Z ->
  sample_loop (seq 0 (length (population s))) (Z.to_nat k) s = (Ok idxs, s1) ->
  random_purge k s =
  (Ok tt,
   set_queries
     (set_lists s1
        (upd (lists s1) (next_list s1)
           (map snd
              (List.filter (fun iq => negb (contains idxs (fst iq)))
                           (enumerate (lists s1 (queries s1))))))
        (S (next_list s1)))
     (next_list s1)).
Proof.
  intros Hk Es. unfold random_purge, bind at 1 2, get at 1, read_list at 1.
  fold (population s). unfold bind at 1, random_sample.
  rewrite length_seq.
  destruct (Z.leb_spec 0 k); [| lia].
  destruct (Z.leb_spec k (Z.of_nat (length (population s)))); [| lia].
  change (true && true)%bool with true. cbv iota. rewrite Es. reflexivity.
Qed.

Lemma random_purge_population (k : Z) (s : State) (r' idxs : list nat) :
  (0 <= k <= Z.of_nat (length (population s)))%Z ->
  sample_loop (seq 0 (length (population s))) (Z.to_nat k) s
  = (Ok idxs, set_rng s r') ->
  population (snd (random_purge k s)) =
  map snd (List.filter (fun iq => negb (contains idxs (fst iq)))
                       (enumerate (population s))).
Proof.
  intros Hk Es. rewrite (random_purge_eq k s _ idxs Hk Es).
  unfold population at 1. simpl. unfold upd. rewrite Nat.eqb_refl.
  reflexivity.
Qed.

(** C6. For every population, [random_purge(k)] with [k] greater than the
    population size raises [ValueError] to its caller and leaves the state
    as it was; with [0 <= k <= size] it returns and leaves a population of
    exactly [size - k] members, each of which was in the population
    before; and with [k] equal to the size it leaves the population
    empty. *)
Theorem random_purge_bounds (k : Z) (s : State) :
  let n := length (population s) in
  ((Z.of_nat n < k)%Z -> random_purge k s = (Raise ValueError, s)) /\
  ((0 <= k <= Z.of_nat n)%Z ->
   let s' := snd (random_purge k s) in
   fst (random_purge k s) = Ok tt /\
   length (population s') = n - Z.to_nat k /\
   (forall a, In a (population s') -> In a (population s)) /\
   (k = Z.of_nat n -> population s' = [])).
Proof.
  intros n. split.
  - intros Hk. apply random_purge_invalid. fold n. lia.
  - intros Hk s'.
    destruct (sample_loop_spec (Z.to_nat k) (seq 0 n) s)
      as (idxs & r' & Es & Hlen & Hnd & Hincl).
    { rewrite length_seq. lia. }
    { apply List.seq_NoDup. }
    subst s'. rewrite (random_purge_population k s r' idxs Hk Es).
    rewrite (random_purge_eq k s _ idxs Hk Es). simpl fst.
    assert (Hsize :
      length (map snd (List.filter (fun iq => negb (contains idxs (fst iq)))
                                   (enumerate (population s))))
      = n - Z.to_nat k).
    { rewrite length_map. unfold enumerate.
      rewrite (length_filter_combine (fun i => negb (contains idxs i)))
        by apply length_seq.
      rewrite length_filter_not_contains;
        [rewrite length_seq, Hlen; reflexivity
        | apply List.seq_NoDup | exact Hnd | exact Hincl]. }
    split; [reflexivity |]. split; [exact Hsize |]. split.
    + intros a Ha. apply in_map_iff in Ha. destruct Ha as ([i b] & <- & Hib).
      apply List.filter_In in Hib. destruct Hib as [Hib _].
      unfold enumerate in Hib. apply in_combine_r in Hib. exact Hib.
    + intros ->. rewrite Nat2Z.id, Nat.sub_diag in Hsize.
      apply length_zero_iff_nil. exact Hsize.
Qed.

Lemma random_purge_bounds_witness :
  random_purge 4 (example_state (with_fitness [1; 2; 3]%Q) [0; 1; 2] [5] [])
  = (Raise ValueError,
     example_state (with_fitness [1; 2; 3]%Q) [0; 1; 2] [5] []) /\
  length (population
            (snd (random_purge 1
                    (example_state (with_fitness [1; 2; 3]%Q) [0; 1; 2] [5] []))))
  = 3 - Z.to_nat 1 /\
  population
    (snd (random_purge (Z.of_nat 3)
            (example_state (with_fitness [1; 2; 3]%Q) [0; 1; 2] [5] [])))
  = [].
Proof.
  split; [| split].
  - apply (random_purge_bounds 4
             (example_state (with_fitness [1; 2; 3]%Q) [0; 1; 2] [5] [])).
    vm_compute. reflexivity.
  - apply (random_purge_bounds 1
             (example_state (with_fitness [1; 2; 3]%Q) [0; 1; 2] [5] [])).
    vm_compute. split; discriminate.
  - apply (random_purge_bounds (Z.of_nat 3)
             (example_state (with_fitness [1; 2; 3]%Q) [0; 1; 2] [5] [])).
    + vm_compute. split; discriminate.
    + reflexivity.
Defined.

Example random_purge_one_of_three :
  population
    (snd (random_purge 1
            (example_state (with_fitness [1; 2; 3]%Q) [0; 1; 2] [5] [])))
  = [0; 1].
Proof. vm_compute. reflexivity. Qed.

(** ** Which list object the operations touch *)

Section Aliasing.

Variable Query_mutate :
  list string -> list nat -> list string -> list string * list nat.
Variable repr_of_terms : list string -> string.

(** The loop of [mutate] writes no list object but [new_queries]. *)
Lemma mutate_loop_frame (qs : list loc) (nl : loc) :
  forall s,
    fst (mutate_loop Query_mutate qs nl s) = Ok tt /\
    (forall x, x <> nl ->
       lists (snd (mutate_loop Query_mutate qs nl s)) x = lists s x) /\
    next_list (snd (mutate_loop Query_mutate qs nl s)) = next_list s /\
    queries (snd (mutate_loop Query_mutate qs nl s)) = queries s /\
    _individuals (snd (mutate_loop Query_mutate qs nl s)) = _individuals s.
Proof.
  induction qs as [| a rest IH]; intros s.
  - simpl. repeat split; reflexivity.
  - rewrite mutate_loop_cons.
    destruct (mutate_step_frame Query_mutate a nl s)
      as (_ & _ & _ & _ & S5 & S6 & S7 & S8).
    destruct (IH (mutate_step Query_mutate a nl s)) as (I1 & I2 & I3 & I4 & I5).
    split; [exact I1 |].
    split; [intros x Hx; rewrite (I2 x Hx); apply S5; exact Hx |].
    split; [rewrite I3; exact S6 |].
    split; [rewrite I4; exact S7 | rewrite I5; exact S8].
Qed.

(** Every filtering operation builds a new list object and binds
    [self.queries] to it; the list objects there were are not written. *)
Lemma run_filter_frame (op : FilterOp) (s : State) :
  _individuals (snd (run_filter Query_mutate repr_of_terms op s))
  = _individuals s /\
  (forall x, x < next_list s ->
     lists (snd (run_filter Query_mutate repr_of_terms op s)) x = lists s x) /\
  (fst (run_filter Query_mutate repr_of_terms op s) = Ok tt ->
   queries (snd (run_filter Query_mutate repr_of_terms op s)) = next_list s) /\
  (fst (run_filter Query_mutate repr_of_terms op s) = Ok tt \/
   exists k, op = RandomPurge k /\
     ~ (0 <= k <= Z.of_nat (length (population s)))%Z /\
     run_filter Query_mutate repr_of_terms op s = (Raise ValueError, s)).
Proof.
  assert (Hupd : forall v x, x < next_list s ->
                             upd (lists s) (next_list s) v x = lists s x).
  { intros v x Hx. unfold upd.
    destruct (Nat.eqb_spec x (next_list s)); [lia | reflexivity]. }
  destruct op as [| | k |]; simpl run_filter.
  - rewrite select_eq. simpl. auto.
  - rewrite mutate_eq. cbv zeta.
    set (s0 := set_lists s (upd (lists s) (next_list s) []) (S (next_list s))).
    destruct (mutate_loop_frame (lists s0 (queries s0)) (next_list s) s0)
      as (I1 & I2 & _ & _ & I5).
    rewrite I1. cbn [fst snd set_queries _individuals lists queries].
    split; [rewrite I5; reflexivity |].
    split; [intros x Hx; rewrite I2 by lia; apply Hupd; exact Hx | auto].
  - destruct (Z_le_dec 0 k) as [H0 |];
      [destruct (Z_le_dec k (Z.of_nat (length (population s)))) as [Hn |] |].
    + destruct (sample_loop_spec (Z.to_nat k)
                  (seq 0 (length (population s))) s)
        as (idxs & r' & Es & _).
      { rewrite length_seq. lia. }
      { apply List.seq_NoDup. }
      rewrite (random_purge_eq k s _ idxs (conj H0 Hn) Es). simpl. auto.
    + rewrite random_purge_invalid by lia. simpl.
      split; [reflexivity |]. split; [reflexivity |].
      split; [discriminate |]. right. exists k.
      split; [reflexivity |]. split; [lia | reflexivity].
    + rewrite random_purge_invalid by lia. simpl.
      split; [reflexivity |]. split; [reflexivity |].
      split; [discriminate |]. right. exists k.
      split; [reflexivity |]. split; [lia | reflexivity].
  - rewrite remove_duplicates_eq. cbv zeta.
    set (s0 := set_lists s (upd (lists s) (next_list s) []) (S (next_list s))).
    destruct (remove_duplicates_loop_spec repr_of_terms
                (lists s0 (queries s0)) (next_list s) s0 ∅ [])
      as (I1 & _ & I3 & _ & _ & _ & _ & I7).
    { intros k. rewrite lookup_empty. simpl.
      split; [intros [? ?]; discriminate | tauto]. }
    rewrite I1. cbn [fst snd set_queries _individuals lists queries].
    split; [rewrite I7; reflexivity |].
    split; [intros x Hx; rewrite I3 by lia; apply Hupd; exact Hx | auto].
Qed.

(** C10. The constructor makes [self.queries] and [self._individuals] one
    list object.  Each of [select()], [mutate()], [random_purge(k)] and
    [remove_duplicates()] leaves [self._individuals] and the list object
    it refers to as they were, as it leaves every list object there was,
    and when it returns [self.queries] is a newly built list object,
    another one than [self._individuals]; [recombine(CLONE)] keeps
    [self.queries] and extends the list object it refers to in place,
    which is seen through [self._individuals] as long as the two are one
    object. *)
Theorem filters_rebind_recombine_extends (s : State) :
  _individuals s < next_list s ->
  (forall words initial,
     queries (snd (__init__ words initial s))
     = _individuals (snd (__init__ words initial s)) /\
     _individuals (snd (__init__ words initial s)) = initial) /\
  (forall op,
     let r := run_filter Query_mutate repr_of_terms op s in
     _individuals (snd r) = _individuals s /\
     lists (snd r) (_individuals (snd r)) = lists s (_individuals s) /\
     (forall x, x < next_list s -> lists (snd r) x = lists s x) /\
     (fst r = Ok tt ->
      queries (snd r) = next_list s /\
      queries (snd r) <> _individuals (snd r)) /\
     (fst r = Ok tt \/
      exists k, op = RandomPurge k /\
        ~ (0 <= k <= Z.of_nat (length (population s)))%Z /\
        r = (Raise ValueError, s))) /\
  (Forall (allocated s) (population s) ->
   let sc := snd (recombine (Member CLONE) s) in
   let clones := seq (next_obj s) (length (population s)) in
   queries sc = queries s /\
   _individuals sc = _individuals s /\
   lists sc (queries s) = lists s (queries s) ++ clones /\
   (queries s = _individuals s ->
    lists sc (_individuals sc) = lists s (_individuals s) ++ clones) /\
   (queries s <> _individuals s ->
    lists sc (_individuals sc) = lists s (_individuals s))).
Proof.
  intros Hi. split; [| split].
  - intros words initial. split; reflexivity.
  - intros op r. subst r.
    destruct (run_filter_frame op s) as (F1 & F2 & F3 & F4).
    split; [exact F1 |]. split; [rewrite F1; apply F2; exact Hi |].
    split; [exact F2 |]. split; [| exact F4].
    intros Hok. split; [exact (F3 Hok) |]. rewrite (F3 Hok), F1. lia.
  - intros Hwf sc clones. subst sc clones.
    rewrite (recombine_clone_eq s Hwf).
    destruct (mapM_deepcopy (population s) s Hwf)
      as (_ & (I3 & _ & _ & I6 & I7 & _) & _).
    simpl. rewrite I3, I6, I7. unfold upd. rewrite Nat.eqb_refl.
    split; [reflexivity |]. split; [reflexivity |].
    split; [reflexivity |]. split.
    + intros E. rewrite <- E, Nat.eqb_refl. reflexivity.
    + intros Hne.
      destruct (Nat.eqb_spec (_individuals s) (queries s));
        [congruence | reflexivity].
Qed.

End Aliasing.

Lemma filters_rebind_recombine_extends_witness :
  queries
    (snd (run_filter drop_first_term blank_separated Select
            (example_state (with_fitness [3; 1]%Q) [0; 1] [] [])))
  <> _individuals
       (snd (run_filter drop_first_term blank_separated Select
               (example_state (with_fitness [3; 1]%Q) [0; 1] [] []))) /\
  lists
    (snd (recombine (Member CLONE)
            (example_state (with_fitness [3; 1]%Q) [0; 1] [] [])))
    (_individuals
       (snd (recombine (Member CLONE)
               (example_state (with_fitness [3; 1]%Q) [0; 1] [] []))))
  = [0; 1; 2; 3].
Proof.
  pose proof (filters_rebind_recombine_extends drop_first_term blank_separated
                (example_state (with_fitness [3; 1]%Q) [0; 1] [] [])) as H.
  destruct H as (_ & Hf & Hr); [vm_compute; lia |].
  split.
  - destruct (Hf Select) as (_ & _ & _ & Hq & _). apply Hq. reflexivity.
  - destruct Hr as (_ & _ & _ & Ha & _); [repeat constructor |].
    apply Ha. reflexivity.
Defined.

(** * Further properties of the operations *)

(** ** What the filters keep *)

Lemma sublist_List_filter {A : Type} (f : A -> bool) (l : list A) :
  List.filter f l `sublist_of` l.
Proof.
  induction l as [| x l IH]; simpl.
  - constructor.
  - destruct (f x); [apply sublist_skip | apply sublist_cons]; exact IH.
Qed.

Lemma sublist_filter_combine {A : Type} (f : nat -> bool) (l : list A) :
  forall xs,
    map snd (List.filter (fun iq => f (fst iq)) (combine xs l)) `sublist_of` l.
Proof.
  induction l as [| a l IH]; intros [| x xs]; simpl;
    try apply sublist_nil_l.
  destruct (f x); simpl; [apply sublist_skip | apply sublist_cons]; apply IH.
Qed.

Lemma sublist_first_occurrences (key : loc -> string) (l : list loc) :
  forall before, first_occurrences key before l `sublist_of` l.
Proof.
  induction l as [| a l IH]; intros before; simpl.
  - constructor.
  - destruct (existsb _ before); [apply sublist_cons | apply sublist_skip];
      apply IH.
Qed.

Lemma sublist_map {A B : Type} (f : A -> B) (l1 l2 : list A) :
  l1 `sublist_of` l2 -> map f l1 `sublist_of` map f l2.
Proof.
  induction 1; simpl; [constructor | apply sublist_skip | apply sublist_cons];
    assumption.
Qed.

Lemma filter_all {A : Type} (f : A -> bool) (l : list A) :
  (forall x, In x l -> f x = true) -> List.filter f l = l.
Proof.
  induction l as [| x l IH]; simpl; intros H; [reflexivity |].
  rewrite (H x) by (left; reflexivity). f_equal.
  apply IH. intros y Hy. apply H. right. exact Hy.
Qed.

Lemma map_snd_enumerate {A : Type} (l : list A) :
  forall a, map snd (combine (seq a (length l)) l) = l.
Proof.
  induction l as [| x l IH]; intros a; simpl; [reflexivity |].
  rewrite IH. reflexivity.
Qed.

Section Filters.

Variable Query_mutate :
  list string -> list nat -> list string -> list string * list nat.
Variable repr_of_terms : list string -> string.

(** The loop of [mutate] appends to [new_queries] some of its queries, in
    their order, whatever objects they are. *)
Lemma mutate_loop_sublist (qs : list loc) (nl : loc) :
  forall s,
    exists r,
      lists (snd (mutate_loop Query_mutate qs nl s)) nl = lists s nl ++ r /\
      r `sublist_of` qs.
Proof.
  induction qs as [| a rest IH]; intros s.
  - exists []. simpl. rewrite app_nil_r. split; [reflexivity | constructor].
  - rewrite mutate_loop_cons.
    destruct (mutate_step_frame Query_mutate a nl s) as (_ & _ & _ & S4 & _).
    destruct (IH (mutate_step Query_mutate a nl s)) as (r & Hr & Hsub).
    rewrite Hr, S4, <- app_assoc.
    destruct (Nat.ltb 0 _).
    + exists (a :: r). split; [reflexivity | apply sublist_skip; exact Hsub].
    + exists r. split; [reflexivity | apply sublist_cons; exact Hsub].
Qed.

Lemma population_after_mutate (s : State) :
  queries s < next_list s ->
  population (snd (mutate Query_mutate s))
  = lists (snd (mutate_loop Query_mutate (population s) (next_list s)
                  (set_lists s (upd (lists s) (next_list s) [])
                             (S (next_list s)))))
          (next_list s).
Proof.
  intros Hq. rewrite mutate_eq. cbv zeta.
  set (s0 := set_lists s (upd (lists s) (next_list s) []) (S (next_list s))).
  assert (Hpop0 : lists s0 (queries s0) = population s).
  { unfold population. simpl. unfold upd.
    destruct (Nat.eqb_spec (queries s) (next_list s)); [lia | reflexivity]. }
  rewrite Hpop0.
  destruct (mutate_loop_frame Query_mutate (population s) (next_list s) s0)
    as (I1 & _).
  rewrite I1. reflexivity.
Qed.

Lemma population_after_remove_duplicates (s : State) :
  queries s < next_list s ->
  fst (remove_duplicates repr_of_terms s) = Ok tt /\
  population (snd (remove_duplicates repr_of_terms s))
  = first_occurrences (Query_repr repr_of_terms s) [] (population s) /\
  objs (snd (remove_duplicates repr_of_terms s)) = objs s /\
  term_lists (snd (remove_duplicates repr_of_terms s)) = term_lists s /\
  queries (snd (remove_duplicates repr_of_terms s)) = next_list s /\
  next_list (snd (remove_duplicates repr_of_terms s)) = S (next_list s).
Proof.
  intros Hq. rewrite remove_duplicates_eq. cbv zeta.
  set (s0 := set_lists s (upd (lists s) (next_list s) []) (S (next_list s))).
  assert (Hpop0 : lists s0 (queries s0) = population s).
  { unfold population. simpl. unfold upd.
    destruct (Nat.eqb_spec (queries s) (next_list s)); [lia | reflexivity]. }
  rewrite Hpop0.
  destruct (remove_duplicates_loop_spec repr_of_terms (population s)
              (next_list s) s0 ∅ [])
    as (I1 & I2 & _ & I4 & I4' & I5 & _).
  { intros k. rewrite lookup_empty. simpl.
    split; [intros [? ?]; discriminate | tauto]. }
  rewrite I1. cbn [fst snd].
  split; [reflexivity |]. split.
  { unfold population at 1. simpl. rewrite I2. simpl. unfold upd.
    rewrite Nat.eqb_refl. reflexivity. }
  split; [exact I4 |]. split; [exact I4' |]. split; [reflexivity | exact I5].
Qed.

Lemma run_filter_sublist (op : FilterOp) (s : State) :
  queries s < next_list s ->
  population (snd (run_filter Query_mutate repr_of_terms op s))
  `sublist_of` population s.
Proof.
  intros Hq. destruct op as [| | k |]; simpl run_filter.
  - rewrite population_after_select. apply sublist_List_filter.
  - rewrite (population_after_mutate s Hq).
    destruct (mutate_loop_sublist (population s) (next_list s)
                (set_lists s (upd (lists s) (next_list s) [])
                           (S (next_list s))))
      as (r & Hr & Hsub).
    rewrite Hr. simpl. unfold upd. rewrite Nat.eqb_refl. exact Hsub.
  - destruct (Z_le_dec 0 k) as [H0 |];
      [destruct (Z_le_dec k (Z.of_nat (length (population s)))) as [Hn |] |].
    + destruct (sample_loop_spec (Z.to_nat k)
                  (seq 0 (length (population s))) s)
        as (idxs & r' & Es & _).
      { rewrite length_seq. lia. }
      { apply List.seq_NoDup. }
      rewrite (random_purge_population k s r' idxs (conj H0 Hn) Es).
      apply (sublist_filter_combine (fun i => negb (contains idxs i))).
    + rewrite random_purge_invalid by lia. reflexivity.
    + rewrite random_purge_invalid by lia. reflexivity.
  - destruct (population_after_remove_duplicates s Hq) as (_ & E & _).
    rewrite E. apply sublist_first_occurrences.
Qed.

(** X1. No filtering operation adds, duplicates or reorders individuals:
    after [select()], [mutate()], [random_purge(k)] or
    [remove_duplicates()], whether it returned or raised, the population
    is a subsequence of the population before, so [size()] has not
    grown.  This holds for any population, also one with aliased
    entries. *)
Theorem filters_keep_a_subsequence (op : FilterOp) (s : State) :
  queries s < next_list s ->
  let s' := snd (run_filter Query_mutate repr_of_terms op s) in
  population s' `sublist_of` population s /\
  exists n n', fst (size s) = Ok n /\ fst (size s') = Ok n' /\ n' <= n.
Proof.
  intros Hq s'. pose proof (run_filter_sublist op s Hq) as Hsub.
  split; [exact Hsub |].
  exists (length (population s)), (length (population s')).
  split; [reflexivity |]. split; [reflexivity |].
  apply sublist_length. exact Hsub.
Qed.

End Filters.

Lemma filters_keep_a_subsequence_witness :
  population
    (snd (run_filter drop_first_term blank_separated Mutate
            (example_state [(["a"; "b"]%string, 1%Q)] [0; 0] [] [])))
  `sublist_of` [0; 0].
Proof.
  apply (filters_keep_a_subsequence drop_first_term blank_separated Mutate
           (example_state [(["a"; "b"]%string, 1%Q)] [0; 0] [] [])).
  vm_compute. lia.
Defined.

(** ** Random purge: the range of [k] *)

(** X2. [random_purge(k)] returns exactly when [0 <= k <= size()]; for
    every other [k], negative ones too, it raises [ValueError] and leaves
    the state, the random source included, as it was. *)
Theorem random_purge_returns_iff (k : Z) (s : State) :
  (fst (random_purge k s) = Ok tt <->
   (0 <= k <= Z.of_nat (length (population s)))%Z) /\
  (fst (random_purge k s) <> Ok tt ->
   random_purge k s = (Raise ValueError, s)).
Proof.
  destruct (Z_le_dec 0 k) as [H0 |];
    [destruct (Z_le_dec k (Z.of_nat (length (population s)))) as [Hn |] |].
  - destruct (sample_loop_spec (Z.to_nat k) (seq 0 (length (population s))) s)
      as (idxs & r' & Es & _).
    { rewrite length_seq. lia. }
    { apply List.seq_NoDup. }
    rewrite (random_purge_eq k s _ idxs (conj H0 Hn) Es). simpl.
    split; [split; [intros _; lia | reflexivity] | congruence].
  - rewrite random_purge_invalid by lia. simpl.
    split; [split; [discriminate | lia] | reflexivity].
  - rewrite random_purge_invalid by lia. simpl.
    split; [split; [discriminate | lia] | reflexivity].
Qed.

Lemma random_purge_returns_iff_witness :
  random_purge (-1) (example_state (with_fitness [1; 2]%Q) [0; 1] [7] [])
  = (Raise ValueError, example_state (with_fitness [1; 2]%Q) [0; 1] [7] []).
Proof.
  apply (random_purge_returns_iff (-1)
           (example_state (with_fitness [1; 2]%Q) [0; 1] [7] [])).
  vm_compute. discriminate.
Defined.

(** X3. [random_purge(0)] removes nobody and draws nothing from the
    random source, yet it still binds [self.queries] to a newly built
    list: the same individuals in the same order, in another list
    object. *)
Theorem random_purge_zero (s : State) :
  fst (random_purge 0 s) = Ok tt /\
  population (snd (random_purge 0 s)) = population s /\
  queries (snd (random_purge 0 s)) = next_list s /\
  rng (snd (random_purge 0 s)) = rng s /\
  (queries s < next_list s ->
   queries (snd (random_purge 0 s)) <> queries s /\
   lists (snd (random_purge 0 s)) (queries s) = population s).
Proof.
  assert (Hk : (0 <= 0 <= Z.of_nat (length (population s)))%Z) by lia.
  assert (Es : sample_loop (seq 0 (length (population s))) (Z.to_nat 0) s
               = (Ok [], s)) by reflexivity.
  rewrite (random_purge_eq 0 s s [] Hk Es). simpl.
  assert (E : map snd
                (List.filter (fun iq : nat * loc => negb (contains [] iq.1))
                             (enumerate (lists s (queries s))))
              = population s).
  { unfold enumerate, contains. simpl.
    rewrite filter_all by reflexivity. apply map_snd_enumerate. }
  split; [reflexivity |]. split.
  { unfold population at 1. simpl. unfold upd. rewrite Nat.eqb_refl. exact E. }
  split; [reflexivity |]. split; [reflexivity |].
  intros Hq. split; [lia |]. unfold upd.
  destruct (Nat.eqb_spec (queries s) (next_list s)); [lia | reflexivity].
Qed.

Lemma random_purge_zero_witness :
  queries
    (snd (random_purge 0
            (example_state (with_fitness [1; 2]%Q) [0; 1] [7] [])))
  <> queries (example_state (with_fitness [1; 2]%Q) [0; 1] [7] []).
Proof.
  apply (random_purge_zero
           (example_state (with_fitness [1; 2]%Q) [0; 1] [7] [])).
  vm_compute. lia.
Defined.

(** ** Selection: what it removes and when somebody survives *)

Lemma has_min_fitness_spec (s : State) (l : list loc) (a : loc) :
  In a l ->
  (has_min_fitness s l a = true <->
   forall b, In b l -> (fitness_of s a <= fitness_of s b)%Q).
Proof.
  intros Ha. unfold has_min_fitness.
  destruct (minimum (map (fitness_of s) l)) as [m |] eqn:Em.
  2:{ destruct l; [destruct Ha | discriminate]. }
  destruct (minimum_spec _ _ Em) as [Hlow (y & Hy & Ey)].
  apply in_map_iff in Hy. destruct Hy as (c & <- & Hc).
  rewrite Qeq_bool_iff. split.
  - intros E b Hb. rewrite E. apply Hlow. apply in_map. exact Hb.
  - intros Hall. apply Qle_antisym.
    + rewrite <- Ey. apply Hall. exact Hc.
    + apply Hlow. apply in_map. exact Ha.
Qed.

Lemma exists_min_fitness (s : State) (l : list loc) :
  l <> [] -> exists a, In a l /\ has_min_fitness s l a = true.
Proof.
  intros Hne. unfold has_min_fitness.
  destruct (minimum (map (fitness_of s) l)) as [m |] eqn:Em.
  2:{ destruct l; [congruence | discriminate]. }
  destruct (minimum_spec _ _ Em) as [_ (y & Hy & Ey)].
  apply in_map_iff in Hy. destruct Hy as (c & <- & Hc).
  exists c. split; [exact Hc |]. apply Qeq_bool_iff. exact Ey.
Qed.

Lemma length_filter_lt {A : Type} (f : A -> bool) (l : list A) (x : A) :
  In x l -> f x = false -> length (List.filter f l) < length l.
Proof.
  induction l as [| y l IH]; intros Hin Hx; [destruct Hin |].
  simpl. pose proof (sublist_length _ _ (sublist_List_filter f l)) as Hle.
  destruct Hin as [-> | Hin].
  - rewrite Hx. lia.
  - specialize (IH Hin Hx). destruct (f y); simpl; lia.
Qed.

(** X4. On a non-empty population [select()] always removes somebody, so
    [size()] strictly decreases, and it separates by fitness: every
    survivor is strictly fitter than every individual it removed. *)
Theorem select_removes_somebody (s : State) :
  population s <> [] ->
  length (population (snd (select s))) < length (population s) /\
  forall a b,
    In a (population (snd (select s))) ->
    In b (population s) -> ~ In b (population (snd (select s))) ->
    (fitness_of s b < fitness_of s a)%Q.
Proof.
  intros Hne. rewrite population_after_select. split.
  - destruct (exists_min_fitness s (population s) Hne) as (c & Hc & Hmin).
    apply (length_filter_lt _ _ c Hc). rewrite Hmin. reflexivity.
  - intros a b Ha Hb Hnb.
    apply List.filter_In in Ha. destruct Ha as [Ha Hfa].
    assert (Hfb : has_min_fitness s (population s) b = true).
    { destruct (has_min_fitness s (population s) b) eqn:E; [reflexivity |].
      exfalso. apply Hnb. apply List.filter_In. rewrite E. split;
        [exact Hb | reflexivity]. }
    pose proof (proj1 (has_min_fitness_spec s _ b Hb) Hfb) as Hlow.
    apply Qnot_le_lt. intros Hle.
    assert (Hmin : has_min_fitness s (population s) a = true).
    { apply (proj2 (has_min_fitness_spec s _ a Ha)). intros c Hc.
      eapply Qle_trans; [exact Hle | apply Hlow; exact Hc]. }
    rewrite Hmin in Hfa. discriminate.
Qed.

Lemma select_removes_somebody_witness :
  length
    (population
       (snd (select (example_state (with_fitness [3; 3; 5; 1]%Q)
                                   [0; 1; 2; 3] [] []))))
  < 4.
Proof.
  apply (select_removes_somebody
           (example_state (with_fitness [3; 3; 5; 1]%Q) [0; 1; 2; 3] [] [])).
  vm_compute. discriminate.
Defined.

(** X5. [select()] leaves somebody exactly when two individuals of the
    population differ in fitness; a population of one individual is
    always emptied. *)
Theorem select_survivors_iff (s : State) :
  (population (snd (select s)) <> [] <->
   exists a b, In a (population s) /\ In b (population s) /\
               ~ (fitness_of s a == fitness_of s b)%Q) /\
  (length (population s) = 1 -> population (snd (select s)) = []).
Proof.
  assert (Hiff : population (snd (select s)) <> [] <->
                 exists a b, In a (population s) /\ In b (population s) /\
                             ~ (fitness_of s a == fitness_of s b)%Q).
  { rewrite population_after_select. split.
    - intros Hne.
      destruct (List.filter _ (population s)) as [| a r] eqn:E; [congruence |].
      assert (Ha : In a (List.filter
                           (fun a => negb (has_min_fitness s (population s) a))
                           (population s)))
        by (rewrite E; left; reflexivity).
      apply List.filter_In in Ha. destruct Ha as [Ha Hfa].
      assert (Hpne : population s <> [])
        by (intros H0; rewrite H0 in Ha; destruct Ha).
      destruct (exists_min_fitness s (population s) Hpne) as (c & Hc & Hmin).
      exists a, c. split; [exact Ha |]. split; [exact Hc |]. intros Heq.
      assert (has_min_fitness s (population s) a = true) as Hma.
      { apply (proj2 (has_min_fitness_spec s _ a Ha)). intros b Hb.
        rewrite Heq.
        apply (proj1 (has_min_fitness_spec s _ c Hc)); assumption. }
      rewrite Hma in Hfa. discriminate.
    - intros (a & b & Ha & Hb & Hne) Hnil.
      assert (Hall : forall c, In c (population s) ->
                               has_min_fitness s (population s) c = true).
      { intros c Hc.
        destruct (has_min_fitness s (population s) c) eqn:E; [reflexivity |].
        assert (In c (List.filter
                        (fun a => negb (has_min_fitness s (population s) a))
                        (population s))) as Hin
          by (apply List.filter_In; rewrite E; split; [exact Hc | reflexivity]).
        rewrite Hnil in Hin. destruct Hin. }
      apply Hne. apply Qle_antisym.
      + apply (proj1 (has_min_fitness_spec s _ a Ha)); [apply Hall |];
          assumption.
      + apply (proj1 (has_min_fitness_spec s _ b Hb)); [apply Hall |];
          assumption. }
  split; [exact Hiff |].
  intros Hone. rewrite population_after_select.
  destruct (population s) as [| c [| d l]]; simpl in Hone; try discriminate.
  unfold has_min_fitness. simpl.
  assert (Qeq_bool (fitness_of s c) (fitness_of s c) = true) as ->
    by (apply Qeq_bool_iff; reflexivity).
  reflexivity.
Qed.

Lemma select_survivors_iff_witness :
  population (snd (select (example_state (with_fitness [7]%Q) [0] [] [])))
  = [].
Proof.
  apply (select_survivors_iff (example_state (with_fitness [7]%Q) [0] [] [])).
  reflexivity.
Defined.

(** ** The average under the operations *)

(** A length as a rational number. *)
Lemma Qlength_cons {A : Type} (x : A) (l : list A) :
  (inject_Z (Z.of_nat (length (x :: l)))
   == 1 + inject_Z (Z.of_nat (length l)))%Q.
Proof.
  simpl length. rewrite Nat2Z.inj_succ, <- Z.add_1_l, inject_Z_plus.
  reflexivity.
Qed.

Lemma sum_between (lo hi : Q) (l : list Q) :
  (forall x, In x l -> (lo <= x <= hi)%Q) ->
  (inject_Z (Z.of_nat (length l)) * lo <= fold_right Qplus 0 l
   <= inject_Z (Z.of_nat (length l)) * hi)%Q.
Proof.
  induction l as [| x l IH]; intros H.
  - cbn. change (inject_Z (Z.of_nat 0)) with 0%Q. lra.
  - rewrite Qlength_cons. cbn [fold_right].
    destruct (H x) as [H1 H2]; [left; reflexivity |].
    destruct IH as [I1 I2]; [intros y Hy; apply H; right; exact Hy |].
    lra.
Qed.

Lemma map_seq_nth {B : Type} (f : loc -> B) (g : nat -> B) (l : list loc) :
  forall a,
    (forall i, i < length l -> g (a + i) = f (nth i l 0)) ->
    map g (seq a (length l)) = map f l.
Proof.
  induction l as [| x l IH]; intros a H; simpl; [reflexivity |].
  f_equal.
  - pose proof (H 0 ltac:(simpl; lia)) as H0.
    rewrite Nat.add_0_r in H0. exact H0.
  - apply IH. intros i Hi. pose proof (H (S i) ltac:(simpl; lia)) as Hi'.
    rewrite Nat.add_succ_r in Hi'. exact Hi'.
Qed.

Lemma map_seq_shift (g : nat -> nat) (a b n : nat) :
  (forall i, i < n -> g (a + i) = b + i) -> map g (seq a n) = seq b n.
Proof.
  revert a b. induction n as [| n IH]; intros a b H; simpl; [reflexivity |].
  f_equal.
  - pose proof (H 0 ltac:(lia)) as H0. rewrite !Nat.add_0_r in H0. exact H0.
  - apply IH. intros i Hi. pose proof (H (S i) ltac:(lia)) as Hi'.
    rewrite !Nat.add_succ_r in Hi'. exact Hi'.
Qed.

Lemma fold_right_Qplus_app (l1 l2 : list Q) :
  (fold_right Qplus 0 (l1 ++ l2)
   == fold_right Qplus 0 l1 + fold_right Qplus 0 l2)%Q.
Proof.
  induction l1 as [| x l1 IH]; cbn [fold_right app].
  - lra.
  - rewrite IH. lra.
Qed.

(** The fitness values after [recombine(CLONE)]: those of the population,
    twice. *)
Lemma fitness_after_recombine (s : State) :
  Forall (allocated s) (population s) ->
  map (fitness_of (snd (recombine (Member CLONE) s)))
      (population (snd (recombine (Member CLONE) s)))
  = map (fitness_of s) (population s) ++ map (fitness_of s) (population s).
Proof.
  intros Hwf. rewrite (recombine_clone_eq s Hwf).
  destruct (mapM_deepcopy (population s) s Hwf)
    as (_ & (A1 & _ & _ & _ & A5 & _) & _ & _ & I5 & _ & I7).
  set (s1 := snd (mapM deepcopy (population s) s)) in *.
  cbn [snd].
  set (s2 := set_lists s1
               (upd (lists s1) (queries s1)
                  (lists s1 (queries s1)
                   ++ seq (next_obj s) (length (population s))))
               (next_list s1)).
  assert (Hpop : population s2
                 = population s ++ seq (next_obj s) (length (population s))).
  { unfold population. simpl. unfold upd. rewrite Nat.eqb_refl.
    rewrite A1, A5. reflexivity. }
  rewrite Hpop, map_app. f_equal.
  - apply map_ext_in. intros a Ha. unfold fitness_of, s2.
    cbn [objs set_lists].
    rewrite List.Forall_forall in Hwf. destruct (Hwf a Ha) as [Hx _].
    rewrite (I5 a Hx). reflexivity.
  - apply map_seq_nth. intros i Hi. unfold fitness_of, s2.
    cbn [objs set_lists].
    destruct (I7 i Hi) as [J1 _]. rewrite J1. reflexivity.
Qed.

(** The sum over a population splits into the survivors of a filter and
    the others, when the others all have the value [m]. *)
Lemma sum_filter_split {A : Type} (f : A -> Q) (p : A -> bool) (m : Q)
    (l : list A) :
  (forall a, In a l -> p a = false -> (f a == m)%Q) ->
  (fold_right Qplus 0 (map f l)
   == fold_right Qplus 0 (map f (List.filter p l))
      + (inject_Z (Z.of_nat (length l))
         - inject_Z (Z.of_nat (length (List.filter p l)))) * m)%Q.
Proof.
  induction l as [| x l IH]; intros H.
  - cbn. change (inject_Z (Z.of_nat 0)) with 0%Q. lra.
  - assert (IH' := IH (fun a Ha => H a (or_intror Ha))). clear IH.
    rewrite Qlength_cons. cbn [map fold_right List.filter].
    destruct (p x) eqn:Ep.
    + rewrite Qlength_cons. cbn [map fold_right]. lra.
    + rewrite (H x (or_introl eq_refl) Ep). lra.
Qed.

Lemma sum_above {A : Type} (f : A -> Q) (m : Q) (l : list A) :
  (forall a, In a l -> (m < f a)%Q) ->
  l <> [] ->
  (inject_Z (Z.of_nat (length l)) * m < fold_right Qplus 0 (map f l))%Q.
Proof.
  induction l as [| x l IH]; intros H Hne; [congruence |].
  rewrite Qlength_cons. cbn [map fold_right].
  pose proof (H x (or_introl eq_refl)) as Hx.
  destruct l as [| y l].
  - cbn. change (inject_Z (Z.of_nat 0)) with 0%Q. lra.
  - assert (IH' := IH (fun a Ha => H a (or_intror Ha)) ltac:(discriminate)).
    lra.
Qed.

Lemma mean_between (lo hi : Q) (l : list Q) :
  l <> [] -> (forall x, In x l -> (lo <= x <= hi)%Q) ->
  (lo <= mean l <= hi)%Q.
Proof.
  intros Hne Hb. pose proof (Qlength_pos l Hne) as Hpos.
  pose proof (mean_length l Hne) as Hm.
  destruct (sum_between lo hi l Hb) as [H1 H2].
  rewrite <- Hm in H1, H2.
  set (n := inject_Z (Z.of_nat (length l))) in *.
  split; nra.
Qed.

Lemma running_totals_app (l1 l2 : list Q) (a : Q) :
  Forall is_float64 (running_totals a (l1 ++ l2)) ->
  Forall is_float64 (running_totals a l1).
Proof.
  revert a. induction l1 as [| x l1 IH]; intros a H; simpl in *.
  - constructor.
  - inversion H as [| y ys Hy Hys]; subst. constructor; [exact Hy |].
    apply IH. exact Hys.
Qed.

(** X6. When the fitness values add up from the left without rounding,
    [average_score()] lies between any two floats that bound the fitness
    of every individual, so between the lowest and the highest fitness.
    (When an addition rounds it need not: three individuals of fitness
    [0.1] average to [0.10000000000000002].) *)
Theorem average_score_between (lo hi : Q) (s : State) :
  population s <> [] ->
  (Z.of_nat (length (population s)) < 2 ^ 53)%Z ->
  adds_exactly (map (fitness_of s) (population s)) ->
  is_float64 lo -> is_float64 hi ->
  (forall a, In a (population s) -> (lo <= fitness_of s a <= hi)%Q) ->
  exists r, fst (average_score s) = Ok (Finite r) /\ (lo <= r <= hi)%Q.
Proof.
  intros Hne Hlt Hex Hlo Hhi Hb.
  rewrite (average_score_exact s Hne Hlt Hex).
  destruct (round64_between lo hi
              (mean (map (fitness_of s) (population s))) Hlo Hhi)
    as (r & Hr & Hbr).
  - apply mean_between.
    + destruct (population s); [congruence | discriminate].
    + intros x Hx. apply in_map_iff in Hx. destruct Hx as (a & <- & Ha).
      apply Hb. exact Ha.
  - exists r. rewrite Hr. split; [reflexivity | exact Hbr].
Qed.

Lemma average_score_between_witness :
  exists r,
    fst (average_score (example_state (with_fitness [2; 4; 9]%Q) [0; 1; 2] [] []))
    = Ok (Finite r) /\ (2 <= r <= 9)%Q.
Proof.
  apply (average_score_between 2 9
           (example_state (with_fitness [2; 4; 9]%Q) [0; 1; 2] [] [])).
  - vm_compute. discriminate.
  - vm_compute. reflexivity.
  - repeat constructor.
    + exists 2%Z, 0%Z. split; [reflexivity |]. split; [lia | reflexivity].
    + exists 6%Z, 0%Z. split; [reflexivity |]. split; [lia | reflexivity].
    + exists 15%Z, 0%Z. split; [reflexivity |]. split; [lia | reflexivity].
  - exists 2%Z, 0%Z. split; [reflexivity |]. split; [lia | reflexivity].
  - exists 9%Z, 0%Z. split; [reflexivity |]. split; [lia | reflexivity].
  - intros a Ha. vm_compute in Ha.
    destruct Ha as [<- | [<- | [<- | []]]]; vm_compute;
      split; discriminate.
Defined.

(** X7. When the fitness values of the doubled population add up from
    the left without rounding, [recombine(CLONE)] does not move
    [average_score()]: every individual is doubled with its fitness, so
    the mean stays, and so does the float it rounds to.  (When an
    addition rounds the average may move: for the fitness values [0.2]
    and [0.1] it is [0.15000000000000002] before and [0.15] after.) *)
Theorem recombine_keeps_average (s : State) :
  Forall (allocated s) (population s) ->
  (Z.of_nat (length (population s) + length (population s)) < 2 ^ 53)%Z ->
  adds_exactly (map (fitness_of s) (population s)
                ++ map (fitness_of s) (population s)) ->
  fst (average_score (snd (recombine (Member CLONE) s)))
  = fst (average_score s).
Proof.
  intros Hwf Hlt Hex.
  pose proof (fitness_after_recombine s Hwf) as Hfit.
  assert (Hlen : length (population (snd (recombine (Member CLONE) s)))
                 = length (population s) + length (population s)).
  { rewrite <- (length_map (fitness_of (snd (recombine (Member CLONE) s)))).
    rewrite Hfit, length_app, length_map. reflexivity. }
  assert (Hcase : population s = [] \/ population s <> [])
    by (destruct (population s); [left; reflexivity | right; discriminate]).
  destruct Hcase as [E | Hne].
  - rewrite !average_score_eq. cbn [fst]. rewrite Hlen, E. reflexivity.
  - assert (Hne' : population (snd (recombine (Member CLONE) s)) <> []).
    { intros H0. rewrite H0 in Hlen. simpl in Hlen.
      destruct (population s); [congruence | simpl in Hlen; lia]. }
    rewrite (average_score_exact _ Hne'), (average_score_exact s Hne).
    + f_equal. apply round64_proper. rewrite Hfit.
      assert (Hne2 : map (fitness_of s) (population s) <> [])
        by (destruct (population s); [congruence | discriminate]).
      pose proof (Qlength_pos _ Hne2) as Hpos.
      unfold mean. rewrite fold_right_Qplus_app, length_app.
      rewrite Nat2Z.inj_add, inject_Z_plus.
      set (n := inject_Z (Z.of_nat (length (map (fitness_of s) (population s)))))
        in *.
      field. lra.
    + lia.
    + apply (running_totals_app _ _ 0%Q Hex).
    + rewrite Hlen. exact Hlt.
    + rewrite Hfit. exact Hex.
Qed.

Lemma recombine_keeps_average_witness :
  fst (average_score
         (snd (recombine (Member CLONE)
                 (example_state (with_fitness [2; 4]%Q) [0; 1] [] []))))
  = fst (average_score (example_state (with_fitness [2; 4]%Q) [0; 1] [] [])).
Proof.
  apply (recombine_keeps_average
           (example_state (with_fitness [2; 4]%Q) [0; 1] [] [])).
  - repeat constructor.
  - vm_compute. reflexivity.
  - repeat constructor.
    + exists 2%Z, 0%Z. split; [reflexivity |]. split; [lia | reflexivity].
    + exists 6%Z, 0%Z. split; [reflexivity |]. split; [lia | reflexivity].
    + exists 8%Z, 0%Z. split; [reflexivity |]. split; [lia | reflexivity].
    + exists 12%Z, 0%Z. split; [reflexivity |]. split; [lia | reflexivity].
Defined.

(** With rounding the average does move. *)
Example recombine_moves_average :
  let s := example_state (with_fitness [tenth + tenth; tenth]%Q) [0; 1] [] [] in
  fst (average_score s)
  = Ok (Finite (5404319552844596 # 36028797018963968)) /\
  fst (average_score (snd (recombine (Member CLONE) s)))
  = Ok (Finite (5404319552844595 # 36028797018963968)).
Proof. split; vm_compute; reflexivity. Qed.

(** The mean of the survivors of [select] is above the mean before. *)
Lemma mean_after_select (s : State) :
  population (snd (select s)) <> [] ->
  (mean (map (fitness_of s) (population s))
   < mean (map (fitness_of s) (population (snd (select s)))))%Q.
Proof.
  intros Hne'.
  assert (Hne : population s <> []).
  { intros H0. apply Hne'. rewrite population_after_select, H0. reflexivity. }
  assert (Hm1 : map (fitness_of s) (population s) <> [])
    by (destruct (population s); [congruence | discriminate]).
  assert (Hm2 : map (fitness_of s) (population (snd (select s))) <> [])
    by (destruct (population (snd (select s))); [congruence | discriminate]).
  pose proof (mean_length _ Hm1) as Hsum.
  pose proof (mean_length _ Hm2) as Hsum'.
  rewrite length_map in Hsum, Hsum'.
  set (r := mean (map (fitness_of s) (population s))) in *.
  set (r' := mean (map (fitness_of s) (population (snd (select s))))) in *.
  pose proof (Qlength_pos _ Hne) as Hn.
  pose proof (Qlength_pos _ Hne') as Hj.
  destruct (exists_min_fitness s (population s) Hne) as (c & Hc & Hmin).
  assert (Hlt : length (population (snd (select s))) < length (population s)).
  { rewrite population_after_select.
    apply (length_filter_lt _ _ c Hc). rewrite Hmin. reflexivity. }
  assert (Hk : (inject_Z (Z.of_nat (length (population (snd (select s)))))
                < inject_Z (Z.of_nat (length (population s))))%Q).
  { rewrite <- Zlt_Qlt. lia. }
  set (m := fitness_of s c).
  assert (Hsplit := sum_filter_split (fitness_of s)
                      (fun a => negb (has_min_fitness s (population s) a))
                      m (population s)).
  rewrite <- population_after_select in Hsplit.
  assert (Hrem : forall a, In a (population s) ->
                   negb (has_min_fitness s (population s) a) = false ->
                   (fitness_of s a == m)%Q).
  { intros a Ha Hf. apply negb_false_iff in Hf.
    apply Qle_antisym.
    - apply (proj1 (has_min_fitness_spec s _ a Ha) Hf). exact Hc.
    - apply (proj1 (has_min_fitness_spec s _ c Hc) Hmin). exact Ha. }
  specialize (Hsplit Hrem).
  assert (Habove : (inject_Z (Z.of_nat (length (population (snd (select s)))))
                    * m
                    < fold_right Qplus 0
                        (map (fitness_of s) (population (snd (select s)))))%Q).
  { apply sum_above; [| exact Hne'].
    intros a Ha. rewrite population_after_select in Ha.
    apply List.filter_In in Ha. destruct Ha as [Ha Hfa].
    apply Qnot_le_lt. intros Hle.
    assert (has_min_fitness s (population s) a = true) as Hma.
    { apply (proj2 (has_min_fitness_spec s _ a Ha)). intros b Hb.
      eapply Qle_trans; [exact Hle |].
      apply (proj1 (has_min_fitness_spec s _ c Hc) Hmin). exact Hb. }
    rewrite Hma in Hfa. discriminate. }
  rewrite <- Hsum' in Hsplit, Habove. rewrite <- Hsum in Hsplit.
  set (n := inject_Z (Z.of_nat (length (population s)))) in *.
  set (j := inject_Z (Z.of_nat (length (population (snd (select s)))))) in *.
  assert (Hm : (m < r')%Q) by nra.
  assert (Hprod : (0 < (n - j) * (r' - m))%Q).
  { apply Qmult_lt_0_compat; lra. }
  nra.
Qed.

(** X8. When [select()] leaves somebody and the fitness values add up
    from the left without rounding, before and after, [average_score()]
    is not lower after [select()] than before: the mean fitness rises
    and rounding keeps the order.  (It need not be strictly higher: two
    means may round to one float.) *)
Theorem select_never_lowers_average (s : State) :
  population (snd (select s)) <> [] ->
  (Z.of_nat (length (population s)) < 2 ^ 53)%Z ->
  adds_exactly (map (fitness_of s) (population s)) ->
  adds_exactly (map (fitness_of s) (population (snd (select s)))) ->
  (mean (map (fitness_of s) (population s))
   < mean (map (fitness_of s) (population (snd (select s)))))%Q /\
  exists r r',
    fst (average_score s) = Ok (Finite r) /\
    fst (average_score (snd (select s))) = Ok (Finite r') /\
    (r <= r')%Q.
Proof.
  intros Hne' Hlt Hex Hex'. split; [exact (mean_after_select s Hne') |].
  assert (Hne : population s <> []).
  { intros H0. apply Hne'. rewrite population_after_select, H0. reflexivity. }
  assert (Hfit : fitness_of (snd (select s)) = fitness_of s)
    by (unfold fitness_of; rewrite select_eq; reflexivity).
  assert (Hlt' : (Z.of_nat (length (population (snd (select s)))) < 2 ^ 53)%Z).
  { pose proof (List.filter_length_le
                  (fun a => negb (has_min_fitness s (population s) a))
                  (population s)) as Hle.
    rewrite <- population_after_select in Hle. lia. }
  rewrite (average_score_exact s Hne Hlt Hex).
  rewrite (average_score_exact _ Hne' Hlt') by (rewrite Hfit; exact Hex').
  rewrite Hfit.
  destruct (round64_mean_finite (map (fitness_of s) (population s)))
    as (r & Hr); [destruct (population s); [congruence | discriminate]
                 | exact Hex |].
  destruct (round64_mean_finite
              (map (fitness_of s) (population (snd (select s)))))
    as (r' & Hr');
    [destruct (population (snd (select s))); [congruence | discriminate]
    | exact Hex' |].
  exists r, r'. rewrite Hr, Hr'. split; [reflexivity |].
  split; [reflexivity |].
  apply (round64_monotone _ _ r r' (Qlt_le_weak _ _ (mean_after_select s Hne'))
           Hr Hr').
Qed.

Lemma select_never_lowers_average_witness :
  exists r r',
    fst (average_score
           (example_state (with_fitness [3; 3; 5; 1]%Q) [0; 1; 2; 3] [] []))
    = Ok (Finite r) /\
    fst (average_score
           (snd (select (example_state (with_fitness [3; 3; 5; 1]%Q)
                                       [0; 1; 2; 3] [] []))))
    = Ok (Finite r') /\
    (r <= r')%Q.
Proof.
  apply (select_never_lowers_average
           (example_state (with_fitness [3; 3; 5; 1]%Q) [0; 1; 2; 3] [] [])).
  - vm_compute. discriminate.
  - vm_compute. reflexivity.
  - repeat constructor.
    + exists 3%Z, 0%Z. split; [reflexivity |]. split; [lia | reflexivity].
    + exists 6%Z, 0%Z. split; [reflexivity |]. split; [lia | reflexivity].
    + exists 11%Z, 0%Z. split; [reflexivity |]. split; [lia | reflexivity].
    + exists 12%Z, 0%Z. split; [reflexivity |]. split; [lia | reflexivity].
  - repeat constructor.
    + exists 3%Z, 0%Z. split; [reflexivity |]. split; [lia | reflexivity].
    + exists 6%Z, 0%Z. split; [reflexivity |]. split; [lia | reflexivity].
    + exists 11%Z, 0%Z. split; [reflexivity |]. split; [lia | reflexivity].
Defined.

(** Two subnormal fitness values whose mean rounds up to the higher one:
    the average is the same float before and after [select()]. *)
Example select_keeps_rounded_average :
  let u := (1 # 2 ^ 1074)%Q in
  let s := example_state (with_fitness [u; 2 * u; 2 * u]%Q) [0; 1; 2] [] [] in
  population (snd (select s)) = [1; 2] /\
  exists r r',
    fst (average_score s) = Ok (Finite r) /\
    fst (average_score (snd (select s))) = Ok (Finite r') /\
    (r == r')%Q.
Proof.
  split; [vm_compute; reflexivity |].
  eexists. eexists. split; [vm_compute; reflexivity |].
  split; [vm_compute; reflexivity | vm_compute; reflexivity].
Qed.

(** ** Duplicates: what is left, and composing with cloning *)

Lemma first_occurrences_keys (key : loc -> string) (l : list loc) :
  forall before,
    (forall x, In x (first_occurrences key before l) ->
               ~ In (key x) (map key before)) /\
    List.NoDup (map key (first_occurrences key before l)) /\
    (forall a, In a l ->
       In (key a) (map key before) \/
       In (key a) (map key (first_occurrences key before l))).
Proof.
  induction l as [| a l IH]; intros before.
  - simpl. split; [intros x [] |]. split; [constructor | intros a []].
  - destruct (IH (before ++ [a])) as (I1 & I2 & I3).
    assert (Hmono : forall k, In k (map key before) ->
                              In k (map key (before ++ [a]))).
    { intros k Hk. rewrite map_app. apply in_or_app. left. exact Hk. }
    assert (Hcov : forall b, In b l ->
                     In (key b) (map key before) \/ key b = key a \/
                     In (key b) (map key (first_occurrences key (before ++ [a]) l))).
    { intros b Hb. destruct (I3 b Hb) as [H | H]; [| right; right; exact H].
      rewrite map_app in H. apply in_app_or in H.
      destruct H as [H | [H | []]]; [left; exact H | right; left; congruence]. }
    simpl. destruct (existsb _ before) eqn:E.
    + apply existsb_same_key in E. split; [| split].
      * intros x Hx H. apply (I1 x Hx). apply Hmono. exact H.
      * exact I2.
      * intros b [<- | Hb]; [left; exact E |].
        destruct (Hcov b Hb) as [H | [H | H]];
          [left; exact H | left; rewrite H; exact E | right; exact H].
    + assert (Hnot : ~ In (key a) (map key before)).
      { intros H. apply existsb_same_key in H. congruence. }
      split; [| split].
      * intros x [<- | Hx]; [exact Hnot |].
        intros H. apply (I1 x Hx). apply Hmono. exact H.
      * simpl. constructor; [| exact I2].
        intros H. apply in_map_iff in H. destruct H as (x & Ex & Hx).
        apply (I1 x Hx). rewrite Ex, map_app. apply in_or_app.
        right. left. reflexivity.
      * intros b [<- | Hb]; [right; left; reflexivity |].
        destruct (Hcov b Hb) as [H | [H | H]];
          [left; exact H | right; left; symmetry; exact H
          | right; right; exact H].
Qed.

Lemma first_occurrences_distinct (key : loc -> string) (l : list loc) :
  forall before,
    List.NoDup (map key l) ->
    (forall x, In x l -> ~ In (key x) (map key before)) ->
    first_occurrences key before l = l.
Proof.
  induction l as [| a l IH]; intros before Hnd Hout; [reflexivity |].
  simpl in Hnd. inversion Hnd as [| ? ? Hnotin Hnd']; subst. simpl.
  destruct (existsb _ before) eqn:E.
  - apply existsb_same_key in E. exfalso.
    apply (Hout a); [left; reflexivity | exact E].
  - f_equal. apply IH; [exact Hnd' |].
    intros x Hx H. rewrite map_app in H. apply in_app_or in H.
    destruct H as [H | [H | []]].
    + apply (Hout x); [right; exact Hx | exact H].
    + apply Hnotin. rewrite H. apply in_map. exact Hx.
Qed.

Lemma existsb_ext_In {A : Type} (f g : A -> bool) (l : list A) :
  (forall x, In x l -> f x = g x) -> existsb f l = existsb g l.
Proof.
  induction l as [| x l IH]; intros H; [reflexivity |].
  simpl. rewrite (H x) by (left; reflexivity).
  rewrite IH by (intros y Hy; apply H; right; exact Hy). reflexivity.
Qed.

Lemma first_occurrences_ext (key key' : loc -> string) (l : list loc) :
  forall before,
    (forall x, In x (before ++ l) -> key x = key' x) ->
    first_occurrences key before l = first_occurrences key' before l.
Proof.
  induction l as [| a l IH]; intros before H; [reflexivity |].
  simpl.
  assert (E : existsb (fun b => String.eqb (key b) (key a)) before
              = existsb (fun b => String.eqb (key' b) (key' a)) before).
  { apply existsb_ext_In. intros b Hb.
    rewrite (H b) by (apply in_or_app; left; exact Hb).
    rewrite (H a) by (apply in_or_app; right; left; reflexivity).
    reflexivity. }
  rewrite E, (IH (before ++ [a])).
  - reflexivity.
  - intros x Hx. apply H. rewrite <- app_assoc in Hx. exact Hx.
Qed.

Lemma first_occurrences_all_seen (key : loc -> string) (l : list loc) :
  forall before,
    (forall x, In x l -> In (key x) (map key before)) ->
    first_occurrences key before l = [].
Proof.
  induction l as [| a l IH]; intros before H; [reflexivity |].
  simpl.
  assert (existsb (fun b => String.eqb (key b) (key a)) before = true) as ->
    by (apply existsb_same_key; apply H; left; reflexivity).
  apply IH. intros x Hx. rewrite map_app. apply in_or_app. left.
  apply H. right. exact Hx.
Qed.

Section Deduplication.

Variable repr_of_terms : list string -> string.

Lemma Query_repr_after_remove_duplicates (s : State) :
  queries s < next_list s ->
  Query_repr repr_of_terms (snd (remove_duplicates repr_of_terms s))
  = Query_repr repr_of_terms s.
Proof.
  intros Hq.
  destruct (population_after_remove_duplicates repr_of_terms s Hq)
    as (_ & _ & Ho & Ht & _).
  unfold Query_repr, terms_of. rewrite Ho, Ht. reflexivity.
Qed.

(** X9. After [remove_duplicates()] no two individuals of the population
    have the same representation, and no representation is lost: every
    individual of the population before has its representation in the
    population after. *)
Theorem remove_duplicates_distinct_and_complete (s : State) :
  queries s < next_list s ->
  let s' := snd (remove_duplicates repr_of_terms s) in
  List.NoDup (map (Query_repr repr_of_terms s') (population s')) /\
  forall a, In a (population s) ->
    exists b, In b (population s') /\
              Query_repr repr_of_terms s' b = Query_repr repr_of_terms s a.
Proof.
  intros Hq s'. subst s'.
  rewrite (Query_repr_after_remove_duplicates s Hq).
  destruct (population_after_remove_duplicates repr_of_terms s Hq)
    as (_ & E & _).
  rewrite E.
  destruct (first_occurrences_keys (Query_repr repr_of_terms s)
              (population s) []) as (_ & Hnd & Hcov).
  split; [exact Hnd |].
  intros a Ha. destruct (Hcov a Ha) as [[] | H].
  apply in_map_iff in H. destruct H as (b & Eb & Hb).
  exists b. split; [exact Hb | exact Eb].
Qed.

(** X10. [remove_duplicates()] leaves a population whose representations
    are pairwise distinct exactly as it is (in a new list object), so
    calling it twice gives what calling it once gives. *)
Theorem remove_duplicates_idempotent (s : State) :
  queries s < next_list s ->
  (List.NoDup (map (Query_repr repr_of_terms s) (population s)) ->
   population (snd (remove_duplicates repr_of_terms s)) = population s) /\
  population (snd (remove_duplicates repr_of_terms
                     (snd (remove_duplicates repr_of_terms s))))
  = population (snd (remove_duplicates repr_of_terms s)).
Proof.
  intros Hq.
  assert (Hfix : forall t, queries t < next_list t ->
            List.NoDup (map (Query_repr repr_of_terms t) (population t)) ->
            population (snd (remove_duplicates repr_of_terms t))
            = population t).
  { intros t Ht Hnd.
    destruct (population_after_remove_duplicates repr_of_terms t Ht)
      as (_ & E & _).
    rewrite E. apply first_occurrences_distinct; [exact Hnd |].
    intros x _ []. }
  split; [apply Hfix; exact Hq |].
  destruct (population_after_remove_duplicates repr_of_terms s Hq)
    as (_ & E & _ & _ & Hqs & Hnl).
  apply Hfix; [rewrite Hqs, Hnl; lia |].
  rewrite (Query_repr_after_remove_duplicates s Hq), E.
  apply (first_occurrences_keys (Query_repr repr_of_terms s)
           (population s) []).
Qed.

(** X11. Cloning and then removing duplicates gives the population that
    removing duplicates alone gives: every clone has the representation
    of its source, which stands before it, so no clone is kept. *)
Theorem recombine_then_remove_duplicates (s : State) :
  Forall (allocated s) (population s) ->
  queries s < next_list s ->
  population (snd (remove_duplicates repr_of_terms
                     (snd (recombine (Member CLONE) s))))
  = population (snd (remove_duplicates repr_of_terms s)).
Proof.
  intros Hwf Hq.
  destruct (population_after_remove_duplicates repr_of_terms s Hq)
    as (_ & E & _).
  rewrite E. clear E.
  destruct (mapM_deepcopy (population s) s Hwf)
    as (_ & (A1 & A2 & _ & _ & A5 & _) & _ & _ & I5 & I6 & I7).
  pose proof (recombine_clone_eq s Hwf) as Erc.
  set (s1 := snd (mapM deepcopy (population s) s)) in *.
  set (s2 := snd (recombine (Member CLONE) s)).
  assert (Es2 : s2 = set_lists s1
                       (upd (lists s1) (queries s1)
                          (lists s1 (queries s1)
                           ++ seq (next_obj s) (length (population s))))
                       (next_list s1))
    by (unfold s2; rewrite Erc; reflexivity).
  assert (Hpop : population s2
                 = population s ++ seq (next_obj s) (length (population s))).
  { rewrite Es2. unfold population. simpl. unfold upd. rewrite Nat.eqb_refl.
    rewrite A1, A5. reflexivity. }
  assert (Hq2 : queries s2 < next_list s2).
  { rewrite Es2. simpl. rewrite A5, A2. exact Hq. }
  assert (Hold : forall a, In a (population s) ->
                           terms_of s2 a = terms_of s a).
  { intros a Ha. rewrite List.Forall_forall in Hwf.
    destruct (Hwf a Ha) as [Hx Htx]. rewrite Es2. unfold terms_of. simpl.
    rewrite (I5 a Hx), (I6 _ Htx). reflexivity. }
  assert (Hnew : forall i, i < length (population s) ->
                   terms_of s2 (next_obj s + i)
                   = terms_of s (nth i (population s) 0)).
  { intros i Hi. destruct (I7 i Hi) as [J1 J2]. rewrite Es2.
    unfold terms_of at 1. simpl. rewrite J1. simpl. exact J2. }
  destruct (population_after_remove_duplicates repr_of_terms s2 Hq2)
    as (_ & E & _).
  rewrite E, Hpop, first_occurrences_app. simpl app.
  rewrite (first_occurrences_all_seen (Query_repr repr_of_terms s2)
             (seq (next_obj s) (length (population s))) (population s)).
  - rewrite app_nil_r. apply first_occurrences_ext. simpl.
    intros x Hx. unfold Query_repr. rewrite (Hold x Hx). reflexivity.
  - intros c Hc. apply in_seq in Hc.
    replace c with (next_obj s + (c - next_obj s)) by lia.
    assert (Hi : c - next_obj s < length (population s)) by lia.
    unfold Query_repr at 1. rewrite (Hnew _ Hi).
    assert (Hin : In (nth (c - next_obj s) (population s) 0) (population s))
      by (apply nth_In; exact Hi).
    rewrite <- (Hold _ Hin).
    apply (in_map (Query_repr repr_of_terms s2)). exact Hin.
Qed.

End Deduplication.

Lemma remove_duplicates_distinct_and_complete_witness :
  List.NoDup
    (map (Query_repr blank_separated
            (snd (remove_duplicates blank_separated
                    (example_state [(["x"; "y"]%string, 1%Q);
                                    (["x"; "y"]%string, 9%Q);
                                    (["z"]%string, 2%Q)]
                                   [0; 1; 2] [] []))))
         (population
            (snd (remove_duplicates blank_separated
                    (example_state [(["x"; "y"]%string, 1%Q);
                                    (["x"; "y"]%string, 9%Q);
                                    (["z"]%string, 2%Q)]
                                   [0; 1; 2] [] []))))).
Proof.
  apply (remove_duplicates_distinct_and_complete blank_separated
           (example_state [(["x"; "y"]%string, 1%Q);
                           (["x"; "y"]%string, 9%Q);
                           (["z"]%string, 2%Q)]
                          [0; 1; 2] [] [])).
  vm_compute. lia.
Defined.

Lemma remove_duplicates_idempotent_witness :
  population
    (snd (remove_duplicates blank_separated
            (example_state [(["x"]%string, 1%Q); (["z"]%string, 2%Q)]
                           [0; 1] [] [])))
  = [0; 1].
Proof.
  refine (proj1 (remove_duplicates_idempotent blank_separated
                   (example_state [(["x"]%string, 1%Q); (["z"]%string, 2%Q)]
                                  [0; 1] [] []) _) _).
  - vm_compute. lia.
  - vm_compute. repeat constructor; simpl; intuition discriminate.
Defined.

Lemma recombine_then_remove_duplicates_witness :
  population
    (snd (remove_duplicates blank_separated
            (snd (recombine (Member CLONE)
                    (example_state [(["x"]%string, 1%Q); (["z"]%string, 2%Q)]
                                   [0; 1] [] [])))))
  = population
      (snd (remove_duplicates blank_separated
              (example_state [(["x"]%string, 1%Q); (["z"]%string, 2%Q)]
                             [0; 1] [] []))).
Proof.
  apply (recombine_then_remove_duplicates blank_separated
           (example_state [(["x"]%string, 1%Q); (["z"]%string, 2%Q)]
                          [0; 1] [] [])).
  - repeat constructor.
  - vm_compute. lia.
Defined.

(** ** Mutation: the only individuals lost are the emptied ones *)

Section Viability.

Variable Query_mutate :
  list string -> list nat -> list string -> list string * list nat.
Variable repr_of_terms : list string -> string.

Lemma mutate_loop_all (qs : list loc) (nl : loc) :
  (forall w r ts, fst (Query_mutate w r ts) <> []) ->
  forall s,
    lists (snd (mutate_loop Query_mutate qs nl s)) nl = lists s nl ++ qs.
Proof.
  intros Hlive. induction qs as [| a rest IH]; intros s.
  - simpl. rewrite app_nil_r. reflexivity.
  - rewrite mutate_loop_cons, IH.
    destruct (mutate_step_frame Query_mutate a nl s) as (_ & _ & _ & S4 & _).
    rewrite S4, <- app_assoc.
    specialize (Hlive (_words s) (rng s) (terms_of s a)).
    destruct (fst (Query_mutate (_words s) (rng s) (terms_of s a)));
      [congruence | reflexivity].
Qed.

Lemma mutate_loop_none (qs : list loc) (nl : loc) :
  (forall w r ts, fst (Query_mutate w r ts) = []) ->
  forall s,
    lists (snd (mutate_loop Query_mutate qs nl s)) nl = lists s nl.
Proof.
  intros Hdead. induction qs as [| a rest IH]; intros s.
  - reflexivity.
  - rewrite mutate_loop_cons, IH.
    destruct (mutate_step_frame Query_mutate a nl s) as (_ & _ & _ & S4 & _).
    rewrite S4, Hdead. simpl. apply app_nil_r.
Qed.

(** X12. [mutate()] loses an individual only by emptying it: with a
    mutation operator that never leaves a query without terms the
    population after [mutate()] is the population before, entry for
    entry, and with one that always empties the population is empty.
    Both hold for any population, aliased entries included. *)
Theorem mutate_keeps_the_viable (s : State) :
  queries s < next_list s ->
  ((forall w r ts, fst (Query_mutate w r ts) <> []) ->
   population (snd (mutate Query_mutate s)) = population s) /\
  ((forall w r ts, fst (Query_mutate w r ts) = []) ->
   population (snd (mutate Query_mutate s)) = []).
Proof.
  intros Hq. rewrite (population_after_mutate Query_mutate s Hq). split.
  - intros Hlive. rewrite (mutate_loop_all _ _ Hlive). simpl. unfold upd.
    rewrite Nat.eqb_refl. reflexivity.
  - intros Hdead. rewrite (mutate_loop_none _ _ Hdead). simpl. unfold upd.
    rewrite Nat.eqb_refl. reflexivity.
Qed.

(** ** The empty population *)

(** X13. An empty population stays empty under every operation: the four
    filters leave it empty, [random_purge(k)] returns only for [k = 0]
    and raises [ValueError] for every other [k] (its default [k = 1]
    too), [recombine(CLONE)] returns without creating any object, and
    [average_score()] is [0.0] after it. *)
Theorem empty_population_stays_empty (s : State) :
  population s = [] ->
  queries s < next_list s ->
  (forall op,
     population (snd (run_filter Query_mutate repr_of_terms op s)) = []) /\
  (forall k, k <> 0%Z -> random_purge k s = (Raise ValueError, s)) /\
  fst (recombine (Member CLONE) s) = Ok tt /\
  population (snd (recombine (Member CLONE) s)) = [] /\
  next_obj (snd (recombine (Member CLONE) s)) = next_obj s /\
  fst (average_score (snd (recombine (Member CLONE) s))) = Ok (Finite 0).
Proof.
  intros E Hq.
  assert (Hrc : recombine (Member CLONE) s
                = (Ok tt, set_lists s (upd (lists s) (queries s) [])
                                    (next_list s))).
  { pose proof E as E'. unfold population in E'.
    unfold recombine, bind, get, read_list, list_extend, write_list.
    rewrite E'. simpl. unfold bind, read_list. rewrite E'. reflexivity. }
  assert (Hpop : population (snd (recombine (Member CLONE) s)) = []).
  { rewrite Hrc. unfold population. simpl. unfold upd.
    rewrite Nat.eqb_refl. reflexivity. }
  split.
  { intros op.
    pose proof (run_filter_sublist Query_mutate repr_of_terms op s Hq) as Hsub.
    rewrite E in Hsub. apply sublist_nil_r in Hsub. exact Hsub. }
  split.
  { intros k Hk. apply random_purge_invalid. rewrite E. simpl. lia. }
  split; [rewrite Hrc; reflexivity |].
  split; [exact Hpop |].
  split; [rewrite Hrc; reflexivity |].
  rewrite average_score_eq, Hpop. reflexivity.
Qed.

End Viability.

Lemma mutate_keeps_the_viable_witness :
  population
    (snd (mutate drop_first_term
            (example_state [(["a"; "b"]%string, 1%Q)] [0; 0] [] [])))
  `sublist_of` [0; 0] /\
  population
    (snd (mutate (fun _ r _ => ([], r))
            (example_state [(["a"; "b"]%string, 1%Q)] [0; 0] [] [])))
  = [] /\
  population
    (snd (mutate (fun _ r ts => ("w"%string :: ts, r))
            (example_state [(["a"; "b"]%string, 1%Q)] [0; 0] [] [])))
  = [0; 0].
Proof.
  split; [vm_compute; repeat constructor |]. split.
  - refine (proj2 (mutate_keeps_the_viable (fun _ r _ => ([], r))
                     (example_state [(["a"; "b"]%string, 1%Q)] [0; 0] [] [])
                     _) _).
    + vm_compute. lia.
    + reflexivity.
  - refine (proj1 (mutate_keeps_the_viable
                     (fun _ r ts => ("w"%string :: ts, r))
                     (example_state [(["a"; "b"]%string, 1%Q)] [0; 0] [] [])
                     _) _).
    + vm_compute. lia.
    + discriminate.
Defined.

Lemma empty_population_stays_empty_witness :
  random_purge 1 (example_state [] [] [] [])
  = (Raise ValueError, example_state [] [] [] []) /\
  population
    (snd (recombine (Member CLONE) (example_state [] [] [] []))) = [].
Proof.
  destruct (empty_population_stays_empty drop_first_term blank_separated
              (example_state [] [] [] []))
    as (_ & Hk & _ & Hp & _).
  - reflexivity.
  - vm_compute. lia.
  - split; [apply Hk; discriminate | exact Hp].
Defined.

(** ** Calling an operation again and again *)

Lemma times_select_succ (n : nat) (s : State) :
  times (S n) select s = times n select (snd (select s)).
Proof.
  simpl. unfold bind. rewrite select_eq. reflexivity.
Qed.

(** X14. Without recombination selection exhausts a population: after as
    many calls of [select()] as there are individuals, or more, the
    population is empty, and none of the calls raises. *)
Theorem select_exhausts (n : nat) :
  forall s,
    length (population s) <= n ->
    fst (times n select s) = Ok tt /\
    population (snd (times n select s)) = [].
Proof.
  induction n as [| n IH]; intros s Hlen.
  - split; [reflexivity |]. simpl.
    destruct (population s); [reflexivity | simpl in Hlen; lia].
  - rewrite times_select_succ. apply IH.
    assert (Hcase : population s = [] \/ population s <> [])
      by (destruct (population s); [left; reflexivity | right; discriminate]).
    destruct Hcase as [E | Hne].
    + rewrite population_after_select, E. simpl. lia.
    + destruct (exists_min_fitness s (population s) Hne) as (c & Hc & Hmin).
      rewrite population_after_select.
      assert (length (List.filter
                        (fun a => negb (has_min_fitness s (population s) a))
                        (population s)) < length (population s)).
      { apply (length_filter_lt _ _ c Hc). rewrite Hmin. reflexivity. }
      lia.
Qed.

Lemma select_exhausts_witness :
  population
    (snd (times 4 select
            (example_state (with_fitness [3; 3; 5; 1]%Q) [0; 1; 2; 3] [] [])))
  = [].
Proof.
  apply (select_exhausts 4
           (example_state (with_fitness [3; 3; 5; 1]%Q) [0; 1; 2; 3] [] [])).
  vm_compute. lia.
Defined.

(** ** Individuals that share nothing stay so *)

Section Separation.

Variable Query_mutate :
  list string -> list nat -> list string -> list string * list nat.
Variable repr_of_terms : list string -> string.

Lemma mutate_loop_objs (qs : list loc) (nl : loc) :
  forall s,
    objs (snd (mutate_loop Query_mutate qs nl s)) = objs s /\
    next_obj (snd (mutate_loop Query_mutate qs nl s)) = next_obj s /\
    next_terms (snd (mutate_loop Query_mutate qs nl s)) = next_terms s.
Proof.
  induction qs as [| a rest IH]; intros s.
  - repeat split; reflexivity.
  - rewrite mutate_loop_cons.
    destruct (IH (mutate_step Query_mutate a nl s)) as (I1 & I2 & I3).
    rewrite I1, I2, I3. unfold mutate_step. cbv zeta.
    destruct (Nat.ltb 0 _); repeat split; reflexivity.
Qed.

Lemma remove_duplicates_loop_objs (qs : list loc) (nl : loc) :
  forall seen s,
    next_obj (snd (remove_duplicates_loop repr_of_terms qs nl seen s))
    = next_obj s /\
    next_terms (snd (remove_duplicates_loop repr_of_terms qs nl seen s))
    = next_terms s.
Proof.
  induction qs as [| a rest IH]; intros seen s.
  - split; reflexivity.
  - destruct (seen !! Query_repr repr_of_terms s a) as [v |] eqn:Es.
    + rewrite remove_duplicates_loop_seen by (exists v; exact Es). apply IH.
    + rewrite remove_duplicates_loop_new by exact Es.
      destruct (IH (<[Query_repr repr_of_terms s a := true]> seen)
                  (set_lists s (upd (lists s) nl (lists s nl ++ [a]))
                             (next_list s))) as [I1 I2].
      rewrite I1, I2. split; reflexivity.
Qed.

(** No filtering operation creates, moves or rebinds a [Query] object;
    each leaves [self.queries] an allocated list. *)
Lemma run_filter_objs (op : FilterOp) (s : State) :
  queries s < next_list s ->
  objs (snd (run_filter Query_mutate repr_of_terms op s)) = objs s /\
  next_obj (snd (run_filter Query_mutate repr_of_terms op s)) = next_obj s /\
  next_terms (snd (run_filter Query_mutate repr_of_terms op s))
  = next_terms s /\
  queries (snd (run_filter Query_mutate repr_of_terms op s))
  < next_list (snd (run_filter Query_mutate repr_of_terms op s)).
Proof.
  intros Hq. destruct op as [| | k |]; simpl run_filter.
  - rewrite select_eq. simpl. repeat split; lia.
  - rewrite mutate_eq. cbv zeta.
    set (s0 := set_lists s (upd (lists s) (next_list s) []) (S (next_list s))).
    destruct (mutate_loop_frame Query_mutate (lists s0 (queries s0))
                (next_list s) s0) as (I1 & _ & I3 & _).
    destruct (mutate_loop_objs (lists s0 (queries s0)) (next_list s) s0)
      as (J1 & J2 & J3).
    rewrite I1. cbn [fst snd set_queries objs next_obj next_terms queries
                     next_list].
    rewrite J1, J2, J3, I3. simpl. repeat split; lia.
  - destruct (Z_le_dec 0 k) as [H0 |];
      [destruct (Z_le_dec k (Z.of_nat (length (population s)))) as [Hn |] |].
    + destruct (sample_loop_spec (Z.to_nat k)
                  (seq 0 (length (population s))) s)
        as (idxs & r' & Es & _).
      { rewrite length_seq. lia. }
      { apply List.seq_NoDup. }
      rewrite (random_purge_eq k s _ idxs (conj H0 Hn) Es). simpl.
      repeat split; lia.
    + rewrite random_purge_invalid by lia. simpl. repeat split; exact Hq.
    + rewrite random_purge_invalid by lia. simpl. repeat split; exact Hq.
  - destruct (population_after_remove_duplicates repr_of_terms s Hq)
      as (_ & _ & Ho & _ & Hqs & Hnl).
    rewrite Ho, Hqs, Hnl. rewrite remove_duplicates_eq. cbv zeta.
    set (s0 := set_lists s (upd (lists s) (next_list s) []) (S (next_list s))).
    destruct (remove_duplicates_loop_spec repr_of_terms
                (lists s0 (queries s0)) (next_list s) s0 ∅ [])
      as (I1 & _).
    { intros k. rewrite lookup_empty. simpl.
      split; [intros [? ?]; discriminate | tauto]. }
    destruct (remove_duplicates_loop_objs (lists s0 (queries s0))
                (next_list s) ∅ s0) as [J1 J2].
    rewrite I1. cbn [fst snd set_queries next_obj next_terms].
    rewrite J1, J2. simpl. repeat split; lia.
Qed.

(** What [recombine(CLONE)] leaves: the population and the clones, whose
    sequences of terms are the next free ones. *)
Lemma recombine_clone_layout (s : State) :
  Forall (allocated s) (population s) ->
  let s' := snd (recombine (Member CLONE) s) in
  population s' = population s ++ seq (next_obj s) (length (population s)) /\
  (forall a, In a (population s) -> terms (objs s' a) = terms (objs s a)) /\
  (forall i, i < length (population s) ->
     terms (objs s' (next_obj s + i)) = next_terms s + i) /\
  next_obj s' = next_obj s + length (population s) /\
  next_terms s' = next_terms s + length (population s) /\
  queries s' = queries s /\ next_list s' = next_list s.
Proof.
  intros Hwf s'. subst s'. rewrite (recombine_clone_eq s Hwf).
  destruct (mapM_deepcopy (population s) s Hwf)
    as (_ & (A1 & A2 & _ & _ & A5 & _) & N1 & N2 & I5 & _ & I7).
  set (s1 := snd (mapM deepcopy (population s) s)) in *.
  cbn [snd].
  split.
  { unfold population at 1. simpl. unfold upd. rewrite Nat.eqb_refl.
    rewrite A1, A5. reflexivity. }
  split.
  { intros a Ha. cbn [objs set_lists].
    rewrite List.Forall_forall in Hwf. destruct (Hwf a Ha) as [Hx _].
    rewrite (I5 a Hx). reflexivity. }
  split.
  { intros i Hi. cbn [objs set_lists].
    destruct (I7 i Hi) as [J1 _]. rewrite J1. reflexivity. }
  simpl. rewrite N1, N2, A5, A2. repeat split; reflexivity.
Qed.

Lemma recombine_keeps_allocated (s : State) :
  Forall (allocated s) (population s) ->
  Forall (allocated (snd (recombine (Member CLONE) s)))
         (population (snd (recombine (Member CLONE) s))).
Proof.
  intros Hwf.
  destruct (recombine_clone_layout s Hwf)
    as (Hpop & Hold & Hnew & N1 & N2 & _).
  rewrite Hpop. apply List.Forall_forall. intros a Ha.
  apply in_app_or in Ha. unfold allocated. rewrite N1, N2.
  destruct Ha as [Ha | Ha].
  - rewrite (Hold a Ha). rewrite List.Forall_forall in Hwf.
    destruct (Hwf a Ha) as [H1 H2]. split; lia.
  - apply in_seq in Ha.
    replace a with (next_obj s + (a - next_obj s)) by lia.
    rewrite Hnew by lia. split; lia.
Qed.

(** X15. What [mutate()] needs to keep only viable individuals is kept by
    every operation: when the individuals of the population are
    allocated objects that share no sequence of terms with one another,
    they still are after [select()], [mutate()], [random_purge(k)],
    [remove_duplicates()] and [recombine(CLONE)]. *)
Theorem operations_keep_individuals_separate (s : State) :
  separate s ->
  (forall op, separate (snd (run_filter Query_mutate repr_of_terms op s))) /\
  separate (snd (recombine (Member CLONE) s)).
Proof.
  intros (Hwf & Hnd & Hq). split.
  - intros op.
    destruct (run_filter_objs op s Hq) as (Ho & Hn & Ht & Hq').
    pose proof (run_filter_sublist Query_mutate repr_of_terms op s Hq) as Hsub.
    set (s' := snd (run_filter Query_mutate repr_of_terms op s)) in *.
    split; [| split; [| exact Hq']].
    + apply List.Forall_forall. intros a Ha.
      assert (Hin : In a (population s)).
      { apply list_elem_of_In. eapply elem_of_sublist; [| exact Hsub].
        apply list_elem_of_In. exact Ha. }
      rewrite List.Forall_forall in Hwf. destruct (Hwf a Hin) as [H1 H2].
      unfold allocated. rewrite Ho, Hn, Ht. split; assumption.
    + rewrite Ho. apply (proj1 (NoDup_ListNoDup _)).
      apply (sublist_NoDup _ _ (proj2 (NoDup_ListNoDup _) Hnd)).
      apply sublist_map. exact Hsub.
  - pose proof (recombine_keeps_allocated s Hwf) as Hwf'.
    destruct (recombine_clone_layout s Hwf)
      as (Hpop & Hold & Hnew & _ & _ & Hqs & Hnl).
    set (s' := snd (recombine (Member CLONE) s)) in *.
    split; [exact Hwf' |]. split; [| rewrite Hqs, Hnl; exact Hq].
    rewrite Hpop, map_app.
    rewrite (map_ext_in _ (fun a => terms (objs s a)) (population s))
      by exact Hold.
    rewrite (map_seq_shift _ (next_obj s) (next_terms s)) by exact Hnew.
    apply List.NoDup_app; [exact Hnd | apply List.seq_NoDup |].
    intros t Ht Hs. apply in_seq in Hs.
    apply in_map_iff in Ht. destruct Ht as (a & <- & Ha).
    rewrite List.Forall_forall in Hwf. destruct (Hwf a Ha) as [_ H2]. lia.
Qed.

End Separation.

Lemma operations_keep_individuals_separate_witness :
  separate
    (snd (recombine (Member CLONE)
            (example_state (with_fitness [1; 2]%Q) [0; 1] [] []))).
Proof.
  apply (operations_keep_individuals_separate drop_first_term blank_separated
           (example_state (with_fitness [1; 2]%Q) [0; 1] [] [])).
  split; [repeat constructor |].
  split; [| vm_compute; lia].
  vm_compute. repeat constructor; simpl; intuition lia.
Defined.

Lemma times_recombine_succ (k : nat) (s : State) :
  Forall (allocated s) (population s) ->
  times (S k) (recombine (Member CLONE)) s
  = times k (recombine (Member CLONE)) (snd (recombine (Member CLONE) s)).
Proof.
  intros Hwf.
  change (times (S k) (recombine (Member CLONE)) s)
    with (match recombine (Member CLONE) s with
          | (Ok _, s') => times k (recombine (Member CLONE)) s'
          | (Raise e, s') => (Raise e, s')
          end).
  rewrite (recombine_clone_eq s Hwf). reflexivity.
Qed.

(** X16. Every [recombine(CLONE)] doubles the population, so [k] calls in
    a row leave [2^k] times as many individuals, and none of the calls
    raises. *)
Theorem recombine_times_doubles (k : nat) :
  forall s,
    Forall (allocated s) (population s) ->
    fst (times k (recombine (Member CLONE)) s) = Ok tt /\
    length (population (snd (times k (recombine (Member CLONE)) s)))
    = 2 ^ k * length (population s).
Proof.
  induction k as [| k IH]; intros s Hwf.
  - split; [reflexivity |]. simpl. lia.
  - rewrite (times_recombine_succ k s Hwf).
    destruct (IH _ (recombine_keeps_allocated s Hwf)) as [I1 I2].
    split; [exact I1 |]. rewrite I2.
    destruct (recombine_clone_layout s Hwf) as (Hpop & _).
    rewrite Hpop, length_app, length_seq. rewrite Nat.pow_succ_r'. lia.
Qed.

Lemma recombine_times_doubles_witness :
  length
    (population
       (snd (times 3 (recombine (Member CLONE))
               (example_state (with_fitness [1; 2]%Q) [0; 1] [] []))))
  = 2 ^ 3 * 2.
Proof.
  apply (recombine_times_doubles 3
           (example_state (with_fitness [1; 2]%Q) [0; 1] [] [])).
  repeat constructor.
Defined.

(** * Properties of the class [Index] *)

Section IndexProperties.

Import Index.

Context {Service Vocabulary : Type}.
Variable es : Elasticsearch Service.
Variable add_words_from : string -> Vocabulary -> Outcome unit * Vocabulary.

(** X17. [ensure_index()] returns exactly when the client deletes and
    creates the index without raising.  When [delete] raises, [create] is
    not attempted.  An [Exception] of the client never reaches the
    caller and [exit(1)] is never reached: the handler's
    [logging.ERROR(...)] raises [TypeError] first, so whatever
    [ensure_index()] raises is that [TypeError] or something that is not
    an [Exception]. *)
Theorem ensure_index_masks_failures (s : Self Service Vocabulary) :
  let d := es_indices_delete es (name s) true (service s) in
  let c := es_indices_create es (name s) index_body (snd d) in
  (fst (ensure_index es s) = Returns tt <->
   (exists r, fst d = Returns r) /\ (exists r, fst c = Returns r)) /\
  (forall f, fst d = Raises f -> service (snd (ensure_index es s)) = snd d) /\
  (forall f, fst d = Raises f \/
             ((exists r, fst d = Returns r) /\ fst c = Raises f) ->
     is_Exception f = true ->
     fst (ensure_index es s) = Raises (Builtin TypeError)) /\
  (forall f, fst (ensure_index es s) = Raises f ->
     f = Builtin TypeError \/ is_Exception f = false).
Proof.
  intros d c. subst d c.
  unfold ensure_index, try_except_Exception, ibind, call, iret, log_and_exit,
    ilogging_ERROR, iexit, iraise.
  cbn [fst snd name service vocabulary].
  destruct (es_indices_delete es (name s) true (service s)) as [[rd | fd] sd];
    cbn [fst snd name service vocabulary].
  - destruct (es_indices_create es (name s) index_body sd) as [[rc | fc] sc];
      cbn [fst snd name service vocabulary].
    + split; [split; [intros _; split; eexists; reflexivity | reflexivity] |].
      split; [discriminate |]. split; [| discriminate].
      intros f [H | [_ H]]; discriminate.
    + destruct (is_Exception fc) eqn:Efc; cbn [fst snd service].
      * split; [split; [discriminate | intros [_ [r H]]; discriminate] |].
        split; [discriminate |]. split; [reflexivity |].
        intros f [= <-]. left. reflexivity.
      * split; [split; [discriminate | intros [_ [r H]]; discriminate] |].
        split; [discriminate |]. split.
        -- intros f [H | [_ [= <-]]]; [discriminate | congruence].
        -- intros f [= <-]. right. exact Efc.
  - destruct (is_Exception fd) eqn:Efd; cbn [fst snd service].
    + split; [split; [discriminate | intros [[r H] _]; discriminate] |].
      split; [reflexivity |]. split; [reflexivity |].
      intros f [= <-]. left. reflexivity.
    + split; [split; [discriminate | intros [[r H] _]; discriminate] |].
      split; [reflexivity |]. split.
      * intros f [[= <-] | [[r H] _]]; [congruence | discriminate].
      * intros f [= <-]. right. exact Efd.
Qed.

(** X18. [explain(query, id)] returns what the client's [explain]
    returns.  When the client raises an [Exception] the caller gets
    [TypeError], never the client's exception and never an exit; only
    what is not an [Exception] passes through. *)
Theorem explain_masks_failures (body : Json) (id : Z)
    (s : Self Service Vocabulary) :
  let e := es_explain es (name s) id body (service s) in
  (forall r, fst (explain es body id s) = Returns r <-> fst e = Returns r) /\
  (forall f, fst e = Raises f -> is_Exception f = true ->
     fst (explain es body id s) = Raises (Builtin TypeError)) /\
  (forall f, fst (explain es body id s) = Raises f ->
     f = Builtin TypeError \/ is_Exception f = false) /\
  service (snd (explain es body id s)) = snd e /\
  vocabulary (snd (explain es body id s)) = vocabulary s.
Proof.
  intros e. subst e.
  unfold explain, try_except_Exception, ibind, call, log_and_exit,
    ilogging_ERROR, iexit, iraise.
  cbn [fst snd name service vocabulary].
  destruct (es_explain es (name s) id body (service s)) as [[r0 | f0] s0];
    cbn [fst snd name service vocabulary].
  - split; [intros r; reflexivity |]. split; [discriminate |].
    split; [discriminate |]. split; reflexivity.
  - destruct (is_Exception f0) eqn:Ef; cbn [fst snd service vocabulary].
    + split; [intros r; split; discriminate |]. split; [reflexivity |].
      split; [intros f [= <-]; left; reflexivity |]. split; reflexivity.
    + split; [intros r; split; discriminate |].
      split; [intros f [= <-]; congruence |].
      split; [intros f [= <-]; right; exact Ef |]. split; reflexivity.
Qed.

(** The loop of [add_bulk] feeds the vocabulary and nothing else. *)
Lemma add_all_words_frame (texts : list string) :
  forall s : Self Service Vocabulary,
    service (snd (add_all_words add_words_from texts s)) = service s /\
    name (snd (add_all_words add_words_from texts s)) = name s.
Proof.
  induction texts as [| t rest IH]; intros s.
  - split; reflexivity.
  - simpl. unfold ibind, add_words.
    destruct (add_words_from t (vocabulary s)) as [[[] | f] v];
      cbn [fst snd].
    + destruct (IH (mkSelf (name s) (service s) v)) as [I1 I2].
      rewrite I1, I2. split; reflexivity.
    + split; reflexivity.
Qed.

(** X19. When [add_words_from] raises for one of the texts,
    [add_bulk(texts)] raises that and the service is not contacted: its
    state is the one before the call.  [add(text)] feeds the vocabulary
    before it sends the document, so a failing [index] call leaves the
    words of the text in the vocabulary. *)
Theorem add_bulk_vocabulary_first (texts : list string) (text : string)
    (s : Self Service Vocabulary) :
  (forall f, fst (add_all_words add_words_from texts s) = Raises f ->
     fst (add_bulk es add_words_from texts s) = Raises f /\
     service (snd (add_bulk es add_words_from texts s)) = service s) /\
  (forall v, add_words_from text (vocabulary s) = (Returns tt, v) ->
     vocabulary (snd (add es add_words_from text s)) = v /\
     fst (add es add_words_from text s)
     = fst (es_index es (name s) "wait_for"
              (JObject [("full_text"%string, JString text)]) (service s))) /\
  (forall f v, add_words_from text (vocabulary s) = (Raises f, v) ->
     fst (add es add_words_from text s) = Raises f /\
     service (snd (add es add_words_from text s)) = service s).
Proof.
  split; [| split].
  - intros f Hf. unfold add_bulk, ibind.
    destruct (add_all_words_frame texts s) as [Hs _].
    destruct (add_all_words add_words_from texts s) as [[[] | f'] s'];
      cbn [fst snd] in *; [discriminate |].
    injection Hf as ->. split; [reflexivity | exact Hs].
  - intros v Hv. unfold add, ibind, add_words, call. rewrite Hv.
    cbn [fst snd name service vocabulary]. split; reflexivity.
  - intros f v Hv. unfold add, ibind, add_words, call. rewrite Hv.
    cbn [fst snd name service vocabulary]. split; reflexivity.
Qed.

Lemma action_text_bulk_action (index_name text : string) :
  action_text (bulk_action index_name text) = Some text.
Proof. reflexivity. Qed.

Lemma add_all_words_fold (texts : list string) :
  (forall t v, fst (add_words_from t v) = Returns tt) ->
  forall s : Self Service Vocabulary,
    add_all_words add_words_from texts s
    = (Returns tt,
       mkSelf (name s) (service s)
              (fold_left (fun v t => snd (add_words_from t v)) texts
                         (vocabulary s))).
Proof.
  intros Hok. induction texts as [| t rest IH]; intros s.
  - destruct s. reflexivity.
  - simpl. unfold ibind, add_words. rewrite Hok. rewrite IH. reflexivity.
Qed.

Lemma add_each_vocabulary (texts : list string) :
  (forall t v, fst (add_words_from t v) = Returns tt) ->
  (forall i r b sv, exists j, fst (es_index es i r b sv) = Returns j) ->
  forall s : Self Service Vocabulary,
    fst (add_each es add_words_from texts s) = Returns tt /\
    vocabulary (snd (add_each es add_words_from texts s))
    = fold_left (fun v t => snd (add_words_from t v)) texts (vocabulary s).
Proof.
  intros Hok Hes. induction texts as [| t rest IH]; intros s.
  - split; reflexivity.
  - simpl. unfold ibind at 1. unfold add, ibind, add_words, call.
    rewrite Hok. cbn [fst snd name service vocabulary].
    destruct (Hes (name s) "wait_for"%string
                (JObject [("full_text"%string, JString t)]) (service s))
      as [j Hj].
    rewrite Hj. apply IH.
Qed.

(** X20. When the vocabulary takes every text, [add_bulk(texts)] feeds it
    the texts in order and then sends the service, in one call, one
    [index] action per text for this index; the texts read back from the
    actions are the texts, in order.  If the client's [index] returns
    too, one [add(text)] per text leaves the same vocabulary as
    [add_bulk(texts)]. *)
Theorem add_bulk_sends_every_text (texts : list string)
    (s : Self Service Vocabulary) :
  (forall t v, fst (add_words_from t v) = Returns tt) ->
  vocabulary (snd (add_bulk es add_words_from texts s))
  = fold_left (fun v t => snd (add_words_from t v)) texts (vocabulary s) /\
  (fst (add_bulk es add_words_from texts s),
   service (snd (add_bulk es add_words_from texts s)))
  = es_bulk es (_bulk_data_generator (name s) texts) "wait_for" (service s) /\
  map action_text (_bulk_data_generator (name s) texts) = map Some texts /\
  length (_bulk_data_generator (name s) texts) = length texts /\
  ((forall i r b sv, exists j, fst (es_index es i r b sv) = Returns j) ->
   vocabulary (snd (add_each es add_words_from texts s))
   = vocabulary (snd (add_bulk es add_words_from texts s))).
Proof.
  intros Hok.
  assert (Hv : vocabulary (snd (add_bulk es add_words_from texts s))
               = fold_left (fun v t => snd (add_words_from t v)) texts
                           (vocabulary s)).
  { unfold add_bulk, ibind. rewrite (add_all_words_fold texts Hok).
    reflexivity. }
  split; [exact Hv |]. split.
  { unfold add_bulk, ibind. rewrite (add_all_words_fold texts Hok).
    unfold call. cbn [fst snd name service].
    destruct (es_bulk es _ _ _). reflexivity. }
  split.
  { unfold _bulk_data_generator. rewrite map_map. apply map_ext.
    intros t. apply action_text_bulk_action. }
  split; [unfold _bulk_data_generator; apply length_map |].
  intros Hes. rewrite Hv.
  apply (add_each_vocabulary texts Hok Hes).
Qed.

End IndexProperties.

Lemma ensure_index_masks_failures_witness :
  fst (Index.ensure_index Index.failing_client
         (Index.mkSelf (Vocabulary := list string) "docs" ([] : list Index.Json) []))
  = Index.Raises (Index.Builtin TypeError) /\
  fst (Index.ensure_index Index.logging_client
         (Index.mkSelf (Vocabulary := list string) "docs" ([] : list Index.Json) []))
  = Index.Returns tt.
Proof.
  split.
  - refine (proj1 (proj2 (proj2 (ensure_index_masks_failures
                                   Index.failing_client
                                   (Index.mkSelf (Vocabulary := list string) "docs" ([] : list Index.Json) []))))
              (Index.ClientError "connection refused") _ _).
    + left. reflexivity.
    + reflexivity.
  - apply (ensure_index_masks_failures Index.logging_client
             (Index.mkSelf (Vocabulary := list string) "docs" ([] : list Index.Json) [])).
    split; eexists; reflexivity.
Defined.

Lemma explain_masks_failures_witness :
  fst (Index.explain Index.failing_client (Index.JObject []) 7
         (Index.mkSelf (Vocabulary := list string) "docs" ([] : list Index.Json) []))
  = Index.Raises (Index.Builtin TypeError).
Proof.
  refine (proj1 (proj2 (explain_masks_failures Index.failing_client
                          (Index.JObject []) 7
                          (Index.mkSelf (Vocabulary := list string) "docs" ([] : list Index.Json) [])))
            (Index.ClientError "connection refused") _ _);
    reflexivity.
Defined.

Lemma add_bulk_vocabulary_first_witness :
  Index.vocabulary
    (snd (Index.add Index.failing_client Index.collect_text "a b"
            (Index.mkSelf (Vocabulary := list string) "docs" ([] : list Index.Json) [])))
  = ["a b"%string].
Proof.
  refine (proj1 (proj1 (proj2 (add_bulk_vocabulary_first Index.failing_client
                                 Index.collect_text [] "a b"
                                 (Index.mkSelf "docs" ([] : list Index.Json) ([] : list string))))
                   ["a b"%string] _)).
  reflexivity.
Defined.

Lemma add_bulk_sends_every_text_witness :
  Index.vocabulary
    (snd (Index.add_each Index.logging_client Index.collect_text
            ["a b"; "c"]%string
            (Index.mkSelf (Vocabulary := list string) "docs" ([] : list Index.Json) [])))
  = Index.vocabulary
      (snd (Index.add_bulk Index.logging_client Index.collect_text
              ["a b"; "c"]%string
              (Index.mkSelf (Vocabulary := list string) "docs" ([] : list Index.Json) []))).
Proof.
  refine (proj2 (proj2 (proj2 (proj2
            (add_bulk_sends_every_text Index.logging_client Index.collect_text
               ["a b"; "c"]%string (Index.mkSelf "docs" ([] : list Index.Json) ([] : list string)) _)))) _).
  - intros t v. reflexivity.
  - intros i r b sv. eexists. reflexivity.
Defined.
